(** * Rate-of-fire detector: signal primitives, peak detection, burst grouping

    A shallow embedding of [signal-processing.js], [rof-detector.js] and the
    data-preparing helpers of [visualizer.js].

    JavaScript numbers are IEEE 754 binary64 values, which is exactly what
    Rocq's primitive [float] is, so every arithmetic operation and every
    comparison below is the one the engine performs, rounding, infinities,
    signed zeros and NaN included.  Array indices, lengths and loop counters
    are [nat] (or [Z] where the source subtracts them): they are integers far
    below 2^53, on which JavaScript arithmetic is exact.  Plain arrays and
    typed arrays are lists; a value stored into a [Float32Array] is rounded
    to binary32 first ([JS.fround]).  Reading an array outside its bounds
    yields [undefined], which arithmetic and comparisons turn into NaN, so a
    list lookup defaults to [nan]; the one place where [undefined] is used
    otherwise, the method call [toFixed] in the log line of [calculateRates],
    is modelled as the [TypeError] it is.  Apart from that, logging and
    progress callbacks do not influence any result and are left out.  What
    ECMAScript leaves to the engine is not invented: the lengths at which
    [new Float32Array] fails are a parameter ([JS.engine]), and the order in
    which [sort] leaves an array under an inconsistent comparator is not
    modelled ([Signal.median] of an array holding NaN has no value here). *)

From Stdlib Require Import String List ZArith Lia Bool Floats Sorted Permutation.
From Stdlib Require Uint63.
Import ListNotations.

Set Warnings "-inexact-float".
Open Scope float_scope.

(** ** JavaScript numbers and built-ins *)

Module JS.

(** Exact conversion of an integer below 2^53 in magnitude. *)
Definition of_Z (z : Z) : float :=
  if (z <? 0)%Z then - of_uint63 (Uint63.of_Z (- z)) else of_uint63 (Uint63.of_Z z).

Definition of_nat (n : nat) : float := of_Z (Z.of_nat n).

(** The integer [floor x] of a finite number, 0 otherwise. *)
Definition floor_Z (x : float) : Z :=
  match Prim2SF x with
  | S754_finite s m e => Z.shiftl (cond_Zopp s (Zpos m)) e
  | _ => 0%Z
  end.

(** [Math.floor]. *)
Definition Math_floor (x : float) : float :=
  match Prim2SF x with
  | S754_finite _ _ e => if (0 <=? e)%Z then x else of_Z (floor_Z x)
  | _ => x
  end.

(** [Math.max] of two arguments: NaN if either is NaN, and +0 above -0. *)
Definition Math_max (x y : float) : float :=
  if is_nan x || is_nan y then nan
  else if x <? y then y
  else if y <? x then x
  else if get_sign x then y else x.

(** [Math.fround]: the rounding applied by a store into a [Float32Array]. *)
Definition fround (x : float) : float :=
  match Prim2SF x with
  | S754_finite s m e => SF2Prim (SpecFloat.binary_round 24 128 s m e)
  | _ => x
  end.

(** [!x] on a number is true for 0, -0 and NaN. *)
Definition falsy (x : float) : bool := is_nan x || PrimFloat.is_zero x.

(** [arr[i]]. *)
Definition get (arr : list float) (i : nat) : float := nth i arr nan.

(** [SameValueZero]: the same value, NaN being the same as NaN and -0 the
    same as +0. *)
Definition SameValueZero (x y : float) : Prop :=
  x = y \/ (PrimFloat.is_zero x = true /\ PrimFloat.is_zero y = true).

(** [Array.prototype.sort(comparefn)].  The sort is stable, and an element
    [x] is moved behind [y] only when [comparefn(x, y) > 0]; a comparator
    result of NaN counts as 0.  [after x y] is that test.  For a consistent
    comparator every stable sort returns this list. *)
Section Sort.
Context {A : Type} (after : A -> A -> bool).

Fixpoint insert (x : A) (l : list A) : list A :=
  match l with
  | [] => [x]
  | y :: l' => if after x y then y :: insert x l' else x :: y :: l'
  end.

Fixpoint sort (l : list A) : list A :=
  match l with
  | [] => []
  | x :: l' => insert x (sort l')
  end.
End Sort.

(** What [new Float32Array(length)] does is partly left to the engine: a
    length of 2^53 or more is not an array length and always a
    [RangeError]; below that the engine decides which lengths it
    allocates and throws a [RangeError] for the others. *)
Record engine := { allocates : float -> bool }.

Definition Float32Array_throws (e : engine) (length : float) : bool :=
  (0x1p+53 <=? length) || negb (allocates e length).

(** [(a, b) => a - b] on numbers. *)
Definition ascending (a b : float) : bool := 0 <? a - b.

(** [(a, b) => a - b] on array indices, where the subtraction is exact. *)
Definition ascending_idx (a b : nat) : bool := (0 <? Z.of_nat a - Z.of_nat b)%Z.

End JS.

(** ** The order of binary64 numbers

    Every number other than NaN gets a key, a triple of integers ordered
    lexicographically, and comparing two numbers is comparing their keys:
    the sign class first, then the exponent, then the mantissa, the last two
    negated for negative numbers.  Both zeros share a key. *)

Module FloatOrder.

Definition rank (x : spec_float) : Z * Z * Z :=
  match x with
  | S754_zero _ => (0, 0, 0)
  | S754_infinity false => (2, 0, 0)
  | S754_infinity true => (-2, 0, 0)
  | S754_nan => (0, 0, 0)
  | S754_finite false m e => (1, e, Zpos m)
  | S754_finite true m e => (-1, - e, Zneg m)
  end%Z.

Definition key (x : float) : Z * Z * Z := rank (Prim2SF x).

Definition lt3 (a b : Z * Z * Z) : Prop :=
  (fst (fst a) < fst (fst b)
   \/ (fst (fst a) = fst (fst b)
       /\ (snd (fst a) < snd (fst b)
           \/ (snd (fst a) = snd (fst b) /\ snd a < snd b))))%Z.

(** NaN, or a number whose sign bit is clear: +0, a positive number or
    +Infinity. *)
Definition sf_sign_clear (x : spec_float) : Prop :=
  match x with
  | S754_zero s | S754_infinity s | S754_finite s _ _ => s = false
  | S754_nan => True
  end.

Definition sign_clear (x : float) : Prop := sf_sign_clear (Prim2SF x).

(** A mantissa under shift that is not negative and at least [2^k]. *)
Definition at_least (k : Z) (mrs : shr_record) : Prop :=
  (0 <= shr_m mrs /\ 2 ^ k <= shr_m mrs)%Z.

End FloatOrder.

(** ** signal-processing.js *)

Module Signal.

(** *** Statistical functions *)

Definition mean (arr : list float) : float :=
  match arr with
  | [] => 0
  | _ => fold_left (fun sum x => sum + x) arr 0 / JS.of_nat (length arr)
  end.

Definition std (arr : list float) : float :=
  match arr with
  | [] => 0
  | _ =>
      let m := mean arr in
      let sumSquaredDiff :=
        fold_left (fun acc x => let diff := x - m in acc + diff * diff) arr 0 in
      sqrt (sumSquaredDiff / JS.of_nat (length arr))
  end.

Definition max (arr : list float) : float :=
  match arr with
  | [] => neg_infinity
  | x0 :: rest => fold_left (fun maxVal x => if maxVal <? x then x else maxVal) rest x0
  end.

Definition min (arr : list float) : float :=
  match arr with
  | [] => infinity
  | x0 :: rest => fold_left (fun minVal x => if x <? minVal then x else minVal) rest x0
  end.

(** On an array that holds a NaN the comparator [(a, b) => a - b] is not
    consistent, and the order in which [sort] leaves the array, and with
    it the number returned, is implementation-defined: the model has no
    value for it ([None]).  Without NaN the comparator is consistent and
    the sorted copy is the one every engine produces. *)
Definition median (arr : list float) : option float :=
  match arr with
  | [] => Some 0
  | _ =>
      if existsb is_nan arr then None
      else
        let sorted := JS.sort JS.ascending arr in
        let mid := Nat.div (length sorted) 2 in
        if Nat.eqb (Nat.modulo (length sorted) 2) 0
        then Some ((JS.get sorted (mid - 1) + JS.get sorted mid) / 2)
        else Some (JS.get sorted mid)
  end.

(** *** Array operations (results are [Float32Array]s) *)

Definition abs (arr : list float) : list float :=
  map (fun x => JS.fround (PrimFloat.abs x)) arr.

Definition diff (arr : list float) : list float :=
  if Nat.leb (length arr) 1 then []
  else map (fun i => JS.fround (JS.get arr (i + 1) - JS.get arr i))
           (seq 0 (length arr - 1)).

Definition ones (n : nat) : list float := map (fun _ => JS.fround 1) (seq 0 n).

Definition divide (arr : list float) (scalar : float) : list float :=
  map (fun x => JS.fround (x / scalar)) arr.

(** *** Convolution *)

(** One pass of the inner loop body at kernel position [j]; the state is
    [(sum, count)]. *)
Definition convolve_tap (signal kernel : list float) (halfKernel i : nat)
    (st : float * nat) (j : nat) : float * nat :=
  let '(sum, count) := st in
  let signalIdx := (Z.of_nat i - Z.of_nat halfKernel + Z.of_nat j)%Z in
  if ((0 <=? signalIdx)%Z && (signalIdx <? Z.of_nat (length signal))%Z)%bool
  then (sum + JS.get signal (Z.to_nat signalIdx) * JS.get kernel j, S count)
  else (sum, count).

(** The double quote character of the error message. *)
Definition quote : string := String (Ascii.ascii_of_nat 34) EmptyString.

(** [mode] defaults to 'same' when the argument is omitted; the result is
    the new [Float32Array], or the message of the [Error] thrown.  [count]
    is kept by the loop and never read. *)
Definition convolve (signal kernel : list float) (mode : string)
  : list float + string :=
  let signalLen := length signal in
  let kernelLen := length kernel in
  if String.eqb mode "same" then
    let halfKernel := Nat.div kernelLen 2 in
    inl (map (fun i =>
                JS.fround
                  (fst (fold_left (convolve_tap signal kernel halfKernel i)
                                  (seq 0 kernelLen) (0, O))))
             (seq 0 signalLen))
  else inr ("Only " ++ quote ++ "same" ++ quote ++ " mode is currently supported")%string.

(** *** Peak detection *)

Record options := {
  height : option float;
  distance : option float;
  prominence : option float
}.

Record peak_properties := { heights : list float }.

Record result := { peaks : list nat; properties : peak_properties }.

Record candidate := { idx : nat; cheight : float }.

(** Step 1: indices 1 .. n-2 that are strictly above both neighbours. *)
Definition localMaxima (data : list float) : list nat :=
  filter (fun i => (JS.get data (i - 1) <? JS.get data i)
                   && (JS.get data (i + 1) <? JS.get data i))
         (seq 1 (length data - 2)).

(** Step 2. *)
Definition heightFiltered (data : list float) (height : float) : list nat :=
  filter (fun idx => height <=? JS.get data idx) (localMaxima data).

(** Step 3, the loop [for (let i = idx - 1; i >= 0; i--)]: [k] is [i + 1]. *)
Fixpoint lookLeft (data : list float) (peakHeight : float) (k : nat)
    (leftMin : float) : float :=
  match k with
  | O => leftMin
  | S i =>
      let leftMin := if JS.get data i <? leftMin then JS.get data i else leftMin in
      if peakHeight <=? JS.get data i then leftMin
      else lookLeft data peakHeight i leftMin
  end.

(** Step 3, the loop [for (let i = idx + 1; i < n; i++)]: [fuel] is [n - i]. *)
Fixpoint lookRight (data : list float) (peakHeight : float) (fuel i : nat)
    (rightMin : float) : float :=
  match fuel with
  | O => rightMin
  | S fuel' =>
      let rightMin := if JS.get data i <? rightMin then JS.get data i else rightMin in
      if peakHeight <=? JS.get data i then rightMin
      else lookRight data peakHeight fuel' (i + 1) rightMin
  end.

Definition prominenceValue (data : list float) (idx : nat) : float :=
  let peakHeight := JS.get data idx in
  let leftMin := lookLeft data peakHeight idx peakHeight in
  let rightMin := lookRight data peakHeight (length data - (idx + 1)) (idx + 1) peakHeight in
  peakHeight - JS.Math_max leftMin rightMin.

Definition prominenceFiltered (data : list float) (heightFiltered : list nat)
    (prominence : float) : list nat :=
  if 0 <? prominence then
    let maxSignal := max data in
    let minProminence := prominence * maxSignal in
    filter (fun idx => minProminence <=? prominenceValue data idx) heightFiltered
  else heightFiltered.

(** Step 4: candidates by descending height, comparator
    [(a, b) => b.height - a.height]. *)
Definition byHeight (a b : candidate) : bool := 0 <? cheight b - cheight a.

Definition sortedByHeight (data : list float) (prominenceFiltered : list nat)
  : list candidate :=
  JS.sort byHeight
    (map (fun idx => {| idx := idx; cheight := JS.get data idx |}) prominenceFiltered).

Definition tooClose (distance : float) (peaks : list nat) (idx : nat) : bool :=
  existsb (fun existingPeak =>
             JS.of_Z (Z.abs (Z.of_nat idx - Z.of_nat existingPeak)) <? distance)
          peaks.

Definition selectPeaks (distance : float) (sorted : list candidate) : list nat :=
  fold_left (fun peaks c => if tooClose distance peaks (idx c) then peaks
                            else peaks ++ [idx c])
            sorted [].

Definition emptyResult : result := {| peaks := []; properties := {| heights := [] |} |}.

Definition findPeaks (data : list float) (opts : options) : result :=
  let height := match height opts with Some h => h | None => neg_infinity end in
  let distance := match distance opts with Some d => d | None => 1 end in
  let prominence := match prominence opts with Some p => p | None => 0 end in
  let n := length data in
  if Nat.ltb n 3 then emptyResult
  else
    let heightFiltered := heightFiltered data height in
    let prominenceFiltered := prominenceFiltered data heightFiltered prominence in
    match prominenceFiltered with
    | [] => emptyResult
    | _ =>
        let sortedByHeight := sortedByHeight data prominenceFiltered in
        let peaks := JS.sort JS.ascending_idx (selectPeaks distance sortedByHeight) in
        {| peaks := peaks; properties := {| heights := map (JS.get data) peaks |} |}
    end.

End Signal.

(** ** rof-detector.js *)

Module RateOfFireDetector.

(** The fields of a detector object; [None] is [null]. *)
Record state := {
  peakThresholdStd : float;
  minShotSpacing : float;
  burstGapThreshold : float;
  windowSize : float;
  minPeakProminence : float;
  minBurstCount : float;
  sampleRate : option float;
  audioData : option (list float);
  envelope : option (list float);
  shotTimes : list float;
  bursts : list (list nat)
}.

Record ctor_options := {
  opt_peakThresholdStd : option float;
  opt_minShotSpacing : option float;
  opt_burstGapThreshold : option float;
  opt_windowSize : option float;
  opt_minPeakProminence : option float;
  opt_minBurstCount : option float
}.

Definition no_options : ctor_options :=
  {| opt_peakThresholdStd := None; opt_minShotSpacing := None;
     opt_burstGapThreshold := None; opt_windowSize := None;
     opt_minPeakProminence := None; opt_minBurstCount := None |}.

(** [a ?? b]. *)
Definition nullish (a : option float) (b : float) : float :=
  match a with Some v => v | None => b end.

Definition constructor (options : ctor_options) : state :=
  {| peakThresholdStd := nullish (opt_peakThresholdStd options) 1.2;
     minShotSpacing := nullish (opt_minShotSpacing options) 0.05;
     burstGapThreshold := nullish (opt_burstGapThreshold options) 0.2;
     windowSize := nullish (opt_windowSize options) 0.002;
     minPeakProminence := nullish (opt_minPeakProminence options) 0.1;
     minBurstCount := nullish (opt_minBurstCount options) 5;
     sampleRate := None;
     audioData := None;
     envelope := None;
     shotTimes := [];
     bursts := [] |}.

Definition set_audio (d : state) (rate : float) (samples : list float) : state :=
  {| peakThresholdStd := peakThresholdStd d; minShotSpacing := minShotSpacing d;
     burstGapThreshold := burstGapThreshold d; windowSize := windowSize d;
     minPeakProminence := minPeakProminence d; minBurstCount := minBurstCount d;
     sampleRate := Some rate; audioData := Some samples;
     envelope := envelope d; shotTimes := shotTimes d; bursts := bursts d |}.

Definition set_envelope (d : state) (env : list float) : state :=
  {| peakThresholdStd := peakThresholdStd d; minShotSpacing := minShotSpacing d;
     burstGapThreshold := burstGapThreshold d; windowSize := windowSize d;
     minPeakProminence := minPeakProminence d; minBurstCount := minBurstCount d;
     sampleRate := sampleRate d; audioData := audioData d;
     envelope := Some env; shotTimes := shotTimes d; bursts := bursts d |}.

Definition set_shotTimes (d : state) (times : list float) : state :=
  {| peakThresholdStd := peakThresholdStd d; minShotSpacing := minShotSpacing d;
     burstGapThreshold := burstGapThreshold d; windowSize := windowSize d;
     minPeakProminence := minPeakProminence d; minBurstCount := minBurstCount d;
     sampleRate := sampleRate d; audioData := audioData d;
     envelope := envelope d; shotTimes := times; bursts := bursts d |}.

Definition set_bursts (d : state) (bs : list (list nat)) : state :=
  {| peakThresholdStd := peakThresholdStd d; minShotSpacing := minShotSpacing d;
     burstGapThreshold := burstGapThreshold d; windowSize := windowSize d;
     minPeakProminence := minPeakProminence d; minBurstCount := minBurstCount d;
     sampleRate := sampleRate d; audioData := audioData d;
     envelope := envelope d; shotTimes := shotTimes d; bursts := bs |}.

(** What can be thrown: [new Error(message)] by the code itself, and a
    [TypeError] or a [RangeError] by the engine, whose message is the
    engine's own. *)
Inductive exn : Type :=
| Error (message : string)
| TypeError
| RangeError.
Coercion Error : string >-> exn.

(** A method call either returns a value and the detector as it left it, or
    throws. *)
Inductive outcome (A : Type) : Type :=
| Return (v : A) (d : state)
| Throw (e : exn).
Arguments Return {A} v d.
Arguments Throw {A} e%_string.

Definition method (A : Type) : Type := state -> outcome A.

Definition bind {A B : Type} (m : method A) (k : A -> method B) : method B :=
  fun d => match m d with
           | Return v d' => k v d'
           | Throw e => Throw e
           end.

Definition pure {A : Type} (v : A) : method A := fun d => Return v d.

Notation "x <- m ;; k" := (bind m (fun x => k))
  (at level 61, m at next level, right associativity).
Notation "m ;;; k" := (bind m (fun _ => k))
  (at level 61, right associativity).

(** What [extractAudio] leaves behind once the external decoder has handed
    over the mono channel and its sample rate. *)
Definition extractAudio (rate : float) (samples : list float) : method float :=
  fun d => Return (JS.of_nat (length samples) / rate) (set_audio d rate samples).

(** The typed arrays that [abs], [divide] and [convolve] create are as
    long as one that exists; the one that [ones(windowSamples)] creates is
    as long as the window, and whether it can be created is the engine's
    [e] to say. *)
Definition calculateEnvelope (e : JS.engine) : method unit := fun d =>
  match audioData d, sampleRate d with
  | Some audio, Some rate =>
      if JS.falsy rate then Throw "Must call extractAudio first"%string
      else
        let windowSamples := JS.Math_max (JS.Math_floor (windowSize d * rate)) 1 in
        let absAudio := Signal.abs audio in
        if 1 <? windowSamples then
          if JS.Float32Array_throws e windowSamples
          then Throw RangeError
          else
            let window :=
              Signal.divide (Signal.ones (Z.to_nat (JS.floor_Z windowSamples)))
                            windowSamples in
            match Signal.convolve absAudio window "same" with
            | inl env => Return tt (set_envelope d env)
            | inr msg => Throw msg
            end
        else Return tt (set_envelope d absAudio)
  | _, _ => Throw "Must call extractAudio first"%string
  end.

Definition detectPeaks : method Signal.result := fun d =>
  match envelope d, sampleRate d with
  | Some env, Some rate =>
      if JS.falsy rate then Throw "Must call calculateEnvelope first"%string
      else
        let meanLevel := Signal.mean env in
        let stdLevel := Signal.std env in
        let threshold := meanLevel + peakThresholdStd d * stdLevel in
        let minDistance := JS.Math_floor (minShotSpacing d * rate) in
        let r := Signal.findPeaks env
                   {| Signal.height := Some threshold;
                      Signal.distance := Some minDistance;
                      Signal.prominence := Some (minPeakProminence d) |} in
        Return r (set_shotTimes d (map (fun idx => JS.of_nat idx / rate) (Signal.peaks r)))
  | _, _ => Throw "Must call calculateEnvelope first"%string
  end.

(** The body of the grouping loop at shot [i]; the state is
    [(this.bursts, currentBurst)]. *)
Definition burstStep (d : state) (st : list (list nat) * list nat) (i : nat)
  : list (list nat) * list nat :=
  let '(bs, currentBurst) := st in
  let gap := JS.get (shotTimes d) i - JS.get (shotTimes d) (i - 1) in
  if gap <=? burstGapThreshold d then (bs, currentBurst ++ [i])
  else
    (if minBurstCount d <=? JS.of_nat (length currentBurst)
     then bs ++ [currentBurst] else bs,
     [i]).

Definition groupIntoBursts : method unit := fun d =>
  if Nat.eqb (length (shotTimes d)) 0 then Return tt d
  else
    let '(bs, currentBurst) :=
      fold_left (burstStep d) (seq 1 (length (shotTimes d) - 1)) ([], [O]) in
    let bs := if minBurstCount d <=? JS.of_nat (length currentBurst)
              then bs ++ [currentBurst] else bs in
    Return tt (set_bursts d bs).

Record burstInfo := {
  burstNumber : nat;
  startTime : float;
  endTime : float;
  duration : float;
  numShots : nat;
  rateRpm : float;
  meanInterval : float;
  stdInterval : float;
  minInterval : float;
  maxInterval : float;
  burstShotTimes : list float
}.

Definition burstInfoOf (d : state) (burstIdx : nat) (burst : list nat) : burstInfo :=
  let times := map (fun idx => JS.get (shotTimes d) idx) burst in
  let startTime := JS.get times 0 in
  let endTime := JS.get times (length times - 1) in
  let duration := endTime - startTime in
  let numShots := length times in
  let rateRpm :=
    if 0 <? duration then ((JS.of_Z (Z.of_nat numShots - 1)) / duration) * 60 else 0 in
  let intervals := Signal.diff times in
  {| burstNumber := burstIdx + 1;
     startTime := startTime;
     endTime := endTime;
     duration := duration;
     numShots := numShots;
     rateRpm := rateRpm;
     meanInterval := Signal.mean intervals;
     stdInterval := Signal.std intervals;
     minInterval := Signal.min intervals;
     maxInterval := Signal.max intervals;
     burstShotTimes := times |}.

(** [times[0]] and [times[times.length - 1]] as the log line at the end of
    the loop body meets them: [None] is [undefined], which they are when the
    burst is empty or the index read there is no index of [shotTimes]. *)
Definition burstEnds (d : state) (burst : list nat) : option float * option float :=
  let times := map (nth_error (shotTimes d)) burst in
  (match nth_error times 0 with Some t => t | None => None end,
   match nth_error times (length times - 1) with Some t => t | None => None end).

(** The log line calls [startTime.toFixed(2)] and [endTime.toFixed(2)]: a
    [TypeError] unless both are numbers. *)
Definition logsBurst (d : state) (burst : list nat) : bool :=
  match burstEnds d burst with
  | (Some _, Some _) => true
  | _ => false
  end.

(** The loop of [calculateRates] from burst [burstIdx] on, [results] holding
    what has been pushed so far.  In [burstInfoOf] an [undefined] time is
    NaN, which is what the subtractions and comparisons applied to it make
    of it. *)
Fixpoint calculateRatesFrom (d : state) (burstIdx : nat) (rest : list (list nat))
    (results : list burstInfo) : outcome (list burstInfo) :=
  match rest with
  | [] => Return results d
  | burst :: rest' =>
      let results := results ++ [burstInfoOf d burstIdx burst] in
      if logsBurst d burst then calculateRatesFrom d (S burstIdx) rest' results
      else Throw TypeError
  end.

Definition calculateRates : method (list burstInfo) := fun d =>
  calculateRatesFrom d 0 (bursts d) [].

Record summary := {
  totalShots : nat;
  totalBursts : nat;
  overallRateRpm : float;
  meanBurstRateRpm : float;
  medianBurstRateRpm : option float;  (* [None]: see [Signal.median] *)
  minBurstRateRpm : float;
  maxBurstRateRpm : float;
  stdBurstRateRpm : float
}.

(** The pooled shot times of all bursts, in burst order. *)
Definition allShotTimes (burstResults : list burstInfo) : list float :=
  fold_left (fun acc burst => acc ++ burstShotTimes burst) burstResults [].

Definition generateSummary (burstResults : list burstInfo) : summary :=
  if Nat.eqb (length burstResults) 0 then
    {| totalShots := 0; totalBursts := 0; overallRateRpm := 0;
       meanBurstRateRpm := 0; medianBurstRateRpm := Some 0; minBurstRateRpm := 0;
       maxBurstRateRpm := 0; stdBurstRateRpm := 0 |}
  else
    let rates := map rateRpm burstResults in
    let totalShots := fold_left (fun sum b => (sum + numShots b)%nat) burstResults O in
    let allShotTimes := allShotTimes burstResults in
    let overallRate :=
      if Nat.leb 2 (length allShotTimes) then
        let totalDuration := Signal.max allShotTimes - Signal.min allShotTimes in
        (JS.of_Z (Z.of_nat (length allShotTimes) - 1) / totalDuration) * 60
      else 0 in
    {| totalShots := totalShots;
       totalBursts := length burstResults;
       overallRateRpm := overallRate;
       meanBurstRateRpm := Signal.mean rates;
       medianBurstRateRpm := Signal.median rates;
       minBurstRateRpm := Signal.min rates;
       maxBurstRateRpm := Signal.max rates;
       stdBurstRateRpm := Signal.std rates |}.

Record analysis := {
  audioDuration : float;
  analysisSampleRate : float;
  analysisSummary : summary;
  analysisBursts : list burstInfo;
  analysisPeaks : list nat
}.

(** [analyze], with the decoder's output in place of the file. *)
Definition analyze (e : JS.engine) (rate : float) (samples : list float)
  : method analysis :=
  audioDuration <- extractAudio rate samples ;;
  calculateEnvelope e ;;;
  found <- detectPeaks ;;
  groupIntoBursts ;;;
  burstResults <- calculateRates ;;
  fun d =>
    let summary := generateSummary burstResults in
    Return {| audioDuration := audioDuration;
              analysisSampleRate := rate;
              analysisSummary := summary;
              analysisBursts := burstResults;
              analysisPeaks := Signal.peaks found |} d.

End RateOfFireDetector.

(** ** visualizer.js: the helpers of [ROFVisualizer] that prepare plot data *)

Module ROFVisualizer.

Definition createTimeArray (length : nat) (sampleRate : float) : list float :=
  map (fun i => JS.fround (JS.of_nat i / sampleRate)) (seq 0 length).

(** What [downsample] returns: two plain arrays, an element being [None]
    where the loop read past the end of [timeArray]. *)
Record sampled (A B : Type) := {
  data : list (option A);
  time : list (option B)
}.
Arguments data {A B} s.
Arguments time {A B} s.

(** The loop [for (let i = 0; i < data.length; i += step)] of [downsample],
    with [fuel] passes left; it returns what the passes push. *)
Fixpoint downsampleLoop {A B : Type} (samples : list A) (timeArray : list B)
    (step fuel i : nat) : list (option A) * list (option B) :=
  match fuel with
  | O => ([], [])
  | S fuel' =>
      if Nat.ltb i (length samples) then
        let '(downsampled, downsampledTime) :=
          downsampleLoop samples timeArray step fuel' (i + step) in
        (nth_error samples i :: downsampled, nth_error timeArray i :: downsampledTime)
      else ([], [])
  end.

(** [downsample(data, timeArray, maxPoints)] for a count [maxPoints]; the
    one caller passes 5000.  For [maxPoints = 0] the step is [Infinity] and
    the loop body runs once.  Otherwise the step is at least 1, so the loop
    has ended after [data.length] passes. *)
Definition downsample {A B : Type} (samples : list A) (timeArray : list B)
    (maxPoints : nat) : sampled A B :=
  if Nat.leb (length samples) maxPoints then
    {| data := map Some samples; time := map Some timeArray |}
  else
    match maxPoints with
    | O => {| data := [nth_error samples 0]; time := [nth_error timeArray 0] |}
    | S _ =>
        let step := Nat.div (length samples) maxPoints in
        let '(downsampled, downsampledTime) :=
          downsampleLoop samples timeArray step (length samples) 0 in
        {| data := downsampled; time := downsampledTime |}
    end.

Definition baseColors : list string :=
  ["#FF6B6B"; "#4ECDC4"; "#45B7D1"; "#FFA07A"; "#98D8C8";
   "#F7DC6F"; "#BB8FCE"; "#85C1E2"; "#F8B739"; "#52C77C"]%string.

Definition generateColors (count : nat) : list string :=
  map (fun i => nth (Nat.modulo i (length baseColors)) baseColors EmptyString) (seq 0 count).

End ROFVisualizer.

(** ** The specification's own wording, for comparison with the code *)

Module Spec.

(** The samples met while walking away from a peak: the walk ends at the
    end of the sequence or with the first sample that reaches the peak's
    own height. *)
Fixpoint scanned (peakHeight : float) (walk : list float) : list float :=
  match walk with
  | [] => []
  | x :: rest => if peakHeight <=? x then [x] else x :: scanned peakHeight rest
  end.

(** The same walk without the sample that ends it. *)
Fixpoint scanned_before (peakHeight : float) (walk : list float) : list float :=
  match walk with
  | [] => []
  | x :: rest => if peakHeight <=? x then [] else x :: scanned_before peakHeight rest
  end.

(** The samples left of [idx], nearest first, and those right of it. *)
Definition leftWalk (data : list float) (idx : nat) : list float := rev (firstn idx data).
Definition rightWalk (data : list float) (idx : nat) : list float := skipn (idx + 1) data.

(** "recording the minimum value seen". *)
Definition leftMin (data : list float) (idx : nat) : float :=
  Signal.min (scanned (JS.get data idx) (leftWalk data idx)).
Definition rightMin (data : list float) (idx : nat) : float :=
  Signal.min (scanned (JS.get data idx) (rightWalk data idx)).

(** "Prominence = height(i) - max(leftMin, rightMin)". *)
Definition prominenceOf (data : list float) (idx : nat) : float :=
  JS.get data idx - JS.Math_max (leftMin data idx) (rightMin data idx).

(** "Keep the index only if this prominence >= prominence x globalMax". *)
Definition keeps (data : list float) (prominence : float) (idx : nat) : bool :=
  prominence * Signal.max data <=? prominenceOf data idx.

(** "process remaining candidates in descending order of height", those of
    equal height in the order of their indices ("equal height keeps
    sort-stability of first occurrence"): candidate [j] is processed before
    candidate [i]. *)
Definition before (data : list float) (j i : nat) : bool :=
  (JS.get data i <? JS.get data j)
  || (negb (JS.get data j <? JS.get data i) && Nat.ltb j i).

(** "Burst: an ordered, non-empty sequence of shot times belonging to one
    group; consecutive shots differ by no more than the configured gap
    threshold, and the burst's shot count meets the configured minimum",
    for a burst given by the indices of its shots. *)
Definition is_burst (d : RateOfFireDetector.state) (b : list nat) : Prop :=
  exists start len,
    b = seq start (S len)
    /\ (start + len < length (RateOfFireDetector.shotTimes d))%nat
    /\ (forall i, (start < i <= start + len)%nat ->
                  (JS.get (RateOfFireDetector.shotTimes d) i
                   - JS.get (RateOfFireDetector.shotTimes d) (i - 1)
                   <=? RateOfFireDetector.burstGapThreshold d) = true)
    /\ (RateOfFireDetector.minBurstCount d <=? JS.of_nat (length b)) = true.

(** Shot [i] follows shot [i - 1] within the gap threshold. *)
Definition within_gap (d : RateOfFireDetector.state) (i : nat) : bool :=
  JS.get (RateOfFireDetector.shotTimes d) i - JS.get (RateOfFireDetector.shotTimes d) (i - 1)
  <=? RateOfFireDetector.burstGapThreshold d.

(** Shots [start .. start + len] form a run that cannot be extended: each
    follows its predecessor within the gap threshold, the one before the
    first (if any) does not, and neither does the one after the last. *)
Definition maximal_run (d : RateOfFireDetector.state) (start len : nat) : Prop :=
  (start + len < length (RateOfFireDetector.shotTimes d))%nat
  /\ (forall i, (start < i <= start + len)%nat -> within_gap d i = true)
  /\ (start = 0%nat \/ within_gap d start = false)
  /\ ((start + len + 1)%nat = length (RateOfFireDetector.shotTimes d)
      \/ within_gap d (start + len + 1) = false).

(** What holds of [(this.bursts, currentBurst)] just before shot [i] is
    looked at. *)
Definition runs_so_far (d : RateOfFireDetector.state) (i : nat) (st : list (list nat) * list nat) : Prop :=
  exists start len,
    snd st = seq start (S len) /\ (start + S len = i)%nat
    /\ (forall j, (start < j <= start + len)%nat -> within_gap d j = true)
    /\ (start = 0%nat \/ within_gap d start = false)
    /\ (forall b, In b (fst st) <->
                  exists s l, b = seq s (S l) /\ (s + S l <= start)%nat
                              /\ maximal_run d s l
                              /\ (RateOfFireDetector.minBurstCount d <=? JS.of_nat (S l)) = true)
    /\ StronglySorted lt (concat (fst st))
    /\ Forall (fun x => (x < start)%nat) (concat (fst st)).

(** The bursts closed when every gap test fails: one per shot, if a single
    shot passes the count test. *)
Definition singles (d : RateOfFireDetector.state) (shots : list nat) : list (list nat) :=
  if RateOfFireDetector.minBurstCount d <=? 1 then map (fun i => [i]) shots else [].

(** A signal padded with zeros on both sides. *)
Definition padded (signal : list float) (k : Z) : float :=
  if ((0 <=? k)%Z && (k <? Z.of_nat (length signal))%Z)%bool
  then JS.get signal (Z.to_nat k) else 0.

(** The "same" sum of [Signal.convolve] taken over the zero-padded signal:
    an out-of-range position contributes [0 * kernel[j]] instead of
    being skipped. *)
Definition convolve_zero_padded (signal kernel : list float) : list float :=
  let halfKernel := Nat.div (length kernel) 2 in
  map (fun i =>
         JS.fround
           (fold_left
              (fun sum j =>
                 sum + padded signal (Z.of_nat i - Z.of_nat halfKernel + Z.of_nat j)
                       * JS.get kernel j)
              (seq 0 (length kernel)) 0))
      (seq 0 (length signal)).

End Spec.

(** ** Fixtures *)

Module Fixtures.
Import RateOfFireDetector.

Definition detector (gap count : float) (times : list float) : state :=
  set_shotTimes
    (constructor {| opt_peakThresholdStd := None; opt_minShotSpacing := None;
                    opt_burstGapThreshold := Some gap; opt_windowSize := None;
                    opt_minPeakProminence := None; opt_minBurstCount := Some count |})
    times.

(** Six shots with a 0.35 s pause after the third. *)
Definition two_bursts : state := detector 0.2 3 [0.0; 0.1; 0.15; 0.5; 0.55; 0.6].

(** The detector after a call of [groupIntoBursts]. *)
Definition grouped (d : state) : state :=
  match groupIntoBursts d with
  | Return _ d' => d'
  | Throw _ => d
  end.

(** Five shots spanning 0.4 s, grouped into one burst. *)
Definition five_shots : state := grouped (detector 0.2 5 [0; 0.1; 0.2; 0.3; 0.4]).

(** Fourteen shots an eighth of a second apart, a pause of three eighths,
    five shots a quarter of a second apart; the gap threshold is a quarter
    of a second and the minimum burst count the default five. *)
Definition fast_then_slow : state :=
  detector 0.25 5
    [0; 0.125; 0.25; 0.375; 0.5; 0.625; 0.75; 0.875; 1; 1.125; 1.25; 1.375; 1.5; 1.625;
     2; 2.25; 2.5; 2.75; 3].

(** A detector that has grouped [two_bursts] and is then handed a flat
    recording, in which [detectPeaks] finds nothing. *)
Definition reused : state :=
  let d := set_envelope (set_audio (grouped two_bursts) 1000 [0; 0; 0; 0]) [0; 0; 0; 0] in
  match detectPeaks d with
  | Return _ d' => d'
  | Throw _ => d
  end.

Definition options (h d p : float) : Signal.options :=
  {| Signal.height := Some h; Signal.distance := Some d; Signal.prominence := Some p |}.

(** An engine that allocates typed arrays of fewer than 2^32 elements. *)
Definition engine : JS.engine := {| JS.allocates := fun length => length <? 0x1p+32 |}.

End Fixtures.

(** ** Facts about binary64 comparison *)

Lemma SFcompare_refl (x : spec_float) : x <> S754_nan -> SFcompare x x = Some Eq.
Proof.
  destruct x as [s|s| |s m e]; cbn; intros H; try reflexivity; try congruence.
  - destruct s; reflexivity.
  - destruct s; rewrite Z.compare_refl, Pos.compare_cont_refl; reflexivity.
Qed.

Lemma is_nan_Prim2SF (x : float) : is_nan x = false <-> Prim2SF x <> S754_nan.
Proof.
  unfold is_nan. rewrite eqb_spec. unfold SFeqb. split.
  - intros H Hnan. rewrite Hnan in H. discriminate.
  - intros H. rewrite (SFcompare_refl _ H). reflexivity.
Qed.

Lemma iter_pos_preserves {A : Type} (P : A -> Prop) (f : A -> A) :
  (forall x, P x -> P (f x)) -> forall n x, P x -> P (iter_pos f n x).
Proof.
  intros Hf. induction n as [n IH|n IH|]; intros x Hx; cbn; auto.
Qed.

Lemma shr_1_nonneg (mrs : shr_record) :
  (0 <= shr_m mrs)%Z -> (0 <= shr_m (shr_1 mrs))%Z.
Proof.
  destruct mrs as [m r s]. cbn.
  destruct m as [|p|p]; cbn; try lia; destruct p; cbn; lia.
Qed.

Lemma shr_fexp_nonneg (prec emax m e : Z) (l : location) :
  (0 <= m)%Z -> (0 <= shr_m (fst (shr_fexp prec emax m e l)))%Z.
Proof.
  intros Hm. unfold shr_fexp, shr.
  assert (H0 : (0 <= shr_m (shr_record_of_loc m l))%Z).
  { destruct l as [|[]]; cbn; exact Hm. }
  destruct (fexp prec emax (Zdigits2 m + e) - e)%Z; cbn; try exact H0.
  apply (iter_pos_preserves (fun mrs => (0 <= shr_m mrs)%Z)); [apply shr_1_nonneg | exact H0].
Qed.

Lemma binary_round_aux_not_nan (prec emax : Z) (s : bool) (m e : Z) (l : location) :
  (0 <= m)%Z -> binary_round_aux prec emax s m e l <> S754_nan.
Proof.
  intros Hm. unfold binary_round_aux.
  pose proof (shr_fexp_nonneg prec emax m e l Hm) as H1.
  destruct (shr_fexp prec emax m e l) as [mrs' e']. cbn in H1.
  assert (H2 : (0 <= round_nearest_even (shr_m mrs') (loc_of_shr_record mrs'))%Z).
  { unfold round_nearest_even.
    destruct (loc_of_shr_record mrs') as [|[]]; try lia.
    destruct (Z.even (shr_m mrs')); lia. }
  pose proof (shr_fexp_nonneg prec emax _ e' loc_Exact H2) as H3.
  destruct (shr_fexp prec emax _ e' loc_Exact) as [mrs'' e'']. cbn in H3.
  destruct (shr_m mrs'') as [|p|p]; try lia; try discriminate.
  destruct (e'' <=? emax - prec)%Z; discriminate.
Qed.

Lemma binary_normalize_not_nan (prec emax m e : Z) (szero : bool) :
  binary_normalize prec emax m e szero <> S754_nan.
Proof.
  unfold binary_normalize, binary_round.
  destruct m as [|p|p]; try discriminate;
    destruct (shl_align _ _ _) as [mz ez]; apply binary_round_aux_not_nan; lia.
Qed.

(** An integer never converts to NaN. *)
Lemma of_Z_not_nan (z : Z) : is_nan (JS.of_Z z) = false.
Proof.
  apply is_nan_Prim2SF. unfold JS.of_Z.
  destruct (z <? 0)%Z.
  - rewrite opp_spec, of_uint63_spec.
    pose proof (binary_normalize_not_nan prec emax (Uint63.to_Z (Uint63.of_Z (- z))) 0 false).
    destruct (binary_normalize _ _ _ _ _); cbn; congruence.
  - rewrite of_uint63_spec. apply binary_normalize_not_nan.
Qed.

Ltac rank_cases :=
  eexists; split; [reflexivity|]; unfold FloatOrder.lt3; cbn;
  split; split; intros; first [reflexivity | discriminate | lia].

Lemma SFcompare_rank (x y : spec_float) :
  x <> S754_nan -> y <> S754_nan ->
  exists c, SFcompare x y = Some c
            /\ (c = Lt <-> FloatOrder.lt3 (FloatOrder.rank x) (FloatOrder.rank y))
            /\ (c = Gt <-> FloatOrder.lt3 (FloatOrder.rank y) (FloatOrder.rank x)).
Proof.
  intros Hx Hy.
  destruct x as [sx|sx| |sx mx ex], y as [sy|sy| |sy my ey]; try congruence;
    try (destruct sx); try (destruct sy); cbn; try rank_cases.
  all: change (Pos.compare_cont Eq mx my) with (Pos.compare mx my);
    destruct (Z.compare_spec ex ey) as [He|He|He];
      [destruct (Pos.compare_spec mx my) as [Hm|Hm|Hm]| |]; cbn; rank_cases.
Qed.

Lemma SFcompare_nan (x y : spec_float) :
  x = S754_nan \/ y = S754_nan -> SFcompare x y = None.
Proof. intros [-> | ->]; [reflexivity | destruct x; reflexivity]. Qed.

Lemma spec_float_nan_dec (x : spec_float) : x = S754_nan \/ x <> S754_nan.
Proof. destruct x; (now left) || (right; discriminate). Qed.

Lemma ltb_rank (x y : float) :
  (x <? y) = true <->
  is_nan x = false /\ is_nan y = false
  /\ FloatOrder.lt3 (FloatOrder.key x) (FloatOrder.key y).
Proof.
  rewrite ltb_spec, !is_nan_Prim2SF. unfold SFltb, FloatOrder.key.
  destruct (spec_float_nan_dec (Prim2SF x)) as [Hx | Hx].
  { rewrite SFcompare_nan by now left. split; [discriminate | tauto]. }
  destruct (spec_float_nan_dec (Prim2SF y)) as [Hy | Hy].
  { rewrite SFcompare_nan by now right. split; [discriminate | tauto]. }
  destruct (SFcompare_rank _ _ Hx Hy) as [c [-> [Hlt _]]].
  split.
  - destruct c; try discriminate. intros _. repeat split; try assumption. now apply Hlt.
  - intros [_ [_ H]]. apply Hlt in H. now rewrite H.
Qed.

Lemma leb_rank (x y : float) :
  (x <=? y) = true <->
  is_nan x = false /\ is_nan y = false
  /\ ~ FloatOrder.lt3 (FloatOrder.key y) (FloatOrder.key x).
Proof.
  rewrite leb_spec, !is_nan_Prim2SF. unfold SFleb, FloatOrder.key.
  destruct (spec_float_nan_dec (Prim2SF x)) as [Hx | Hx].
  { rewrite SFcompare_nan by now left. split; [discriminate | tauto]. }
  destruct (spec_float_nan_dec (Prim2SF y)) as [Hy | Hy].
  { rewrite SFcompare_nan by now right. split; [discriminate | tauto]. }
  destruct (SFcompare_rank _ _ Hx Hy) as [c [-> [_ Hgt]]].
  split.
  - destruct c; try discriminate; intros _; repeat split; try assumption;
      intros H; apply Hgt in H; discriminate.
  - intros [_ [_ H]]. destruct c; try reflexivity. exfalso. apply H, Hgt. reflexivity.
Qed.

Ltac float_order :=
  repeat match goal with
         | H : (_ <? _) = true |- _ => apply ltb_rank in H; destruct H as [? [? H]]
         | H : (_ <=? _) = true |- _ => apply leb_rank in H; destruct H as [? [? H]]
         end;
  unfold FloatOrder.lt3 in *;
  first [ lia
        | repeat split; first [assumption | lia] ].

(** For numbers that are not NaN, "not below" is "at least". *)
Lemma ltb_false_leb (x y : float) :
  is_nan x = false -> is_nan y = false -> (x <? y) = false -> (y <=? x) = true.
Proof.
  intros Hx Hy Hlt. apply leb_rank. repeat split; try assumption.
  intros H. assert (Htrue : (x <? y) = true) by (apply ltb_rank; tauto).
  congruence.
Qed.

Lemma leb_trans (x y z : float) :
  (x <=? y) = true -> (y <=? z) = true -> (x <=? z) = true.
Proof. intros H1 H2. apply leb_rank. float_order. Qed.

Lemma ltb_leb_weaken (x y : float) : (x <? y) = true -> (x <=? y) = true.
Proof. intros H. apply leb_rank. float_order. Qed.

Lemma ltb_leb_trans (x y z : float) :
  (x <? y) = true -> (y <=? z) = true -> (x <=? z) = true.
Proof. intros H1 H2. apply leb_rank. float_order. Qed.

Lemma ltb_not_geb (x y : float) : (x <? y) = true -> (y <=? x) = false.
Proof.
  intros H. apply not_true_is_false. intros H'. float_order.
Qed.

Lemma leb_leb_not_ltb (x y z : float) :
  (x <=? y) = true -> (y <=? z) = true -> (z <? x) = false.
Proof.
  intros H1 H2. apply not_true_is_false. intros H'. float_order.
Qed.

Lemma binary_round_aux_negative (prec emax : Z) (m e : Z) (l : location) :
  SFltb (S754_zero false) (binary_round_aux prec emax true m e l) = false.
Proof.
  unfold binary_round_aux.
  destruct (shr_fexp prec emax m e l) as [mrs' e'].
  destruct (shr_fexp prec emax _ e' loc_Exact) as [mrs'' e''].
  destruct (shr_m mrs''); try reflexivity.
  destruct (e'' <=? emax - prec)%Z; reflexivity.
Qed.

Lemma binary_normalize_positive (prec emax : Z) (m e : Z) :
  SFltb (S754_zero false) (binary_normalize prec emax m e false) = true -> (0 < m)%Z.
Proof.
  destruct m as [|p|p]; cbn; [discriminate | lia |].
  unfold binary_round. destruct (shl_align _ _ _) as [mz ez].
  rewrite binary_round_aux_negative. discriminate.
Qed.

Lemma SFsub_positive_one_way (x y : spec_float) :
  SFltb (S754_zero false) (SFsub prec emax x y) = true ->
  SFltb (S754_zero false) (SFsub prec emax y x) = false.
Proof.
  destruct x as [sx|sx| |sx mx ex], y as [sy|sy| |sy my ey];
    try solve [cbn; repeat match goal with s : bool |- _ => destruct s end; cbn;
               intros H; first [discriminate H | reflexivity]].
  unfold SFsub. rewrite (Z.min_comm ey ex). intros H.
  apply binary_normalize_positive in H.
  apply not_true_is_false. intros H'. apply binary_normalize_positive in H'. lia.
Qed.

(** A subtracting comparator never ranks two elements both ways. *)
Lemma sub_positive_one_way (a b : float) : (0 <? a - b) = true -> (0 <? b - a) = false.
Proof.
  rewrite !ltb_spec, !sub_spec. change (Prim2SF 0) with (S754_zero false).
  apply SFsub_positive_one_way.
Qed.

(** *** The sign of a rounded difference

    A difference of two numbers is some integer multiple of a power of two
    no smaller than the smallest subnormal: rounding it keeps at least one
    bit, so the result is zero only if the difference is. *)

Section RoundingSign.
Variables prec emax : Z.
Hypothesis prec_positive : (0 < prec)%Z.

Lemma digits2_pos_bounds (p : positive) :
  (2 ^ (Zpos (digits2_pos p) - 1) <= Zpos p < 2 ^ Zpos (digits2_pos p))%Z.
Proof.
  induction p as [p IH|p IH|]; cbn [digits2_pos].
  - rewrite Pos2Z.inj_succ. replace (Z.succ (Zpos (digits2_pos p)) - 1)%Z
      with (Z.succ (Zpos (digits2_pos p) - 1))%Z by lia.
    rewrite !Z.pow_succ_r by lia. lia.
  - rewrite Pos2Z.inj_succ. replace (Z.succ (Zpos (digits2_pos p)) - 1)%Z
      with (Z.succ (Zpos (digits2_pos p) - 1))%Z by lia.
    rewrite !Z.pow_succ_r by lia. lia.
  - cbn. lia.
Qed.

Lemma shr_1_at_least (k : Z) (mrs : shr_record) :
  FloatOrder.at_least k mrs -> FloatOrder.at_least (k - 1) (shr_1 mrs).
Proof.
  unfold FloatOrder.at_least. destruct mrs as [m r s]. cbn [shr_m]. intros [H0 Hk].
  assert (Hhalf : shr_m (shr_1 {| shr_m := m; shr_r := r; shr_s := s |}) = (m / 2)%Z).
  { destruct m as [|p|p]; [reflexivity| |lia].
    destruct p as [p|p|]; cbn [shr_1 shr_m].
    - rewrite Pos2Z.inj_xI. apply Z.div_unique with 1%Z; lia.
    - rewrite Pos2Z.inj_xO. apply Z.div_unique with 0%Z; lia.
    - reflexivity. }
  rewrite Hhalf. split; [apply Z.div_pos; lia|].
  destruct (Z_le_gt_dec k 0) as [Hle | Hgt].
  - assert (H2 : (2 ^ (k - 1) = 0)%Z) by (apply Z.pow_neg_r; lia).
    rewrite H2. apply Z.div_pos; lia.
  - apply Z.div_le_lower_bound; [lia|].
    replace k with (Z.succ (k - 1)) in Hk by lia.
    rewrite Z.pow_succ_r in Hk by lia. exact Hk.
Qed.

Lemma iter_shr_1_at_least (n : positive) :
  forall (k : Z) (mrs : shr_record),
    FloatOrder.at_least k mrs -> FloatOrder.at_least (k - Zpos n) (iter_pos shr_1 n mrs).
Proof.
  induction n as [n IH|n IH|]; intros k mrs H; cbn [iter_pos].
  - replace (k - Zpos n~1)%Z with (k - 1 - Zpos n - Zpos n)%Z by lia.
    apply IH, IH, shr_1_at_least, H.
  - replace (k - Zpos n~0)%Z with (k - Zpos n - Zpos n)%Z by lia.
    apply IH, IH, H.
  - apply shr_1_at_least, H.
Qed.

Lemma shr_fexp_positive (p : positive) (e : Z) (l : location) :
  (SpecFloat.emin prec emax <= e)%Z ->
  (0 < shr_m (fst (shr_fexp prec emax (Zpos p) e l)))%Z
  /\ (SpecFloat.emin prec emax <= snd (shr_fexp prec emax (Zpos p) e l))%Z.
Proof.
  intros He. unfold shr_fexp, shr, SpecFloat.fexp. cbn [Zdigits2].
  pose proof (digits2_pos_bounds p) as [Hlow _].
  assert (Hm : shr_m (shr_record_of_loc (Zpos p) l) = Zpos p)
    by (destruct l as [|[]]; reflexivity).
  destruct (Z.max (Zpos (digits2_pos p) + e - prec) (SpecFloat.emin prec emax) - e)%Z as [|n|n] eqn:Hn;
    cbn [fst snd]; try (rewrite Hm; split; lia).
  assert (Hshift : Zpos n = (Zpos (digits2_pos p) - prec)%Z) by lia.
  destruct (iter_shr_1_at_least n (Zpos (digits2_pos p) - 1) (shr_record_of_loc (Zpos p) l))
    as [_ Hk].
  { split; rewrite Hm; [lia | exact Hlow]. }
  replace (Zpos (digits2_pos p) - 1 - Zpos n)%Z with (prec - 1)%Z in Hk by lia.
  assert (Hpow : (0 < 2 ^ (prec - 1))%Z) by (apply Z.pow_pos_nonneg; lia).
  split; lia.
Qed.

Lemma binary_round_aux_positive (p : positive) (e : Z) (l : location) :
  (SpecFloat.emin prec emax <= e)%Z ->
  SFltb (S754_zero false) (binary_round_aux prec emax false (Zpos p) e l) = true.
Proof.
  intros He. unfold binary_round_aux.
  destruct (shr_fexp_positive p e l He) as [H1 He1].
  destruct (shr_fexp prec emax (Zpos p) e l) as [mrs' e']. cbn [fst snd] in H1, He1.
  assert (H2 : (0 < round_nearest_even (shr_m mrs') (loc_of_shr_record mrs'))%Z).
  { unfold round_nearest_even.
    destruct (loc_of_shr_record mrs') as [|[]]; try lia.
    destruct (Z.even (shr_m mrs')); lia. }
  destruct (round_nearest_even (shr_m mrs') (loc_of_shr_record mrs')) as [|q|q]; try lia.
  destruct (shr_fexp_positive q e' loc_Exact He1) as [H3 _].
  destruct (shr_fexp prec emax (Zpos q) e' loc_Exact) as [mrs'' e'']. cbn [fst] in H3.
  destruct (shr_m mrs'') as [|r|r]; try lia.
  destruct (e'' <=? emax - prec)%Z; reflexivity.
Qed.

Lemma binary_normalize_of_positive (m e : Z) :
  (0 < m)%Z -> (SpecFloat.emin prec emax <= e)%Z ->
  SFltb (S754_zero false) (binary_normalize prec emax m e false) = true.
Proof.
  intros Hm He. destruct m as [|p|p]; try lia. cbn [binary_normalize].
  unfold binary_round, shl_align.
  destruct (SpecFloat.fexp prec emax (Zpos (digits2_pos p) + e) - e)%Z as [|d|d] eqn:Hd;
    apply binary_round_aux_positive; try exact He.
  unfold SpecFloat.fexp in *. lia.
Qed.

End RoundingSign.

Section ValueOrder.
Variables prec emax : Z.
Hypothesis prec_positive : (0 < prec)%Z.

Lemma iter_xO_value (d m : positive) : Zpos (Pos.iter xO m d) = (Zpos m * 2 ^ Zpos d)%Z.
Proof.
  induction d as [|d IH] using Pos.peano_ind.
  - cbn. lia.
  - rewrite Pos.iter_succ, Pos2Z.inj_xO, IH, Pos2Z.inj_succ, Z.pow_succ_r by lia. lia.
Qed.

Lemma shl_align_value (m : positive) (e ez : Z) :
  (ez <= e)%Z -> Zpos (fst (shl_align m e ez)) = (Zpos m * 2 ^ (e - ez))%Z.
Proof.
  intros Hle. unfold shl_align. destruct (ez - e)%Z as [|d|d] eqn:Hd; cbn [fst].
  - replace (e - ez)%Z with 0%Z by lia. cbn. lia.
  - lia.
  - rewrite iter_xO_value. f_equal. f_equal. lia.
Qed.

Lemma bounded_canonical (m : positive) (e : Z) :
  bounded prec emax m e = true ->
  (SpecFloat.emin prec emax <= e)%Z
  /\ (Zpos (digits2_pos m) <= prec)%Z
  /\ ((SpecFloat.emin prec emax < e)%Z -> Zpos (digits2_pos m) = prec).
Proof.
  unfold bounded, canonical_mantissa, SpecFloat.fexp. intros H.
  apply andb_prop in H. destruct H as [H _]. apply Z.eqb_eq in H. lia.
Qed.

Lemma aligned_order_lt (mx my : positive) (ex ey : Z) :
  bounded prec emax mx ex = true -> bounded prec emax my ey = true ->
  (ex < ey)%Z ->
  (Zpos mx < Zpos my * 2 ^ (ey - ex))%Z.
Proof.
  intros Hx Hy Hlt.
  apply bounded_canonical in Hx, Hy.
  destruct Hx as [Hex [Hdx _]], Hy as [_ [_ Hdy]].
  pose proof (digits2_pos_bounds mx) as [_ Hmx].
  pose proof (digits2_pos_bounds my) as [Hmy _].
  rewrite Hdy in Hmy by lia.
  assert (H1 : (2 ^ Zpos (digits2_pos mx) <= 2 ^ prec)%Z) by (apply Z.pow_le_mono_r; lia).
  assert (H2 : (2 ^ prec = 2 * 2 ^ (prec - 1))%Z).
  { replace prec with (Z.succ (prec - 1)) at 1 by lia. apply Z.pow_succ_r. lia. }
  assert (H3 : (2 ^ (ey - ex) = 2 * 2 ^ (ey - ex - 1))%Z).
  { replace (ey - ex)%Z with (Z.succ (ey - ex - 1)) at 1 by lia. apply Z.pow_succ_r. lia. }
  assert (H4 : (0 < 2 ^ (ey - ex - 1))%Z) by (apply Z.pow_pos_nonneg; lia).
  assert (H5 : (0 < 2 ^ (prec - 1))%Z) by (apply Z.pow_pos_nonneg; lia).
  nia.
Qed.

Lemma aligned_order (mx my : positive) (ex ey : Z) :
  bounded prec emax mx ex = true -> bounded prec emax my ey = true ->
  (Zpos (fst (shl_align mx ex (Z.min ex ey))) < Zpos (fst (shl_align my ey (Z.min ex ey)))
   <-> ex < ey \/ (ex = ey /\ Zpos mx < Zpos my))%Z.
Proof.
  intros Hx Hy. rewrite !shl_align_value by lia.
  destruct (Z.lt_total ex ey) as [Hlt | [Heq | Hgt]].
  - rewrite Z.min_l by lia. rewrite Z.sub_diag. cbn [Z.pow].
    pose proof (aligned_order_lt mx my ex ey Hx Hy Hlt). lia.
  - subst ey. rewrite Z.min_id, Z.sub_diag. cbn [Z.pow]. lia.
  - rewrite Z.min_r by lia. rewrite Z.sub_diag. cbn [Z.pow].
    pose proof (aligned_order_lt my mx ey ex Hy Hx Hgt). lia.
Qed.

Lemma SFltb_rank (x y : spec_float) :
  x <> S754_nan -> y <> S754_nan ->
  (SFltb x y = true <-> FloatOrder.lt3 (FloatOrder.rank x) (FloatOrder.rank y)).
Proof.
  intros Hx Hy. unfold SFltb.
  destruct (SFcompare_rank x y Hx Hy) as [c [-> [Hlt _]]].
  rewrite <- Hlt. destruct c; split; congruence.
Qed.

Lemma SFsub_finite_positive_iff (sx sy : bool) (mx my : positive) (ex ey : Z) :
  bounded prec emax mx ex = true -> bounded prec emax my ey = true ->
  SFltb (S754_zero false) (SFsub prec emax (S754_finite sy my ey) (S754_finite sx mx ex))
  = SFltb (S754_finite sx mx ex) (S754_finite sy my ey).
Proof.
  intros Hx Hy. cbn [SFsub]. rewrite (Z.min_comm ey ex).
  pose proof (aligned_order mx my ex ey Hx Hy) as Hxy.
  pose proof (aligned_order my mx ey ex Hy Hx) as Hyx.
  rewrite (Z.min_comm ey ex) in Hyx.
  set (ax := Zpos (fst (shl_align mx ex (Z.min ex ey)))) in *.
  set (ay := Zpos (fst (shl_align my ey (Z.min ex ey)))) in *.
  assert (Hax : (0 < ax)%Z) by (unfold ax; lia).
  assert (Hay : (0 < ay)%Z) by (unfold ay; lia).
  assert (Hmin : (SpecFloat.emin prec emax <= Z.min ex ey)%Z).
  { apply bounded_canonical in Hx, Hy. lia. }
  assert (Hrank : (0 < cond_Zopp sy ay - cond_Zopp sx ax)%Z
                  <-> FloatOrder.lt3 (FloatOrder.rank (S754_finite sx mx ex))
                                     (FloatOrder.rank (S754_finite sy my ey))).
  { unfold FloatOrder.lt3. destruct sx, sy; cbn [cond_Zopp FloatOrder.rank fst snd]; lia. }
  rewrite <- SFltb_rank in Hrank by discriminate.
  destruct (SFltb (S754_finite sx mx ex) (S754_finite sy my ey)) eqn:Hlt.
  - apply binary_normalize_of_positive; [exact prec_positive | now apply Hrank | exact Hmin].
  - apply not_true_is_false. intros Hpos. apply binary_normalize_positive in Hpos.
    apply Hrank in Hpos. discriminate.
Qed.

Lemma SFsub_positive_iff (x y : spec_float) :
  SpecFloat.valid_binary prec emax x = true -> SpecFloat.valid_binary prec emax y = true ->
  SFltb (S754_zero false) (SFsub prec emax y x) = SFltb x y.
Proof.
  destruct x as [sx|sx| |sx mx ex], y as [sy|sy| |sy my ey]; cbn [SpecFloat.valid_binary];
    intros Hx Hy; try (now apply SFsub_finite_positive_iff);
    repeat match goal with s : bool |- _ => destruct s end; reflexivity.
Qed.

End ValueOrder.

(** The comparator [(a, b) => b - a] is positive exactly when [a < b]:
    the difference of two numbers is rounded, but never to zero or across
    it. *)
Lemma sub_positive_iff (a b : float) : (0 <? b - a) = (a <? b).
Proof.
  rewrite !ltb_spec, sub_spec. change (Prim2SF 0) with (S754_zero false).
  apply SFsub_positive_iff; [reflexivity | apply Prim2SF_valid | apply Prim2SF_valid].
Qed.

(** ** Facts about the built-in sort *)

Section SortFacts.
Context {A : Type} (after : A -> A -> bool).

Lemma insert_Permutation (x : A) (l : list A) : Permutation (JS.insert after x l) (x :: l).
Proof.
  induction l as [|y l IH]; cbn; [reflexivity|].
  destruct (after x y); [|reflexivity].
  rewrite IH. apply perm_swap.
Qed.

Lemma sort_Permutation (l : list A) : Permutation (JS.sort after l) l.
Proof.
  induction l as [|x l IH]; cbn; [reflexivity|].
  rewrite insert_Permutation. now apply perm_skip.
Qed.

End SortFacts.

(** When the comparator agrees with an order [R] on the elements of the
    array ([x] is moved behind [y] only if [y] comes first in [R], and stays
    in front of [y] only if it comes first itself), the sorted array is in
    that order. *)
Section SortOrder.
Context {A : Type} (after : A -> A -> bool) (R : A -> A -> Prop).

Lemma insert_StronglySorted (x : A) (l : list A) :
  Forall (fun y => (after x y = true -> R y x) /\ (after x y = false -> R x y)) l ->
  (forall y z, In y l -> In z l -> R x y -> R y z -> R x z) ->
  StronglySorted R l -> StronglySorted R (JS.insert after x l).
Proof.
  intros Hagree Htrans Hsorted.
  induction Hsorted as [|y l Hl IH Hy]; cbn; [repeat constructor|].
  inversion Hagree as [|? ? [Hbehind Hfront] Hagree']; subst.
  destruct (after x y) eqn:Hxy.
  - constructor.
    + apply IH; [exact Hagree'|]. intros a b Ha Hb. apply Htrans; now right.
    + rewrite Forall_forall in *. intros z Hz.
      apply (Permutation_in _ (insert_Permutation after x l)) in Hz.
      destruct Hz as [<- | Hz]; [now apply Hbehind | now apply Hy].
  - constructor; [now constructor|].
    constructor; [now apply Hfront|].
    rewrite Forall_forall in *. intros z Hz.
    apply (Htrans y z); [now left | now right | now apply Hfront | now apply Hy].
Qed.

Lemma sort_StronglySorted (l : list A) :
  StronglySorted
    (fun x y => (after x y = true -> R y x) /\ (after x y = false -> R x y)) l ->
  (forall x y z, In x l -> In y l -> In z l -> R x y -> R y z -> R x z) ->
  StronglySorted R (JS.sort after l).
Proof.
  intros Hagree Htrans. induction Hagree as [|x l Hl IH Hx]; cbn; [constructor|].
  pose proof (sort_Permutation after l) as Hperm.
  apply insert_StronglySorted.
  - rewrite Forall_forall in *. intros y Hy. apply Hx.
    now apply (Permutation_in _ Hperm).
  - intros y z Hy Hz. apply Htrans; [now left | right | right];
      now apply (Permutation_in _ Hperm).
  - apply IH. intros a b c Ha Hb Hc. apply Htrans; now right.
Qed.

End SortOrder.

Lemma all_pairs_StronglySorted {A : Type} (P : A -> A -> Prop) (l : list A) :
  (forall x y, In x l -> In y l -> P x y) -> StronglySorted P l.
Proof.
  induction l as [|x l IH]; intros H; constructor.
  - apply IH. intros a b Ha Hb. apply H; now right.
  - apply Forall_forall. intros y Hy. apply H; [now left | now right].
Qed.

(** On numbers that are not NaN, [(a, b) => a - b] sorts into ascending
    order. *)
Lemma sort_ascending_numbers (arr : list float) :
  Forall (fun x => is_nan x = false) arr ->
  StronglySorted (fun x y => (x <=? y) = true) (JS.sort JS.ascending arr).
Proof.
  intros Hnan. rewrite Forall_forall in Hnan.
  apply sort_StronglySorted.
  - apply all_pairs_StronglySorted. intros x y Hx Hy.
    unfold JS.ascending. rewrite sub_positive_iff. split.
    + apply ltb_leb_weaken.
    + apply ltb_false_leb; now apply Hnan.
  - intros x y z _ _ _. apply leb_trans.
Qed.

Lemma ascending_idx_lt (a b : nat) : JS.ascending_idx a b = true <-> (b < a)%nat.
Proof. unfold JS.ascending_idx. rewrite Z.ltb_lt. lia. Qed.

Lemma insert_ascending_sorted (x : nat) (l : list nat) :
  StronglySorted le l -> StronglySorted le (JS.insert JS.ascending_idx x l).
Proof.
  induction 1 as [|y l Hl IH Hy]; cbn; [repeat constructor|].
  destruct (JS.ascending_idx x y) eqn:Hxy.
  - apply ascending_idx_lt in Hxy. constructor; [exact IH|].
    rewrite Forall_forall in *. intros z Hz.
    apply (Permutation_in _ (insert_Permutation JS.ascending_idx x l)) in Hz.
    destruct Hz as [<- | Hz]; [lia | now apply Hy].
  - assert (x <= y)%nat.
    { destruct (Nat.le_gt_cases x y) as [Hle | Hgt]; [exact Hle|].
      apply ascending_idx_lt in Hgt. congruence. }
    constructor; [now constructor|].
    constructor; [assumption|].
    rewrite Forall_forall in *. intros z Hz. specialize (Hy z Hz). lia.
Qed.

Lemma sort_ascending_sorted (l : list nat) : StronglySorted le (JS.sort JS.ascending_idx l).
Proof.
  induction l as [|x l IH]; cbn; [constructor | now apply insert_ascending_sorted].
Qed.

Lemma sorted_NoDup_increasing (l : list nat) :
  StronglySorted le l -> NoDup l -> StronglySorted lt l.
Proof.
  induction 1 as [|x l Hl IH Hx]; intros Hnd; [constructor|].
  inversion Hnd as [|? ? Hnotin Hnd']; subst.
  constructor; [now apply IH|].
  rewrite Forall_forall in *. intros y Hy.
  specialize (Hx y Hy). assert (x <> y) by (intros ->; contradiction). lia.
Qed.

(** ** Numeric primitives *)

(** C9: on an empty sequence [mean], [std] and [median] return 0, [max]
    returns -Infinity and [min] returns +Infinity; none of them fails. *)
Theorem empty_sequence_sentinels :
  Signal.mean [] = 0 /\ Signal.std [] = 0 /\ Signal.median [] = Some 0
  /\ Signal.max [] = neg_infinity /\ Signal.min [] = infinity.
Proof. repeat split; reflexivity. Qed.

(** ** Lengths and modes of the convolution *)

Section Shapes.

(** [convolve] returns as many samples as the signal has in "same" mode and
    throws for every other mode. *)
Theorem convolve_same_length_and_modes (signal kernel : list float) (mode : string) :
  (mode = "same"%string ->
   exists out, Signal.convolve signal kernel mode = inl out /\ length out = length signal)
  /\ (mode <> "same"%string ->
      exists msg, Signal.convolve signal kernel mode = inr msg).
Proof.
  unfold Signal.convolve. split.
  - intros ->. rewrite String.eqb_refl. eexists. split; [reflexivity|].
    now rewrite length_map, length_seq.
  - intros Hmode. apply String.eqb_neq in Hmode. rewrite Hmode. eexists. reflexivity.
Qed.

Lemma convolve_modes_on_a_pulse :
  (exists out, Signal.convolve [0; 1; 0] [1] "same" = inl out /\ length out = 3%nat)
  /\ (exists msg, Signal.convolve [0; 1; 0] [1] "full" = inr msg).
Proof.
  split.
  - apply (proj1 (convolve_same_length_and_modes [0; 1; 0] [1] "same")). reflexivity.
  - apply (proj2 (convolve_same_length_and_modes [0; 1; 0] [1] "full")). discriminate.
Defined.

End Shapes.

(** ** Convolution at the edges *)

Section ConvolveEdges.

Lemma is_zero_Prim2SF (x : float) :
  PrimFloat.is_zero x = true <-> exists s, Prim2SF x = S754_zero s.
Proof.
  unfold PrimFloat.is_zero. rewrite eqb_spec. change (Prim2SF zero) with (S754_zero false).
  unfold SFeqb. split.
  - destruct (Prim2SF x) as [s|s| |s m e]; cbn; try discriminate.
    + intros _. now exists s.
    + destruct s; discriminate.
    + destruct s; discriminate.
  - intros [s ->]. reflexivity.
Qed.

Lemma is_finite_Prim2SF (x : float) :
  is_finite x = true ->
  (exists s, Prim2SF x = S754_zero s) \/ (exists s m e, Prim2SF x = S754_finite s m e).
Proof.
  unfold is_finite, is_infinity, is_nan. rewrite !eqb_spec, abs_spec.
  change (Prim2SF infinity) with (S754_infinity false). unfold SFeqb.
  destruct (Prim2SF x) as [s|s| |s m e]; cbn.
  - intros _. left. now exists s.
  - destruct s; discriminate.
  - discriminate.
  - intros _. right. now exists s, m, e.
Qed.

(** A skipped position would have contributed a zero. *)
Lemma zero_times_finite (k : float) :
  is_finite k = true -> PrimFloat.is_zero (0 * k) = true.
Proof.
  intros Hk. apply is_zero_Prim2SF. rewrite mul_spec.
  change (Prim2SF 0) with (S754_zero false).
  destruct (is_finite_Prim2SF k Hk) as [[s ->] | [s [m [e ->]]]]; cbn; eexists; reflexivity.
Qed.

Lemma SameValueZero_refl (x : float) : JS.SameValueZero x x.
Proof. now left. Qed.

Lemma SameValueZero_add (x y t : float) :
  JS.SameValueZero x y -> JS.SameValueZero (x + t) (y + t).
Proof.
  intros [-> | [Hx Hy]]; [now left|].
  apply is_zero_Prim2SF in Hx, Hy. destruct Hx as [sx Hx], Hy as [sy Hy].
  destruct (Prim2SF t) as [st|st| |st mt et] eqn:Ht.
  - right. rewrite !is_zero_Prim2SF, !add_spec, Hx, Hy, Ht. cbn.
    split; [destruct sx, st | destruct sy, st]; eexists; reflexivity.
  - left. apply Prim2SF_inj. rewrite !add_spec, Hx, Hy, Ht. reflexivity.
  - left. apply Prim2SF_inj. rewrite !add_spec, Hx, Hy, Ht. reflexivity.
  - left. apply Prim2SF_inj. rewrite !add_spec, Hx, Hy, Ht. reflexivity.
Qed.

Lemma SameValueZero_add_zero (x y z : float) :
  JS.SameValueZero x y -> PrimFloat.is_zero z = true -> JS.SameValueZero x (y + z).
Proof.
  intros Hxy Hz. apply is_zero_Prim2SF in Hz. destruct Hz as [sz Hz].
  destruct (Prim2SF y) as [sy|sy| |sy my ey] eqn:Hy.
  - right. split.
    + destruct Hxy as [-> | [Hx _]]; [|exact Hx].
      apply is_zero_Prim2SF. now exists sy.
    + apply is_zero_Prim2SF. rewrite add_spec, Hy, Hz. cbn.
      destruct sy, sz; eexists; reflexivity.
  - assert (Hsum : y + z = y)
      by (apply Prim2SF_inj; rewrite add_spec, Hy, Hz; reflexivity).
    rewrite Hsum. exact Hxy.
  - assert (Hsum : y + z = y)
      by (apply Prim2SF_inj; rewrite add_spec, Hy, Hz; reflexivity).
    rewrite Hsum. exact Hxy.
  - assert (Hsum : y + z = y)
      by (apply Prim2SF_inj; rewrite add_spec, Hy, Hz; reflexivity).
    rewrite Hsum. exact Hxy.
Qed.

Lemma SameValueZero_fround (x y : float) :
  JS.SameValueZero x y -> JS.SameValueZero (JS.fround x) (JS.fround y).
Proof.
  intros [-> | [Hx Hy]]; [now left|]. right.
  pose proof Hx as Hx'. pose proof Hy as Hy'.
  apply is_zero_Prim2SF in Hx', Hy'. destruct Hx' as [sx Hx'], Hy' as [sy Hy'].
  unfold JS.fround. rewrite Hx', Hy'. split; assumption.
Qed.

(** The inner loop of [convolve] and the zero-padded sum stay the same
    value, tap after tap, when the taps are finite. *)
Lemma convolve_taps_zero_padded (signal kernel : list float) (halfKernel i : nat)
    (js : list nat) :
  (forall j, In j js -> is_finite (JS.get kernel j) = true) ->
  forall (st : float * nat) (sum : float),
    JS.SameValueZero (fst st) sum ->
    JS.SameValueZero
      (fst (fold_left (Signal.convolve_tap signal kernel halfKernel i) js st))
      (fold_left
         (fun sum j =>
            sum + Spec.padded signal (Z.of_nat i - Z.of_nat halfKernel + Z.of_nat j)
                  * JS.get kernel j)
         js sum).
Proof.
  induction js as [|j js IH]; intros Hfin st sum Hsame; [exact Hsame|].
  cbn [fold_left]. apply IH; [intros j' Hj'; apply Hfin; now right|].
  destruct st as [s count]. unfold Signal.convolve_tap, Spec.padded. cbn [fst] in *.
  destruct ((0 <=? Z.of_nat i - Z.of_nat halfKernel + Z.of_nat j)%Z
            && (Z.of_nat i - Z.of_nat halfKernel + Z.of_nat j <? Z.of_nat (length signal))%Z)%bool.
  - cbn [fst]. now apply SameValueZero_add.
  - cbn [fst]. apply SameValueZero_add_zero; [exact Hsame|].
    apply zero_times_finite, Hfin. now left.
Qed.

(** For a kernel whose taps are all finite, skipping the out-of-range
    positions and padding the signal with zeros give the same result. *)
Theorem convolve_same_is_zero_padding_for_finite_kernels (signal kernel : list float) :
  Forall (fun k => is_finite k = true) kernel ->
  exists out,
    Signal.convolve signal kernel "same" = inl out
    /\ Forall2 JS.SameValueZero out (Spec.convolve_zero_padded signal kernel).
Proof.
  intros Hfin. rewrite Forall_forall in Hfin.
  unfold Signal.convolve, Spec.convolve_zero_padded. cbn [String.eqb Ascii.eqb].
  eexists. split; [reflexivity|].
  induction (seq 0 (length signal)) as [|i is_ IH]; cbn [map]; constructor; [|exact IH].
  apply SameValueZero_fround, convolve_taps_zero_padded; [|apply SameValueZero_refl].
  intros j Hj. apply in_seq in Hj. apply Hfin. unfold JS.get. apply nth_In. lia.
Qed.

Lemma convolve_box_filter_edges :
  let signal := [1; 1; 1; 1; 1] in
  let kernel := Signal.divide (Signal.ones 3) 3 in
  Forall (fun k => is_finite k = true) kernel
  /\ Spec.convolve_zero_padded signal kernel
     = [JS.fround (1 / 3) + JS.fround (1 / 3); 1; 1; 1; JS.fround (1 / 3) + JS.fround (1 / 3)]
  /\ exists out,
       Signal.convolve signal kernel "same" = inl out
       /\ Forall2 JS.SameValueZero out (Spec.convolve_zero_padded signal kernel).
Proof.
  assert (Hfin : Forall (fun k => is_finite k = true) (Signal.divide (Signal.ones 3) 3))
    by (repeat constructor).
  split; [exact Hfin|]. split; [vm_compute; reflexivity|].
  exact (convolve_same_is_zero_padding_for_finite_kernels [1; 1; 1; 1; 1] _ Hfin).
Defined.

(** The same, position by position: only the taps that fall outside the
    signal at position [i] need to be finite. *)
Lemma convolve_taps_zero_padded_at (signal kernel : list float) (halfKernel i : nat)
    (js : list nat) :
  (forall j, In j js ->
             ((0 <=? Z.of_nat i - Z.of_nat halfKernel + Z.of_nat j)%Z
              && (Z.of_nat i - Z.of_nat halfKernel + Z.of_nat j <? Z.of_nat (length signal))%Z
              = false)%bool ->
             is_finite (JS.get kernel j) = true) ->
  forall (st : float * nat) (sum : float),
    JS.SameValueZero (fst st) sum ->
    JS.SameValueZero
      (fst (fold_left (Signal.convolve_tap signal kernel halfKernel i) js st))
      (fold_left
         (fun sum j =>
            sum + Spec.padded signal (Z.of_nat i - Z.of_nat halfKernel + Z.of_nat j)
                  * JS.get kernel j)
         js sum).
Proof.
  induction js as [|j js IH]; intros Hfin st sum Hsame; [exact Hsame|].
  cbn [fold_left]. apply IH; [intros j' Hj'; apply Hfin; now right|].
  destruct st as [s count]. unfold Signal.convolve_tap, Spec.padded. cbn [fst] in *.
  specialize (Hfin j (or_introl eq_refl)).
  destruct ((0 <=? Z.of_nat i - Z.of_nat halfKernel + Z.of_nat j)%Z
            && (Z.of_nat i - Z.of_nat halfKernel + Z.of_nat j <? Z.of_nat (length signal))%Z)%bool.
  - cbn [fst]. now apply SameValueZero_add.
  - cbn [fst]. apply SameValueZero_add_zero; [exact Hsame|].
    apply zero_times_finite, Hfin. reflexivity.
Qed.

Lemma get_map_seq (f : nat -> float) (n i : nat) :
  (i < n)%nat -> JS.get (map f (seq 0 n)) i = f i.
Proof.
  intros Hi. unfold JS.get. apply nth_error_nth.
  rewrite nth_error_map, nth_error_seq. apply Nat.ltb_lt in Hi. now rewrite Hi.
Qed.

(** On the box filter that [calculateEnvelope] builds for a window of three
    samples, skipping the out-of-range positions and padding with zeros
    return the very same array, and the edge samples are not renormalised:
    they are two thirds of the interior ones. *)
Lemma convolve_box_filter_is_zero_padded :
  let signal := [1; 1; 1; 1; 1] in
  let kernel := Signal.divide (Signal.ones 3) 3 in
  Signal.convolve signal kernel "same" = inl (Spec.convolve_zero_padded signal kernel)
  /\ Spec.convolve_zero_padded signal kernel
     = [JS.fround (1 / 3) + JS.fround (1 / 3); 1; 1; 1; JS.fround (1 / 3) + JS.fround (1 / 3)]
  /\ (JS.fround (1 / 3) + JS.fround (1 / 3) <? 1) = true.
Proof. split; [|split]; vm_compute; reflexivity. Qed.

(** C3, as the code has it: in "same" mode [convolve] returns one sample
    per signal sample, and the sample at position [i] is the same value as
    the sum over the zero-padded signal whenever the kernel taps that fall
    outside the signal at [i] are finite; a skipped position would have
    contributed [0 * tap], a zero.  So the two agree everywhere when all
    taps are finite, and at every position where no tap falls outside,
    whatever the taps.  The counter of in-range positions is never read, so
    nothing is renormalised at the edges.  They differ only through a tap
    that is not finite: with the signal [1] and the kernel
    [Infinity, 1, Infinity] the code returns [1] and the padded sum NaN. *)
Theorem convolve_drop_is_zero_padding_unless_a_tap_is_not_finite
    (signal kernel : list float) :
  exists out,
    Signal.convolve signal kernel "same" = inl out
    /\ length out = length signal
    /\ length (Spec.convolve_zero_padded signal kernel) = length signal
    /\ (forall i,
          (i < length signal)%nat ->
          (forall j, (j < length kernel)%nat ->
                     (Z.of_nat i - Z.of_nat (Nat.div (length kernel) 2) + Z.of_nat j < 0
                      \/ Z.of_nat (length signal)
                         <= Z.of_nat i - Z.of_nat (Nat.div (length kernel) 2) + Z.of_nat j)%Z ->
                     is_finite (JS.get kernel j) = true) ->
          JS.SameValueZero (JS.get out i)
                           (JS.get (Spec.convolve_zero_padded signal kernel) i))
    /\ (Forall (fun k => is_finite k = true) kernel ->
        Forall2 JS.SameValueZero out (Spec.convolve_zero_padded signal kernel))
    /\ Signal.convolve [1] [infinity; 1; infinity] "same" = inl [1]
    /\ map is_nan (Spec.convolve_zero_padded [1] [infinity; 1; infinity]) = [true].
Proof.
  unfold Signal.convolve, Spec.convolve_zero_padded. cbn [String.eqb Ascii.eqb Bool.eqb].
  eexists. split; [reflexivity|].
  split; [now rewrite length_map, length_seq|].
  split; [now rewrite length_map, length_seq|].
  split; [|split; [|split; vm_compute; reflexivity]].
  - intros i Hi Hfin. rewrite !get_map_seq by exact Hi.
    apply SameValueZero_fround, convolve_taps_zero_padded_at; [|apply SameValueZero_refl].
    intros j Hj Hout. apply in_seq in Hj. apply Hfin; [lia|].
    apply andb_false_iff in Hout. destruct Hout as [Hout | Hout].
    + apply Z.leb_gt in Hout. now left.
    + apply Z.ltb_ge in Hout. now right.
  - intros Hfin. rewrite Forall_forall in Hfin.
    induction (seq 0 (length signal)) as [|i rest IH]; cbn [map]; constructor; [|exact IH].
    apply SameValueZero_fround, convolve_taps_zero_padded_at; [|apply SameValueZero_refl].
    intros j Hj _. apply in_seq in Hj. apply Hfin. unfold JS.get. apply nth_In. lia.
Qed.

End ConvolveEdges.

(** ** Peak detection: the prominence filter *)

Section ProminenceFilter.
Import Signal.

Lemma firstn_succ_get (data : list float) (i : nat) :
  (i < length data)%nat -> firstn (S i) data = firstn i data ++ [JS.get data i].
Proof.
  revert i. induction data as [|x data IH]; intros i Hi; cbn in Hi; [lia|].
  destruct i as [|i]; [reflexivity|].
  cbn [firstn app]. unfold JS.get in *. cbn [nth]. rewrite <- IH by lia. reflexivity.
Qed.

Lemma skipn_get_cons (data : list float) (i : nat) :
  (i < length data)%nat -> skipn i data = JS.get data i :: skipn (S i) data.
Proof.
  revert i. induction data as [|x data IH]; intros i Hi; cbn in Hi; [lia|].
  destruct i as [|i]; [reflexivity|].
  cbn [skipn]. unfold JS.get in *. cbn [nth]. apply IH. lia.
Qed.

(** The leftward loop computes the running minimum over the samples the
    specification says are seen, starting from the value it was given. *)
Lemma lookLeft_scanned (data : list float) (peakHeight : float) (k : nat) :
  forall leftMin, (k <= length data)%nat ->
  lookLeft data peakHeight k leftMin
  = fold_left (fun minVal x => if x <? minVal then x else minVal)
              (Spec.scanned peakHeight (rev (firstn k data))) leftMin.
Proof.
  induction k as [|i IH]; intros leftMin Hk; [reflexivity|].
  rewrite firstn_succ_get by lia. rewrite rev_app_distr.
  cbn [rev app Spec.scanned lookLeft].
  destruct (peakHeight <=? JS.get data i); [reflexivity|].
  cbn [fold_left]. apply IH. lia.
Qed.

Lemma lookRight_scanned (data : list float) (peakHeight : float) (fuel : nat) :
  forall i rightMin, (i + fuel = length data)%nat ->
  lookRight data peakHeight fuel i rightMin
  = fold_left (fun minVal x => if x <? minVal then x else minVal)
              (Spec.scanned peakHeight (skipn i data)) rightMin.
Proof.
  induction fuel as [|fuel IH]; intros i rightMin Hi.
  - rewrite skipn_all2 by lia. reflexivity.
  - rewrite skipn_get_cons by lia.
    cbn [Spec.scanned lookRight].
    destruct (peakHeight <=? JS.get data i); [reflexivity|].
    cbn [fold_left]. rewrite Nat.add_1_r. apply IH. lia.
Qed.

(** Starting the running minimum at the peak's height, as the code does, or
    at the first sample seen, as [min] does, is the same when that first
    sample is below the peak. *)
Lemma scanned_min_from_peak (peakHeight x0 : float) (walk : list float) :
  (x0 <? peakHeight) = true ->
  fold_left (fun minVal x => if x <? minVal then x else minVal)
            (Spec.scanned peakHeight (x0 :: walk)) peakHeight
  = Signal.min (Spec.scanned peakHeight (x0 :: walk)).
Proof.
  intros Hlt. cbn [Spec.scanned].
  destruct (peakHeight <=? x0); cbn [fold_left Signal.min]; rewrite Hlt; reflexivity.
Qed.

(** The sample that ends a scan never lowers the minimum: it is at least as
    high as the peak, and the minimum so far is at most that. *)
Lemma scanned_before_same_min (peakHeight : float) (walk : list float) :
  forall minVal, (minVal <=? peakHeight) = true ->
  fold_left (fun minVal x => if x <? minVal then x else minVal)
            (Spec.scanned peakHeight walk) minVal
  = fold_left (fun minVal x => if x <? minVal then x else minVal)
              (Spec.scanned_before peakHeight walk) minVal.
Proof.
  induction walk as [|x walk IH]; intros minVal Hmin; [reflexivity|].
  cbn [Spec.scanned Spec.scanned_before].
  destruct (peakHeight <=? x) eqn:Hstop.
  - cbn. rewrite (leb_leb_not_ltb minVal peakHeight x Hmin Hstop). reflexivity.
  - cbn [fold_left]. apply IH.
    destruct (x <? minVal) eqn:Hlt; [|exact Hmin].
    exact (ltb_leb_trans x minVal peakHeight Hlt Hmin).
Qed.

Lemma min_scanned_before (peakHeight x0 : float) (walk : list float) :
  (x0 <? peakHeight) = true ->
  Signal.min (Spec.scanned peakHeight (x0 :: walk))
  = Signal.min (Spec.scanned_before peakHeight (x0 :: walk)).
Proof.
  intros Hlt. cbn [Spec.scanned Spec.scanned_before].
  rewrite (ltb_not_geb x0 peakHeight Hlt). cbn [Signal.min].
  apply scanned_before_same_min, ltb_leb_weaken, Hlt.
Qed.

Lemma localMaxima_spec (data : list float) (i : nat) :
  In i (localMaxima data) ->
  (1 <= i)%nat /\ (i + 1 < length data)%nat
  /\ (JS.get data (i - 1) <? JS.get data i) = true
  /\ (JS.get data (i + 1) <? JS.get data i) = true.
Proof.
  unfold localMaxima. rewrite filter_In, in_seq, andb_true_iff.
  intros [Hrange [Hl Hr]]. repeat split; try assumption; lia.
Qed.

Lemma scan_minimum_either_way (data : list float) (i : nat) :
  In i (localMaxima data) ->
  Spec.leftMin data i
  = Signal.min (Spec.scanned_before (JS.get data i) (Spec.leftWalk data i))
  /\ Spec.rightMin data i
     = Signal.min (Spec.scanned_before (JS.get data i) (Spec.rightWalk data i)).
Proof.
  intros Hin. apply localMaxima_spec in Hin. destruct Hin as [H1 [Hn [Hl Hr]]].
  unfold Spec.leftMin, Spec.rightMin, Spec.leftWalk, Spec.rightWalk.
  destruct i as [|i]; [lia|].
  replace (S i - 1)%nat with i in Hl by lia.
  rewrite firstn_succ_get by lia. rewrite rev_app_distr. cbn [rev app].
  rewrite (skipn_get_cons data (S i + 1)) by lia.
  split; apply min_scanned_before; assumption.
Qed.

Lemma prominenceValue_spec (data : list float) (i : nat) :
  In i (localMaxima data) -> prominenceValue data i = Spec.prominenceOf data i.
Proof.
  intros Hin. apply localMaxima_spec in Hin. destruct Hin as [H1 [Hn [Hl Hr]]].
  unfold prominenceValue, Spec.prominenceOf, Spec.leftMin, Spec.rightMin,
    Spec.leftWalk, Spec.rightWalk.
  rewrite lookLeft_scanned by lia.
  rewrite lookRight_scanned by lia.
  destruct i as [|i]; [lia|].
  replace (S i - 1)%nat with i in Hl by lia.
  rewrite firstn_succ_get by lia. rewrite rev_app_distr. cbn [rev app].
  rewrite scanned_min_from_peak by exact Hl.
  rewrite (skipn_get_cons data (S i + 1)) by lia.
  rewrite scanned_min_from_peak by exact Hr.
  reflexivity.
Qed.

(** C4: with a positive [prominence] the detector keeps, among the indices
    that survived the height filter, exactly those whose prominence — the
    peak's height minus the larger of the minimum seen scanning left and the
    minimum seen scanning right, each scan ending at the end of the sequence
    or at a sample at least as high as the peak — is at least
    [prominence * max(data)]; the peaks returned are selected from them.
    Whether the sample that ends a scan counts as seen makes no
    difference to the minimum. *)
Theorem prominence_filter_matches_spec (data : list float) (opts : options) (p : float) :
  prominence opts = Some p -> (0 <? p) = true ->
  let h := match height opts with Some h => h | None => neg_infinity end in
  let d := match distance opts with Some d => d | None => 1 end in
  (forall i, In i (heightFiltered data h) -> prominenceValue data i = Spec.prominenceOf data i)
  /\ (forall i, In i (heightFiltered data h) ->
        Spec.leftMin data i
        = Signal.min (Spec.scanned_before (JS.get data i) (Spec.leftWalk data i))
        /\ Spec.rightMin data i
           = Signal.min (Spec.scanned_before (JS.get data i) (Spec.rightWalk data i)))
  /\ prominenceFiltered data (heightFiltered data h) p
     = filter (Spec.keeps data p) (heightFiltered data h)
  /\ peaks (findPeaks data opts)
     = JS.sort JS.ascending_idx
         (selectPeaks d (sortedByHeight data
            (filter (Spec.keeps data p) (heightFiltered data h)))).
Proof.
  intros Hp Hpos h d.
  assert (Hval : forall i, In i (heightFiltered data h) ->
                           prominenceValue data i = Spec.prominenceOf data i).
  { intros i Hi. apply prominenceValue_spec.
    unfold heightFiltered in Hi. apply filter_In in Hi. tauto. }
  assert (Hfilter : prominenceFiltered data (heightFiltered data h) p
                    = filter (Spec.keeps data p) (heightFiltered data h)).
  { unfold prominenceFiltered. rewrite Hpos. apply filter_ext_in.
    intros i Hi. unfold Spec.keeps. rewrite (Hval i Hi). reflexivity. }
  split; [exact Hval|].
  split.
  { intros i Hi. apply scan_minimum_either_way.
    unfold heightFiltered in Hi. apply filter_In in Hi. tauto. }
  split; [exact Hfilter|].
  unfold findPeaks. rewrite Hp. fold h. fold d. cbv zeta.
  destruct (Nat.ltb (length data) 3) eqn:Hn.
  - apply Nat.ltb_lt in Hn.
    assert (Hnone : heightFiltered data h = []).
    { unfold heightFiltered, localMaxima.
      replace (length data - 2)%nat with 0%nat by lia. reflexivity. }
    rewrite Hnone. reflexivity.
  - rewrite Hfilter.
    destruct (filter (Spec.keeps data p) (heightFiltered data h)); reflexivity.
Qed.

Lemma prominence_filter_on_three_bumps :
  let data := [0; 5; 4; 4.5; 0; 1; 0] in
  let opts := Fixtures.options 0.5 1 0.2 in
  heightFiltered data 0.5 = [1; 3; 5]%nat
  /\ map (Spec.prominenceOf data) [1; 3; 5]%nat = [5; 0.5; 1]
  /\ prominenceFiltered data (heightFiltered data 0.5) 0.2 = [1; 5]%nat
  /\ peaks (findPeaks data opts) = [1; 5]%nat.
Proof.
  destruct (prominence_filter_matches_spec [0; 5; 4; 4.5; 0; 1; 0]
              (Fixtures.options 0.5 1 0.2) 0.2 eq_refl eq_refl) as [H1 [_ [H2 H3]]].
  split; [vm_compute; reflexivity|].
  split; [vm_compute; reflexivity|].
  split; (etransitivity; [eassumption | vm_compute; reflexivity]).
Defined.

End ProminenceFilter.

(** ** Peak detection: what the returned indices look like *)

Section PeakIndices.
Import Signal.

Lemma localMaxima_NoDup (data : list float) : NoDup (localMaxima data).
Proof. unfold localMaxima. apply NoDup_filter, seq_NoDup. Qed.

Lemma prominenceFiltered_NoDup (data : list float) (h p : float) :
  NoDup (prominenceFiltered data (heightFiltered data h) p).
Proof.
  assert (NoDup (heightFiltered data h)) by apply NoDup_filter, localMaxima_NoDup.
  unfold prominenceFiltered. destruct (0 <? p); [now apply NoDup_filter | assumption].
Qed.

Lemma sortedByHeight_indices (data : list float) (l : list nat) :
  Permutation (map idx (sortedByHeight data l)) l.
Proof.
  unfold sortedByHeight. rewrite sort_Permutation, map_map. cbn. now rewrite map_id.
Qed.

(** Two indices are apart when the loop's test [Math.abs(a - b) < distance]
    fails. *)
Lemma tooClose_false (distance : float) (accepted : list nat) (i : nat) :
  tooClose distance accepted i = false <->
  forall p, In p accepted ->
            (JS.of_Z (Z.abs (Z.of_nat i - Z.of_nat p)) <? distance) = false.
Proof.
  unfold tooClose. induction accepted as [|q accepted IH]; cbn.
  - split; [intros _ p [] | reflexivity].
  - rewrite orb_false_iff, IH. split.
    + intros [Hq Hrest] p [<- | Hp]; auto.
    + intros H. split; [apply H; now left | intros p Hp; apply H; now right].
Qed.

Lemma selectPeaks_invariant (distance : float) (sorted : list candidate) :
  forall accepted,
    NoDup (accepted ++ map idx sorted) ->
    (forall a b, In a accepted -> In b accepted -> a <> b ->
                 (JS.of_Z (Z.abs (Z.of_nat a - Z.of_nat b)) <? distance) = false) ->
    let final :=
      fold_left (fun peaks c => if tooClose distance peaks (idx c) then peaks
                                else peaks ++ [idx c]) sorted accepted in
    NoDup final
    /\ (forall a b, In a final -> In b final -> a <> b ->
                    (JS.of_Z (Z.abs (Z.of_nat a - Z.of_nat b)) <? distance) = false).
Proof.
  induction sorted as [|c sorted IH]; intros accepted Hnd Hfar; cbn.
  - cbn in Hnd. rewrite app_nil_r in Hnd. split; assumption.
  - cbn [map] in Hnd.
    destruct (tooClose distance accepted (idx c)) eqn:Hclose.
    + apply IH; [|exact Hfar]. eapply NoDup_remove_1. exact Hnd.
    + apply IH.
      * rewrite <- app_assoc. exact Hnd.
      * rewrite tooClose_false in Hclose.
        intros a b Ha Hb Hab. apply in_app_or in Ha, Hb. cbn in Ha, Hb.
        destruct Ha as [Ha | [<- | []]], Hb as [Hb | [<- | []]].
        -- now apply Hfar.
        -- replace (Z.of_nat a - Z.of_nat (idx c))%Z
             with (- (Z.of_nat (idx c) - Z.of_nat a))%Z by lia.
           rewrite Z.abs_opp. now apply Hclose.
        -- now apply Hclose.
        -- contradiction.
Qed.

End PeakIndices.

Section PeakIndicesResult.
Import Signal.

(** C7: for every input sequence and every option set, the indices returned
    by [findPeaks] are pairwise distinct and strictly increasing, and any two
    of them, consecutive or not, are not closer than [distance]: the
    difference is never below it, and is at least it whenever [distance] is a
    number. *)
Theorem findPeaks_indices_increasing_and_apart (data : list float) (opts : options) :
  let found := peaks (findPeaks data opts) in
  let d := match distance opts with Some d => d | None => 1 end in
  NoDup found
  /\ StronglySorted lt found
  /\ (forall a b, In a found -> In b found -> a <> b ->
        (JS.of_Z (Z.abs (Z.of_nat a - Z.of_nat b)) <? d) = false
        /\ (is_nan d = false ->
            (d <=? JS.of_Z (Z.abs (Z.of_nat a - Z.of_nat b))) = true)).
Proof.
  intros found d.
  assert (Hfar_geq : forall a b,
             (JS.of_Z (Z.abs (Z.of_nat a - Z.of_nat b)) <? d) = false ->
             (JS.of_Z (Z.abs (Z.of_nat a - Z.of_nat b)) <? d) = false
             /\ (is_nan d = false ->
                 (d <=? JS.of_Z (Z.abs (Z.of_nat a - Z.of_nat b))) = true)).
  { intros a b H. split; [exact H|]. intros Hd.
    apply ltb_false_leb; [apply of_Z_not_nan | exact Hd | exact H]. }
  assert (Hempty : NoDup (@nil nat) /\ StronglySorted lt (@nil nat)
                   /\ (forall a b, In a (@nil nat) -> In b (@nil nat) -> a <> b ->
                         (JS.of_Z (Z.abs (Z.of_nat a - Z.of_nat b)) <? d) = false
                         /\ (is_nan d = false ->
                             (d <=? JS.of_Z (Z.abs (Z.of_nat a - Z.of_nat b))) = true))).
  { split; [constructor|]. split; [constructor|]. intros a b []. }
  unfold found, findPeaks. cbv zeta. fold d.
  destruct (Nat.ltb (length data) 3); [exact Hempty|].
  set (h := match height opts with Some h => h | None => neg_infinity end).
  set (p := match prominence opts with Some p => p | None => 0 end).
  pose proof (prominenceFiltered_NoDup data h p) as Hnd.
  destruct (prominenceFiltered data (heightFiltered data h) p) as [|i0 rest] eqn:Hcands;
    [exact Hempty|].
  cbn [peaks].
  set (sorted := sortedByHeight data (i0 :: rest)).
  destruct (selectPeaks_invariant d sorted []) as [Hsel_nd Hsel_far].
  { cbn [app]. eapply Permutation_NoDup; [|exact Hnd].
    symmetry. apply sortedByHeight_indices. }
  { intros a b []. }
  fold (selectPeaks d sorted) in Hsel_nd, Hsel_far.
  pose proof (sort_Permutation JS.ascending_idx (selectPeaks d sorted)) as Hperm.
  assert (Hnd' : NoDup (JS.sort JS.ascending_idx (selectPeaks d sorted))).
  { eapply Permutation_NoDup; [symmetry; exact Hperm | exact Hsel_nd]. }
  split; [exact Hnd'|].
  split; [apply sorted_NoDup_increasing; [apply sort_ascending_sorted | exact Hnd']|].
  intros a b Ha Hb Hab. apply Hfar_geq.
  apply Hsel_far; [eapply Permutation_in; eassumption | eapply Permutation_in; eassumption | exact Hab].
Qed.

Lemma findPeaks_indices_on_four_bumps :
  let data := [0; 1; 0; 2; 0; 1; 0; 3; 0] in
  peaks (findPeaks data (Fixtures.options 0.5 3 0)) = [3; 7]%nat
  /\ StronglySorted lt (peaks (findPeaks data (Fixtures.options 0.5 3 0)))
  /\ (3 <=? JS.of_Z (Z.abs (Z.of_nat 3 - Z.of_nat 7))) = true.
Proof.
  assert (Hpeaks : peaks (findPeaks [0; 1; 0; 2; 0; 1; 0; 3; 0] (Fixtures.options 0.5 3 0))
                   = [3; 7]%nat) by (vm_compute; reflexivity).
  destruct (findPeaks_indices_increasing_and_apart
              [0; 1; 0; 2; 0; 1; 0; 3; 0] (Fixtures.options 0.5 3 0)) as [_ [Hinc Hfar]].
  split; [exact Hpeaks|]. split; [exact Hinc|].
  apply (Hfar 3%nat 7%nat).
  - rewrite Hpeaks. now left.
  - rewrite Hpeaks. right. now left.
  - discriminate.
  - reflexivity.
Defined.

End PeakIndicesResult.

(** ** Peak detection: where the returned indices come from *)

Section PeakCoverage.
Import Signal.

Lemma selectPeaks_grows (distance : float) (sorted : list candidate) :
  forall accepted p,
    In p accepted ->
    In p (fold_left (fun peaks c => if tooClose distance peaks (idx c) then peaks
                                    else peaks ++ [idx c]) sorted accepted).
Proof.
  induction sorted as [|c sorted IH]; intros accepted p Hp; cbn; [exact Hp|].
  apply IH. destruct (tooClose distance accepted (idx c)); [exact Hp|].
  apply in_or_app. now left.
Qed.

Lemma selectPeaks_from_candidates (distance : float) (sorted : list candidate) :
  forall accepted p,
    In p (fold_left (fun peaks c => if tooClose distance peaks (idx c) then peaks
                                    else peaks ++ [idx c]) sorted accepted) ->
    In p accepted \/ In p (map idx sorted).
Proof.
  induction sorted as [|c sorted IH]; intros accepted p Hp; cbn in *; [now left|].
  apply IH in Hp. destruct Hp as [Hp | Hp]; [|now right; right].
  destruct (tooClose distance accepted (idx c)); [now left|].
  apply in_app_or in Hp. destruct Hp as [Hp | [<- | []]]; [now left | right; now left].
Qed.

Lemma selectPeaks_covers (distance : float) (sorted : list candidate) :
  forall accepted i,
    In i (map idx sorted) ->
    let final := fold_left (fun peaks c => if tooClose distance peaks (idx c) then peaks
                                           else peaks ++ [idx c]) sorted accepted in
    In i final
    \/ exists p, In p final
                 /\ (JS.of_Z (Z.abs (Z.of_nat i - Z.of_nat p)) <? distance) = true.
Proof.
  induction sorted as [|c sorted IH]; intros accepted i Hi; cbn in *; [contradiction|].
  destruct Hi as [<- | Hi]; [|now apply IH].
  destruct (tooClose distance accepted (idx c)) eqn:Hclose.
  - right. unfold tooClose in Hclose. apply existsb_exists in Hclose.
    destruct Hclose as [p [Hp Hnear]]. exists p. split; [|exact Hnear].
    now apply selectPeaks_grows.
  - left. apply selectPeaks_grows, in_or_app. right. now left.
Qed.

(** Every index returned by [findPeaks] is an interior strict local maximum
    that reaches the height threshold, [heights] lists the samples at the
    returned indices, and every candidate that passed the height and
    prominence filters is either returned or closer than [distance] to a
    returned peak. *)
Theorem findPeaks_returns_candidates_and_covers_them (data : list float) (opts : options) :
  let h := match height opts with Some h => h | None => neg_infinity end in
  let d := match distance opts with Some d => d | None => 1 end in
  let p := match prominence opts with Some p => p | None => 0 end in
  let found := findPeaks data opts in
  (forall i, In i (peaks found) ->
             (1 <= i)%nat /\ (i + 1 < length data)%nat
             /\ (JS.get data (i - 1) <? JS.get data i) = true
             /\ (JS.get data (i + 1) <? JS.get data i) = true
             /\ (h <=? JS.get data i) = true)
  /\ heights (properties found) = map (JS.get data) (peaks found)
  /\ (forall i, In i (prominenceFiltered data (heightFiltered data h) p) ->
                In i (peaks found)
                \/ exists q, In q (peaks found)
                             /\ (JS.of_Z (Z.abs (Z.of_nat i - Z.of_nat q)) <? d) = true).
Proof.
  intros h d p found.
  assert (Hcand : forall i, In i (prominenceFiltered data (heightFiltered data h) p) ->
                            (1 <= i)%nat /\ (i + 1 < length data)%nat
                            /\ (JS.get data (i - 1) <? JS.get data i) = true
                            /\ (JS.get data (i + 1) <? JS.get data i) = true
                            /\ (h <=? JS.get data i) = true).
  { intros i Hi.
    assert (Hh : In i (heightFiltered data h)).
    { unfold prominenceFiltered in Hi. destruct (0 <? p); [|exact Hi].
      apply filter_In in Hi. tauto. }
    unfold heightFiltered in Hh. apply filter_In in Hh. destruct Hh as [Hmax Hheight].
    apply localMaxima_spec in Hmax. tauto. }
  unfold found, findPeaks. cbv zeta. fold h. fold d. fold p.
  destruct (Nat.ltb (length data) 3) eqn:Hn.
  { apply Nat.ltb_lt in Hn. cbn.
    split; [intros i []|]. split; [reflexivity|].
    intros i Hi. apply Hcand in Hi. lia. }
  destruct (prominenceFiltered data (heightFiltered data h) p) as [|i0 rest] eqn:Hcands.
  { cbn. split; [intros i []|]. split; [reflexivity|]. intros i []. }
  cbn [peaks properties heights].
  pose proof (sort_Permutation JS.ascending_idx
                (selectPeaks d (sortedByHeight data (i0 :: rest)))) as Hsort.
  pose proof (sortedByHeight_indices data (i0 :: rest)) as Hsorted.
  split; [|split; [reflexivity|]].
  - intros i Hi. apply Hcand.
    apply (Permutation_in _ Hsort) in Hi.
    apply selectPeaks_from_candidates in Hi. destruct Hi as [[] | Hi].
    apply (Permutation_in _ Hsorted). exact Hi.
  - intros i Hi.
    apply (Permutation_in _ (Permutation_sym Hsorted)) in Hi.
    destruct (selectPeaks_covers d _ [] i Hi) as [Hin | [q [Hq Hnear]]].
    + left. apply (Permutation_in _ (Permutation_sym Hsort)). exact Hin.
    + right. exists q. split; [|exact Hnear].
      apply (Permutation_in _ (Permutation_sym Hsort)). exact Hq.
Qed.

Lemma findPeaks_covers_four_bumps :
  let data := [0; 1; 0; 2; 0; 1; 0; 3; 0] in
  let found := findPeaks data (Fixtures.options 0.5 3 0) in
  peaks found = [3; 7]%nat
  /\ heights (properties found) = [2; 3]
  /\ (In 5%nat (peaks found)
      \/ exists q, In q (peaks found)
                   /\ (JS.of_Z (Z.abs (Z.of_nat 5 - Z.of_nat q)) <? 3) = true).
Proof.
  destruct (findPeaks_returns_candidates_and_covers_them
              [0; 1; 0; 2; 0; 1; 0; 3; 0] (Fixtures.options 0.5 3 0)) as [_ [Hheights Hcover]].
  split; [vm_compute; reflexivity|].
  split; [vm_compute; reflexivity|].
  apply (Hcover 5%nat). vm_compute. right. right. left. reflexivity.
Defined.

End PeakCoverage.

(** ** When [calculateRates] returns *)

Section RatesLoop.
Import RateOfFireDetector.

Lemma calculateRatesFrom_spec (d : state) (rest : list (list nat)) :
  forall (burstIdx : nat) (results : list burstInfo),
    calculateRatesFrom d burstIdx rest results
    = if forallb (logsBurst d) rest
      then Return (results ++ map (fun k => burstInfoOf d (burstIdx + k) (nth k rest []))
                                  (seq 0 (length rest))) d
      else Throw TypeError.
Proof.
  induction rest as [|burst rest IH]; intros burstIdx results.
  - cbn. now rewrite app_nil_r.
  - cbn [calculateRatesFrom forallb]. destruct (logsBurst d burst); [|reflexivity].
    rewrite IH. cbn [andb]. destruct (forallb (logsBurst d) rest); [|reflexivity].
    cbn [length seq map nth]. rewrite <- seq_shift, map_map, <- app_assoc. cbn [app].
    rewrite Nat.add_0_r. do 3 f_equal. apply map_ext. intros k. f_equal. lia.
Qed.

Lemma calculateRates_spec (d : state) :
  calculateRates d
  = if forallb (logsBurst d) (bursts d)
    then Return (map (fun k => burstInfoOf d k (nth k (bursts d) []))
                     (seq 0 (length (bursts d)))) d
    else Throw TypeError.
Proof. unfold calculateRates. now rewrite calculateRatesFrom_spec. Qed.

Lemma calculateRates_Return (d d' : state) (results : list burstInfo) :
  calculateRates d = Return results d' ->
  d' = d
  /\ results = map (fun k => burstInfoOf d k (nth k (bursts d) []))
                   (seq 0 (length (bursts d)))
  /\ forallb (logsBurst d) (bursts d) = true.
Proof.
  rewrite calculateRates_spec. destruct (forallb (logsBurst d) (bursts d)); [|discriminate].
  intros H. injection H as <- <-. split; [reflexivity|]. split; reflexivity.
Qed.

Lemma nth_error_last {A : Type} (x : A) (l : list A) (default : A) :
  nth_error (x :: l) (length (x :: l) - 1) = Some (last (x :: l) default).
Proof.
  revert x. induction l as [|y l IH]; intros x; [reflexivity|].
  specialize (IH y). cbn [length Nat.sub] in *. rewrite Nat.sub_0_r in *.
  cbn [nth_error]. rewrite IH. reflexivity.
Qed.

(** The log line goes through exactly for a non-empty burst whose first
    and last entries are indices of [shotTimes]. *)
Lemma logsBurst_spec (d : state) (burst : list nat) :
  logsBurst d burst = true
  <-> burst <> []
      /\ (hd 0%nat burst < length (shotTimes d))%nat
      /\ (last burst 0%nat < length (shotTimes d))%nat.
Proof.
  unfold logsBurst, burstEnds. destruct burst as [|i rest].
  - cbn. split; [discriminate | intros [H _]; contradiction].
  - cbv zeta. rewrite length_map, !nth_error_map, (nth_error_last i rest 0%nat).
    cbn [nth_error option_map hd].
    pose proof (nth_error_Some (shotTimes d) i) as Hi.
    pose proof (nth_error_Some (shotTimes d) (last (i :: rest) 0%nat)) as Hl.
    destruct (nth_error (shotTimes d) i), (nth_error (shotTimes d) (last (i :: rest) 0%nat));
      split; try discriminate; try (intros _; split; [discriminate|]; split);
      try (apply Hi; discriminate); try (apply Hl; discriminate);
      intros [_ [H1 H2]]; try reflexivity; exfalso;
      first [apply Hi in H1; now apply H1 | apply Hl in H2; now apply H2].
Qed.

Lemma last_seq (start len : nat) : last (seq start (S len)) 0%nat = (start + len)%nat.
Proof. rewrite (seq_S len start). apply last_last. Qed.

Lemma is_burst_logs (d : state) (burst : list nat) :
  Spec.is_burst d burst -> logsBurst d burst = true.
Proof.
  intros [start [len [-> [Hn _]]]]. apply logsBurst_spec.
  rewrite last_seq. cbn [seq hd]. split; [discriminate|]. lia.
Qed.

Lemma calculateRates_of_bursts (d : state) :
  Forall (Spec.is_burst d) (bursts d) ->
  calculateRates d
  = Return (map (fun k => burstInfoOf d k (nth k (bursts d) []))
                (seq 0 (length (bursts d)))) d.
Proof.
  intros Hbs. rewrite calculateRates_spec.
  assert (Hall : forallb (logsBurst d) (bursts d) = true).
  { apply forallb_forall. intros b Hb. rewrite Forall_forall in Hbs.
    now apply is_burst_logs, Hbs. }
  now rewrite Hall.
Qed.

End RatesLoop.

(** ** Bursts are runs of close shots *)

Section BurstInvariant.
Import RateOfFireDetector.

(** The shots collected so far in [currentBurst], just before shot [i] is
    looked at: consecutive indices ending at [i - 1], each within the gap
    threshold of the one before it. *)
Lemma burstStep_invariant (d : state) (k : nat) :
  forall (i : nat) (bs : list (list nat)) (cur : list nat),
    (i + k <= length (shotTimes d))%nat ->
    Forall (Spec.is_burst d) bs ->
    (exists start len,
        cur = seq start (S len) /\ (start + S len = i)%nat
        /\ forall j, (start < j <= start + len)%nat ->
                     (JS.get (shotTimes d) j - JS.get (shotTimes d) (j - 1)
                      <=? burstGapThreshold d) = true) ->
    Forall (Spec.is_burst d) (fst (fold_left (burstStep d) (seq i k) (bs, cur)))
    /\ exists start len,
         snd (fold_left (burstStep d) (seq i k) (bs, cur)) = seq start (S len)
         /\ (start + S len = i + k)%nat
         /\ forall j, (start < j <= start + len)%nat ->
                      (JS.get (shotTimes d) j - JS.get (shotTimes d) (j - 1)
                       <=? burstGapThreshold d) = true.
Proof.
  induction k as [|k IH]; intros i bs cur Hlen Hbs Hcur.
  - cbn. rewrite Nat.add_0_r. split; assumption.
  - cbn [seq fold_left]. unfold burstStep at 2 4.
    destruct Hcur as [start [len [Hseq [Hend Hgaps]]]].
    replace (i + S k)%nat with (S i + k)%nat by lia.
    destruct (JS.get (shotTimes d) i - JS.get (shotTimes d) (i - 1) <=? burstGapThreshold d)
      eqn:Hgap.
    + apply IH; [lia | exact Hbs |].
      exists start, (S len). split; [|split; [lia|]].
      * rewrite Hseq, (seq_S (S len) start). f_equal. f_equal. lia.
      * intros j Hj. destruct (Nat.eq_dec j i) as [-> | Hne]; [exact Hgap|].
        apply Hgaps. lia.
    + apply IH; [lia | |].
      * destruct (minBurstCount d <=? JS.of_nat (length cur)) eqn:Hcount; [|exact Hbs].
        apply Forall_app. split; [exact Hbs|]. constructor; [|constructor].
        exists start, len. split; [exact Hseq|]. split; [lia|].
        split; [exact Hgaps | exact Hcount].
      * exists i, 0%nat. split; [reflexivity|]. split; [lia|]. intros j Hj. lia.
Qed.

Lemma groupIntoBursts_is_burst (d : state) :
  shotTimes d <> [] ->
  exists bs, groupIntoBursts d = Return tt (set_bursts d bs)
             /\ Forall (Spec.is_burst d) bs.
Proof.
  intros Hshots. unfold groupIntoBursts.
  destruct (Nat.eqb (length (shotTimes d)) 0) eqn:Hlen.
  { apply Nat.eqb_eq, length_zero_iff_nil in Hlen. contradiction. }
  apply Nat.eqb_neq in Hlen.
  destruct (burstStep_invariant d (length (shotTimes d) - 1) 1 [] [0%nat])
    as [Hbs [start [len [Hcur [Hend Hgaps]]]]].
  - lia.
  - constructor.
  - exists 0%nat, 0%nat. split; [reflexivity|]. split; [reflexivity|]. intros j Hj. lia.
  - destruct (fold_left (burstStep d) (seq 1 (length (shotTimes d) - 1)) ([], [0%nat]))
      as [bs cur].
    cbn [fst snd] in *.
    destruct (minBurstCount d <=? JS.of_nat (length cur)) eqn:Hcount.
    + eexists. split; [reflexivity|].
      apply Forall_app. split; [exact Hbs|]. constructor; [|constructor].
      exists start, len. split; [exact Hcur|]. split; [lia|].
      split; [exact Hgaps | exact Hcount].
    + eexists. split; [reflexivity | exact Hbs].
Qed.

Lemma map_over_indices {A B : Type} (f : A -> B) (default : A) (l : list A) :
  map (fun i => f (nth i l default)) (seq 0 (length l)) = map f l.
Proof.
  induction l as [|x l IH]; [reflexivity|].
  cbn [length seq map nth]. f_equal.
  rewrite <- seq_shift, map_map. exact IH.
Qed.

Lemma burstInfos_numShots (d : state) :
  map numShots (map (fun k => burstInfoOf d k (nth k (bursts d) []))
                    (seq 0 (length (bursts d))))
  = map (@length nat) (bursts d).
Proof.
  rewrite map_map. cbn [burstInfoOf numShots].
  rewrite <- (map_over_indices (@length nat) [] (bursts d)).
  apply map_ext. intros i. now rewrite length_map.
Qed.

Lemma calculateRates_numShots (d d' : state) (results : list burstInfo) :
  calculateRates d = Return results d' ->
  map numShots results = map (@length nat) (bursts d).
Proof.
  intros Hrun. apply calculateRates_Return in Hrun. destruct Hrun as [_ [-> _]].
  apply burstInfos_numShots.
Qed.

(** A burst that passed the [minBurstCount] test with a minimum of at least
    two has at least two shots. *)
Lemma is_burst_two_shots (d : state) (b : list nat) :
  Spec.is_burst d b -> (2 <=? minBurstCount d) = true -> (2 <= length b)%nat.
Proof.
  intros [start [len [_ [_ [_ Hcount]]]]] Hmin.
  pose proof (leb_trans _ _ _ Hmin Hcount) as H.
  destruct (length b) as [|[|n]]; [vm_compute in H; discriminate | vm_compute in H; discriminate | lia].
Qed.

(** Whenever there is at least one shot, [groupIntoBursts] stores a list of
    bursts each of which is a run of consecutive shots, every one within the
    gap threshold of its predecessor, that passed the [minBurstCount]
    test; [calculateRates] then returns, and reports the length of each as
    its number of shots. *)
Theorem groupIntoBursts_keeps_runs_of_close_shots (d : state) :
  shotTimes d <> [] ->
  exists bs, groupIntoBursts d = Return tt (set_bursts d bs)
             /\ Forall (Spec.is_burst d) bs
             /\ exists results,
                  calculateRates (set_bursts d bs) = Return results (set_bursts d bs)
                  /\ map numShots results = map (@length nat) bs.
Proof.
  intros Hshots. destruct (groupIntoBursts_is_burst d Hshots) as [bs [Hrun Hbs]].
  exists bs. split; [exact Hrun|]. split; [exact Hbs|].
  eexists. split; [apply (calculateRates_of_bursts (set_bursts d bs)); exact Hbs|].
  apply (burstInfos_numShots (set_bursts d bs)).
Qed.

Lemma groupIntoBursts_runs_in_two_bursts :
  shotTimes Fixtures.two_bursts <> []
  /\ exists bs, groupIntoBursts Fixtures.two_bursts = Return tt (set_bursts Fixtures.two_bursts bs)
                /\ Forall (Spec.is_burst Fixtures.two_bursts) bs
                /\ exists results,
                     calculateRates (set_bursts Fixtures.two_bursts bs)
                     = Return results (set_bursts Fixtures.two_bursts bs)
                     /\ map numShots results = map (@length nat) bs.
Proof.
  assert (H : shotTimes Fixtures.two_bursts <> []) by (cbn; discriminate).
  split; [exact H|].
  exact (groupIntoBursts_keeps_runs_of_close_shots Fixtures.two_bursts H).
Defined.

End BurstInvariant.

(** ** Burst grouping and rates *)

Section Grouping.
Import RateOfFireDetector.

Lemma groupIntoBursts_no_shots (d : state) :
  shotTimes d = [] -> groupIntoBursts d = Return tt d.
Proof. intros H. unfold groupIntoBursts. rewrite H. reflexivity. Qed.

(** C5: on shot times 0.0, 0.1, 0.15, 0.5, 0.55, 0.6 with gap threshold 0.2
    and minimum burst count 3, every gap but the 0.35 s one is within the
    threshold, and grouping yields exactly the two three-shot bursts
    [0.0, 0.1, 0.15] and [0.5, 0.55, 0.6], both kept. *)
Theorem groupIntoBursts_splits_at_long_gap :
  let d := Fixtures.two_bursts in
  map (fun i => JS.get (shotTimes d) i - JS.get (shotTimes d) (i - 1) <=? burstGapThreshold d)
      (seq 1 5) = [true; true; false; true; true]
  /\ groupIntoBursts d = Return tt (set_bursts d [[0; 1; 2]; [3; 4; 5]]%nat)
  /\ exists results,
       calculateRates (Fixtures.grouped d) = Return results (Fixtures.grouped d)
       /\ map burstShotTimes results = [[0.0; 0.1; 0.15]; [0.5; 0.55; 0.6]]
       /\ map numShots results = [3; 3]%nat.
Proof.
  split; [vm_compute; reflexivity|]. split; [vm_compute; reflexivity|].
  eexists. split; [vm_compute; reflexivity|]. split; reflexivity.
Qed.

Lemma get_map_last (times : list float) (burst : list nat) :
  burst <> [] ->
  JS.get (map (JS.get times) burst) (length (map (JS.get times) burst) - 1)
  = JS.get times (last burst 0%nat).
Proof.
  intros Hne. destruct burst as [|i rest]; [contradiction|].
  unfold JS.get at 1. apply nth_error_nth.
  rewrite length_map, nth_error_map, (nth_error_last i rest 0%nat). reflexivity.
Qed.

(** C8: [calculateRates] returns for the bursts that [groupIntoBursts]
    stores, and whenever it returns it leaves the detector as it is and
    returns one record per stored burst, in order.  The record of a burst
    counts the burst's shots, lists their times, has
    [duration = endTime - startTime] between the times of the burst's first
    and last shot, and [rateRpm = (numShots - 1) / duration * 60] when the
    duration is positive and 0 otherwise, in particular 0 for a zero
    duration; five shots over a duration of 0.4 give 600.  The guard is
    there although a burst kept by [groupIntoBursts] under a minimum count
    of at least two never consists of a single shot. *)
Theorem calculateRates_rateRpm (d : state) :
  (Forall (Spec.is_burst d) (bursts d) ->
   exists results, calculateRates d = Return results d)
  /\ (forall results d',
        calculateRates d = Return results d' ->
        d' = d
        /\ length results = length (bursts d)
        /\ forall k burst,
             nth_error (bursts d) k = Some burst ->
             exists b,
               nth_error results k = Some b
               /\ burstNumber b = (k + 1)%nat
               /\ numShots b = length burst
               /\ burstShotTimes b = map (JS.get (shotTimes d)) burst
               /\ startTime b = JS.get (shotTimes d) (hd 0%nat burst)
               /\ endTime b = JS.get (shotTimes d) (last burst 0%nat)
               /\ duration b = endTime b - startTime b
               /\ rateRpm b
                  = (if 0 <? duration b
                     then JS.of_Z (Z.of_nat (length burst) - 1) / duration b * 60 else 0)
               /\ (duration b = 0 -> rateRpm b = 0)
               /\ (length burst = 5%nat -> duration b = 0.4 -> rateRpm b = 600)
               /\ (forall d0, shotTimes d0 <> [] -> groupIntoBursts d0 = Return tt d ->
                              (2 <=? minBurstCount d0) = true -> (2 <= length burst)%nat)).
Proof.
  split.
  { intros Hbs. eexists. apply calculateRates_of_bursts. exact Hbs. }
  intros results d' Hrun. apply calculateRates_Return in Hrun.
  destruct Hrun as [-> [-> Hlogs]].
  split; [reflexivity|]. split; [now rewrite length_map, length_seq|].
  intros k burst Hk.
  assert (Hlt : (k < length (bursts d))%nat)
    by (apply nth_error_Some; rewrite Hk; discriminate).
  assert (Hnth : nth k (bursts d) [] = burst) by (now apply nth_error_nth).
  assert (Hlog : logsBurst d burst = true).
  { rewrite forallb_forall in Hlogs. apply Hlogs. eapply nth_error_In. exact Hk. }
  apply logsBurst_spec in Hlog. destruct Hlog as [Hne _].
  exists (burstInfoOf d k burst). split.
  { rewrite nth_error_map, nth_error_seq. apply Nat.ltb_lt in Hlt. rewrite Hlt.
    cbn [option_map Nat.add]. now rewrite Hnth. }
  cbn [burstInfoOf burstNumber numShots burstShotTimes startTime endTime duration rateRpm].
  split; [reflexivity|]. split; [apply length_map|]. split; [reflexivity|].
  assert (Hstart : JS.get (map (fun idx => JS.get (shotTimes d) idx) burst) 0
                   = JS.get (shotTimes d) (hd 0%nat burst))
    by (destruct burst; [contradiction | reflexivity]).
  pose proof (get_map_last (shotTimes d) burst Hne) as Hend.
  split; [exact Hstart|]. split; [exact Hend|]. split; [reflexivity|].
  rewrite length_map.
  split; [reflexivity|].
  split; [intros ->; reflexivity|].
  split; [intros -> ->; vm_compute; reflexivity|].
  intros d0 Hshots Hgroup Hmin.
  destruct (groupIntoBursts_is_burst d0 Hshots) as [bs [Hgroup' Hbs]].
  rewrite Hgroup in Hgroup'. injection Hgroup' as ->. cbn [bursts set_bursts] in *.
  apply (is_burst_two_shots d0); [|exact Hmin].
  rewrite Forall_forall in Hbs. apply Hbs. eapply nth_error_In. exact Hk.
Qed.

Lemma calculateRates_rateRpm_five_shots :
  bursts Fixtures.five_shots = [[0; 1; 2; 3; 4]]%nat
  /\ exists b,
       calculateRates Fixtures.five_shots = Return [b] Fixtures.five_shots
       /\ numShots b = 5%nat /\ duration b = 0.4 /\ rateRpm b = 600.
Proof.
  split; [vm_compute; reflexivity|].
  destruct (calculateRates Fixtures.five_shots) as [results d'|e] eqn:Hrun;
    [|vm_compute in Hrun; discriminate].
  destruct (proj2 (calculateRates_rateRpm Fixtures.five_shots) results d' Hrun)
    as [-> [Hlen Hall]].
  destruct (Hall 0%nat [0; 1; 2; 3; 4]%nat) as [b [Hb [_ [Hshots [_ [_ [_ [Hdur [_ [_ [H600 _]]]]]]]]]]];
    [vm_compute; reflexivity|].
  assert (Hd : duration b = 0.4).
  { vm_compute in Hrun. injection Hrun as <-. cbn in Hb. injection Hb as <-. reflexivity. }
  exists b. split.
  - destruct results as [|b0 [|b1 rest]]; [discriminate Hb | | vm_compute in Hlen; discriminate].
    cbn in Hb. injection Hb as ->. reflexivity.
  - split; [exact Hshots|]. split; [exact Hd|]. apply H600; [reflexivity | exact Hd].
Defined.

(** C10: called with no shot times, [groupIntoBursts] returns before the
    burst list is reset, so the detector, its burst list included, is left
    as it was: empty on a fresh detector, the previous run's bursts on a
    reused one. *)
Theorem groupIntoBursts_no_shots_keeps_bursts (d : state) :
  shotTimes d = [] ->
  groupIntoBursts d = Return tt d
  /\ (forall v d', groupIntoBursts d = Return v d' -> d' = d /\ bursts d' = bursts d).
Proof.
  intros H. rewrite (groupIntoBursts_no_shots d H).
  split; [reflexivity|]. intros v d' Heq. injection Heq as _ <-. split; reflexivity.
Qed.

Lemma groupIntoBursts_stale_bursts :
  (shotTimes (constructor no_options) = []
   /\ groupIntoBursts (constructor no_options) = Return tt (constructor no_options)
   /\ bursts (constructor no_options) = [])
  /\ (shotTimes Fixtures.reused = []
      /\ groupIntoBursts Fixtures.reused = Return tt Fixtures.reused
      /\ bursts Fixtures.reused = [[0; 1; 2]; [3; 4; 5]]%nat).
Proof.
  split.
  - split; [reflexivity|]. split; [|reflexivity].
    exact (proj1 (groupIntoBursts_no_shots_keeps_bursts (constructor no_options) eq_refl)).
  - assert (H : shotTimes Fixtures.reused = []) by (vm_compute; reflexivity).
    split; [exact H|]. split; [|vm_compute; reflexivity].
    exact (proj1 (groupIntoBursts_no_shots_keeps_bursts Fixtures.reused H)).
Defined.

End Grouping.

(** ** Order of the pipeline stages *)

Section Stages.
Import RateOfFireDetector.

(** On a detector on which nothing has run yet, burst grouping does not
    fail: it finds no shot times and returns, leaving the detector as
    it is. *)
Lemma groupIntoBursts_before_detectPeaks_returns :
  groupIntoBursts (constructor no_options) = Return tt (constructor no_options).
Proof. reflexivity. Qed.

(** C2, as the code has it: [calculateEnvelope] throws when no audio has
    been extracted and [detectPeaks] throws when no envelope has been
    calculated (either also when the sample rate is missing, zero or NaN);
    [groupIntoBursts] does not check that peaks were detected and returns
    normally when there are no shot times, and [calculateRates] returns the
    empty list when there are no bursts. *)
Theorem stage_prerequisites (e : JS.engine) (d : state) :
  (audioData d = None \/ sampleRate d = None
   \/ (exists rate, sampleRate d = Some rate /\ JS.falsy rate = true) ->
   calculateEnvelope e d = Throw "Must call extractAudio first")
  /\ (envelope d = None \/ sampleRate d = None
      \/ (exists rate, sampleRate d = Some rate /\ JS.falsy rate = true) ->
      detectPeaks d = Throw "Must call calculateEnvelope first")
  /\ (shotTimes d = [] -> groupIntoBursts d = Return tt d)
  /\ (bursts d = [] -> calculateRates d = Return [] d).
Proof.
  split; [|split; [|split]].
  - unfold calculateEnvelope. intros [H | [H | [rate [H Hfalsy]]]]; rewrite H.
    + reflexivity.
    + destruct (audioData d); reflexivity.
    + rewrite Hfalsy. destruct (audioData d); reflexivity.
  - unfold detectPeaks. intros [H | [H | [rate [H Hfalsy]]]]; rewrite H.
    + reflexivity.
    + destruct (envelope d); reflexivity.
    + rewrite Hfalsy. destruct (envelope d); reflexivity.
  - apply groupIntoBursts_no_shots.
  - unfold calculateRates. intros ->. reflexivity.
Qed.

Lemma stage_prerequisites_fresh_detector :
  let d := constructor no_options in
  calculateEnvelope Fixtures.engine d = Throw "Must call extractAudio first"
  /\ detectPeaks d = Throw "Must call calculateEnvelope first"
  /\ groupIntoBursts d = Return tt d
  /\ calculateRates d = Return [] d.
Proof.
  destruct (stage_prerequisites Fixtures.engine (constructor no_options))
    as [H1 [H2 [H3 H4]]].
  split; [|split; [|split]].
  - apply H1. left. reflexivity.
  - apply H2. left. reflexivity.
  - apply H3. reflexivity.
  - apply H4. reflexivity.
Defined.

End Stages.

(** ** Summary *)

Section Summary.
Import RateOfFireDetector.

(** Two bursts separated by an idle gap of 0.375 s, longer than the gap
    threshold of 0.25 s: fourteen shots at 480 rounds per minute and five at
    240.  The pooled rate, 18 intervals over 3 s, and the mean of the two
    burst rates are both 360. *)
Lemma overallRate_equals_mean_of_burst_rates :
  let d := Fixtures.grouped Fixtures.fast_then_slow in
  exists burstResults,
    calculateRates d = Return burstResults d
    /\ bursts d = [seq 0 14; seq 14 5]
    /\ (JS.get (shotTimes d) 14 - JS.get (shotTimes d) 13 <=? burstGapThreshold d) = false
    /\ map rateRpm burstResults = [480; 240]
    /\ overallRateRpm (generateSummary burstResults) = 360
    /\ meanBurstRateRpm (generateSummary burstResults) = 360
    /\ Signal.mean (map rateRpm burstResults) = 360.
Proof.
  eexists. split; [vm_compute; reflexivity|].
  split; [reflexivity|]. split; [reflexivity|]. split; [reflexivity|].
  split; [vm_compute; reflexivity|]. split; vm_compute; reflexivity.
Qed.

(** C6, as the code has it: for a non-empty list of burst statistics the
    overall rate is computed from the pooled shot times alone, as
    [(count - 1) / (max - min) * 60] when at least two shots are pooled and
    0 otherwise, and the mean burst rate is the mean of the burst rates.
    The two differ on the fixture of two three-shot bursts, but nothing
    forces them to differ. *)
Theorem overallRate_is_pooled (burstResults : list burstInfo) :
  (0 < length burstResults)%nat ->
  let pooled := concat (map burstShotTimes burstResults) in
  let s := generateSummary burstResults in
  overallRateRpm s
  = (if Nat.leb 2 (length pooled)
     then JS.of_Z (Z.of_nat (length pooled) - 1)
          / (Signal.max pooled - Signal.min pooled) * 60
     else 0)
  /\ meanBurstRateRpm s = Signal.mean (map rateRpm burstResults)
  /\ (exists twoBursts,
        calculateRates (Fixtures.grouped Fixtures.two_bursts)
        = Return twoBursts (Fixtures.grouped Fixtures.two_bursts)
        /\ let s2 := generateSummary twoBursts in
           (overallRateRpm s2 =? meanBurstRateRpm s2) = false).
Proof.
  intros Hlen pooled s.
  assert (Hpool : forall l acc,
             fold_left (fun acc burst => acc ++ burstShotTimes burst) l acc
             = acc ++ concat (map burstShotTimes l)).
  { induction l as [|b l IH]; intros acc; cbn.
    - now rewrite app_nil_r.
    - rewrite IH. now rewrite <- app_assoc. }
  unfold s, generateSummary.
  destruct burstResults as [|b0 rs]; [cbn in Hlen; lia|].
  cbn [length Nat.eqb overallRateRpm meanBurstRateRpm].
  unfold allShotTimes. rewrite Hpool. cbn [app]. fold pooled.
  split; [reflexivity|]. split; [reflexivity|].
  eexists. split; [vm_compute; reflexivity | vm_compute; reflexivity].
Qed.

Lemma overallRate_is_pooled_two_bursts :
  exists burstResults,
    calculateRates (Fixtures.grouped Fixtures.two_bursts)
    = Return burstResults (Fixtures.grouped Fixtures.two_bursts)
    /\ let s := generateSummary burstResults in
       (0 < length burstResults)%nat
       /\ overallRateRpm s = 5 / (0.6 - 0.0) * 60
       /\ meanBurstRateRpm s = Signal.mean [800; 2 / (0.6 - 0.5) * 60]
       /\ (overallRateRpm s =? meanBurstRateRpm s) = false.
Proof.
  destruct (calculateRates (Fixtures.grouped Fixtures.two_bursts))
    as [burstResults d'|e] eqn:Hrun; [|vm_compute in Hrun; discriminate].
  assert (Hd' : d' = Fixtures.grouped Fixtures.two_bursts)
    by (apply calculateRates_Return in Hrun; tauto).
  subst d'. exists burstResults. split; [reflexivity|]. cbv zeta.
  assert (Hlen : (0 < length burstResults)%nat).
  { apply calculateRates_Return in Hrun. destruct Hrun as [_ [-> _]]. vm_compute. lia. }
  destruct (overallRate_is_pooled burstResults Hlen) as [H1 [H2 _]].
  split; [exact Hlen|].
  assert (Hresults : burstResults
                     = map (fun k => burstInfoOf (Fixtures.grouped Fixtures.two_bursts) k
                                       (nth k (bursts (Fixtures.grouped Fixtures.two_bursts)) []))
                           (seq 0 (length (bursts (Fixtures.grouped Fixtures.two_bursts)))))
    by (apply calculateRates_Return in Hrun; tauto).
  split; [rewrite H1, Hresults; vm_compute; reflexivity|].
  split; [rewrite H2, Hresults; vm_compute; reflexivity|].
  rewrite Hresults. vm_compute. reflexivity.
Defined.

End Summary.

(** ** Facts about signs *)

Lemma binary_round_aux_sign_clear (prec emax : Z) (m e : Z) (l : location) :
  FloatOrder.sf_sign_clear (binary_round_aux prec emax false m e l).
Proof.
  unfold binary_round_aux.
  destruct (shr_fexp prec emax m e l) as [mrs' e'].
  destruct (shr_fexp prec emax _ e' loc_Exact) as [mrs'' e''].
  destruct (shr_m mrs''); cbn; try reflexivity; try exact I.
  destruct (e'' <=? emax - prec)%Z; reflexivity.
Qed.

Lemma binary_round_sign_clear (prec emax : Z) (m : positive) (e : Z) :
  FloatOrder.sf_sign_clear (binary_round prec emax false m e).
Proof.
  unfold binary_round. destruct (shl_align _ _ _) as [mz ez].
  apply binary_round_aux_sign_clear.
Qed.

Lemma binary_normalize_sign_clear (prec emax m e : Z) :
  (0 <= m)%Z -> FloatOrder.sf_sign_clear (binary_normalize prec emax m e false).
Proof.
  destruct m as [|p|p]; intros Hm; [reflexivity | apply binary_round_sign_clear | lia].
Qed.

Lemma SFadd_sign_clear (x y : spec_float) :
  FloatOrder.sf_sign_clear x -> FloatOrder.sf_sign_clear y ->
  FloatOrder.sf_sign_clear (SFadd prec emax x y).
Proof.
  destruct x as [sx|sx| |sx mx ex], y as [sy|sy| |sy my ey]; cbn;
    intros Hx Hy; subst; try reflexivity; try exact I.
  apply binary_normalize_sign_clear. unfold cond_Zopp. lia.
Qed.

Lemma SFmul_sign_clear (x y : spec_float) :
  FloatOrder.sf_sign_clear x -> FloatOrder.sf_sign_clear y ->
  FloatOrder.sf_sign_clear (SFmul prec emax x y).
Proof.
  destruct x as [sx|sx| |sx mx ex], y as [sy|sy| |sy my ey]; cbn;
    intros Hx Hy; subst; try reflexivity; try exact I.
  apply binary_round_aux_sign_clear.
Qed.

Lemma SFmul_self_sign_clear (x : spec_float) :
  FloatOrder.sf_sign_clear (SFmul prec emax x x).
Proof.
  destruct x as [sx|sx| |sx mx ex]; cbn; try (destruct sx; reflexivity); try exact I.
  rewrite xorb_nilpotent. apply binary_round_aux_sign_clear.
Qed.

Lemma SFdiv_sign_clear (x y : spec_float) :
  FloatOrder.sf_sign_clear x -> FloatOrder.sf_sign_clear y ->
  FloatOrder.sf_sign_clear (SFdiv prec emax x y).
Proof.
  destruct x as [sx|sx| |sx mx ex], y as [sy|sy| |sy my ey]; cbn;
    intros Hx Hy; subst; try reflexivity; try exact I.
  destruct (SFdiv_core_binary prec emax (Z.pos mx) ex (Z.pos my) ey) as [[mz ez] lz].
  apply binary_round_aux_sign_clear.
Qed.

Lemma SFsqrt_never_negative (x : spec_float) :
  SFltb (SFsqrt prec emax x) (S754_zero false) = false.
Proof.
  destruct x as [sx|sx| |sx mx ex]; cbn; try reflexivity.
  - destruct sx; reflexivity.
  - destruct sx; [reflexivity|].
    destruct (SFsqrt_core_binary prec emax (Z.pos mx) ex) as [[mz ez] lz].
    pose proof (binary_round_aux_sign_clear prec emax mz ez lz) as H.
    destruct (binary_round_aux prec emax false mz ez lz) as [s|s| |s m e];
      cbn in H; subst; reflexivity.
Qed.

Lemma sign_clear_not_negative (x : float) : FloatOrder.sign_clear x -> (x <? 0) = false.
Proof.
  unfold FloatOrder.sign_clear. rewrite ltb_spec. change (Prim2SF 0) with (S754_zero false).
  destruct (Prim2SF x) as [s|s| |s m e]; cbn; intros H; subst; reflexivity.
Qed.

Lemma positive_sign_clear (x : float) : (0 <? x) = true -> FloatOrder.sign_clear x.
Proof.
  unfold FloatOrder.sign_clear. rewrite ltb_spec. change (Prim2SF 0) with (S754_zero false).
  destruct (Prim2SF x) as [s|s| |s m e]; cbn; try discriminate;
    destruct s; try discriminate; reflexivity.
Qed.

Lemma add_sign_clear (x y : float) : FloatOrder.sign_clear x -> FloatOrder.sign_clear y -> FloatOrder.sign_clear (x + y).
Proof. unfold FloatOrder.sign_clear. rewrite add_spec. apply SFadd_sign_clear. Qed.

Lemma mul_sign_clear (x y : float) : FloatOrder.sign_clear x -> FloatOrder.sign_clear y -> FloatOrder.sign_clear (x * y).
Proof. unfold FloatOrder.sign_clear. rewrite mul_spec. apply SFmul_sign_clear. Qed.

Lemma square_sign_clear (x : float) : FloatOrder.sign_clear (x * x).
Proof. unfold FloatOrder.sign_clear. rewrite mul_spec. apply SFmul_self_sign_clear. Qed.

Lemma div_sign_clear (x y : float) : FloatOrder.sign_clear x -> FloatOrder.sign_clear y -> FloatOrder.sign_clear (x / y).
Proof. unfold FloatOrder.sign_clear. rewrite div_spec. apply SFdiv_sign_clear. Qed.

Lemma abs_sign_clear (x : float) : FloatOrder.sign_clear (abs x).
Proof.
  unfold FloatOrder.sign_clear. rewrite abs_spec. destruct (Prim2SF x); cbn; try reflexivity; exact I.
Qed.

Lemma sqrt_not_negative (x : float) : (sqrt x <? 0) = false.
Proof.
  rewrite ltb_spec, sqrt_spec. change (Prim2SF 0) with (S754_zero false).
  apply SFsqrt_never_negative.
Qed.

Lemma of_Z_sign_clear (z : Z) : (0 <= z)%Z -> FloatOrder.sign_clear (JS.of_Z z).
Proof.
  intros Hz. unfold FloatOrder.sign_clear, JS.of_Z.
  destruct (z <? 0)%Z eqn:Hneg; [apply Z.ltb_lt in Hneg; lia|].
  rewrite of_uint63_spec. apply binary_normalize_sign_clear.
  apply Uint63.to_Z_bounded.
Qed.

Lemma fround_sign_clear (x : float) : FloatOrder.sign_clear x -> FloatOrder.sign_clear (JS.fround x).
Proof.
  unfold FloatOrder.sign_clear, JS.fround. intros Hx.
  destruct (Prim2SF x) as [s|s| |s m e] eqn:Hsf; try (rewrite Hsf; exact Hx).
  cbn in Hx. subst s.
  pose proof (binary_round_sign_clear 24 128 m e) as Hround.
  destruct (binary_round 24 128 false m e) as [s'|s'| |s' m' e'];
    cbn in Hround; subst; try reflexivity; try exact I.
  unfold SF2Prim. rewrite Z_ldexp_spec, of_uint63_spec.
  pose proof (binary_normalize_sign_clear prec emax
                (Uint63.to_Z (Uint63.of_Z (Z.pos m'))) 0
                (proj1 (Uint63.to_Z_bounded _))) as Hint.
  destruct (binary_normalize prec emax _ 0 false) as [s''|s''| |s'' m'' e''];
    cbn in Hint |- *; subst; try reflexivity; try exact I.
  apply binary_round_sign_clear.
Qed.

(** ** Statistics *)

Section Statistics.

Lemma fold_max_in (rest : list float) :
  forall x0,
    In (fold_left (fun maxVal x => if maxVal <? x then x else maxVal) rest x0) (x0 :: rest).
Proof.
  induction rest as [|x rest IH]; intros x0; cbn [fold_left]; [now left|].
  destruct (IH (if x0 <? x then x else x0)) as [H | H].
  - rewrite <- H. destruct (x0 <? x); [right; now left | now left].
  - right. now right.
Qed.

Lemma fold_min_in (rest : list float) :
  forall x0,
    In (fold_left (fun minVal x => if x <? minVal then x else minVal) rest x0) (x0 :: rest).
Proof.
  induction rest as [|x rest IH]; intros x0; cbn [fold_left]; [now left|].
  destruct (IH (if x <? x0 then x else x0)) as [H | H].
  - rewrite <- H. destruct (x <? x0); [right; now left | now left].
  - right. now right.
Qed.

Lemma leb_refl (x : float) : is_nan x = false -> (x <=? x) = true.
Proof.
  intros H. apply leb_rank. repeat split; try assumption.
  unfold FloatOrder.lt3. lia.
Qed.

Lemma fold_max_bound (rest : list float) :
  forall x0,
    is_nan x0 = false -> Forall (fun x => is_nan x = false) rest ->
    let m := fold_left (fun maxVal x => if maxVal <? x then x else maxVal) rest x0 in
    (x0 <=? m) = true /\ Forall (fun x => (x <=? m) = true) rest.
Proof.
  induction rest as [|x rest IH]; intros x0 H0 Hrest; cbn [fold_left].
  - split; [now apply leb_refl | constructor].
  - inversion Hrest as [|? ? Hx Hrest']; subst.
    destruct (x0 <? x) eqn:Hlt.
    + destruct (IH x Hx Hrest') as [Hm Hall].
      split; [|constructor; assumption].
      exact (ltb_leb_trans _ _ _ Hlt Hm).
    + destruct (IH x0 H0 Hrest') as [Hm Hall].
      split; [exact Hm|]. constructor; [|exact Hall].
      exact (leb_trans _ _ _ (ltb_false_leb _ _ H0 Hx Hlt) Hm).
Qed.

Lemma fold_min_bound (rest : list float) :
  forall x0,
    is_nan x0 = false -> Forall (fun x => is_nan x = false) rest ->
    let m := fold_left (fun minVal x => if x <? minVal then x else minVal) rest x0 in
    (m <=? x0) = true /\ Forall (fun x => (m <=? x) = true) rest.
Proof.
  induction rest as [|x rest IH]; intros x0 H0 Hrest; cbn [fold_left].
  - split; [now apply leb_refl | constructor].
  - inversion Hrest as [|? ? Hx Hrest']; subst.
    destruct (x <? x0) eqn:Hlt.
    + destruct (IH x Hx Hrest') as [Hm Hall].
      split; [|constructor; assumption].
      exact (leb_trans _ _ _ Hm (ltb_leb_weaken _ _ Hlt)).
    + destruct (IH x0 H0 Hrest') as [Hm Hall].
      split; [exact Hm|]. constructor; [|exact Hall].
      exact (leb_trans _ _ _ Hm (ltb_false_leb _ _ Hx H0 Hlt)).
Qed.

(** [max] and [min] of a non-empty array return one of its elements; when
    no element is NaN, [max] is at least and [min] at most every element. *)
Theorem max_min_are_extreme_elements (arr : list float) :
  arr <> [] ->
  In (Signal.max arr) arr /\ In (Signal.min arr) arr
  /\ (Forall (fun x => is_nan x = false) arr ->
      Forall (fun x => (x <=? Signal.max arr) = true /\ (Signal.min arr <=? x) = true) arr
      /\ (Signal.min arr <=? Signal.max arr) = true).
Proof.
  destruct arr as [|x0 rest]; [congruence|]. intros _. cbn [Signal.max Signal.min].
  split; [apply fold_max_in|]. split; [apply fold_min_in|].
  intros Hnan. inversion Hnan as [|? ? H0 Hrest]; subst.
  destruct (fold_max_bound rest x0 H0 Hrest) as [Hmax0 Hmax].
  destruct (fold_min_bound rest x0 H0 Hrest) as [Hmin0 Hmin].
  split.
  - constructor; [split; assumption|].
    rewrite Forall_forall in *. intros x Hx. split; [now apply Hmax | now apply Hmin].
  - exact (leb_trans _ _ _ Hmin0 Hmax0).
Qed.

Lemma max_min_of_three :
  [3; 1; 2] <> []
  /\ In (Signal.max [3; 1; 2]) [3; 1; 2] /\ (Signal.min [3; 1; 2] <=? Signal.max [3; 1; 2]) = true.
Proof.
  assert (Hne : [3; 1; 2] <> []) by discriminate.
  destruct (max_min_are_extreme_elements [3; 1; 2] Hne) as [Hmax [_ Hbound]].
  split; [exact Hne|]. split; [exact Hmax|].
  apply Hbound. repeat constructor.
Defined.

(** [std] is never negative, and neither is any element of [abs]; [abs]
    keeps the length. *)
Theorem std_and_abs_not_negative (arr : list float) :
  (Signal.std arr <? 0) = false
  /\ length (Signal.abs arr) = length arr
  /\ Forall (fun x => (x <? 0) = false) (Signal.abs arr).
Proof.
  split; [|split].
  - destruct arr as [|x0 rest]; [reflexivity|]. cbn [Signal.std]. apply sqrt_not_negative.
  - apply length_map.
  - unfold Signal.abs. apply Forall_map, Forall_forall. intros x _.
    apply sign_clear_not_negative, fround_sign_clear, abs_sign_clear.
Qed.

(** For an array without NaN, the median is read off the ascending
    arrangement of its elements: the middle one for an odd number of
    elements, half the sum of the two middle ones for an even number. *)
Theorem median_is_middle_of_ascending_order (arr : list float) :
  arr <> [] -> Forall (fun x => is_nan x = false) arr ->
  exists sorted,
    Permutation sorted arr
    /\ StronglySorted (fun x y => (x <=? y) = true) sorted
    /\ Signal.median arr
       = Some (if Nat.eqb (Nat.modulo (length arr) 2) 0
               then (JS.get sorted (Nat.div (length arr) 2 - 1)
                     + JS.get sorted (Nat.div (length arr) 2)) / 2
               else JS.get sorted (Nat.div (length arr) 2)).
Proof.
  intros Hne Hnan. exists (JS.sort JS.ascending arr).
  pose proof (sort_Permutation JS.ascending arr) as Hperm.
  split; [exact Hperm|]. split; [now apply sort_ascending_numbers|].
  assert (Hnone : existsb is_nan arr = false).
  { apply not_true_is_false. intros Hex. apply existsb_exists in Hex.
    destruct Hex as [x [Hx Hxnan]]. rewrite Forall_forall in Hnan.
    rewrite (Hnan x Hx) in Hxnan. discriminate. }
  unfold Signal.median. destruct arr as [|x0 rest]; [congruence|].
  rewrite Hnone. cbv zeta. rewrite (Permutation_length Hperm).
  destruct (Nat.eqb _ 0); reflexivity.
Qed.

Lemma median_of_three_and_four :
  Signal.median [3; 1; 2] = Some 2
  /\ Signal.median [4; 1; 3; 2] = Some 2.5
  /\ exists sorted,
       Permutation sorted [4; 1; 3; 2]
       /\ StronglySorted (fun x y => (x <=? y) = true) sorted
       /\ Signal.median [4; 1; 3; 2]
          = Some ((JS.get sorted 1 + JS.get sorted 2) / 2).
Proof.
  split; [vm_compute; reflexivity|]. split; [vm_compute; reflexivity|].
  apply (median_is_middle_of_ascending_order [4; 1; 3; 2]); [discriminate|].
  repeat constructor.
Defined.

End Statistics.

(** ** Convolution with the one-tap kernel *)

Section ConvolveIdentity.

Lemma mul_shift52 (m : positive) : Pos.mul m 4503599627370496 = Pos.iter xO m 52.
Proof. rewrite Pos.mul_comm. reflexivity. Qed.

Lemma digits_shift52 (m : positive) :
  Zpos (digits2_pos (Pos.iter xO m 52)) = (Zpos (digits2_pos m) + 52)%Z.
Proof.
  change (digits2_pos (Pos.iter xO m 52)) with (Pos.iter Pos.succ (digits2_pos m) 52).
  generalize (digits2_pos m). intros d.
  cbn [Pos.iter]. repeat rewrite Pos2Z.inj_succ. lia.
Qed.

Lemma shr_shift52 (m : positive) :
  iter_pos shr_1 52 {| shr_m := Zpos (Pos.iter xO m 52); shr_r := false; shr_s := false |}
  = {| shr_m := Zpos m; shr_r := false; shr_s := false |}.
Proof. reflexivity. Qed.

(** Multiplying by 1 is exact. *)
Lemma mul_1_r (x : float) : x * 1 = x.
Proof.
  apply Prim2SF_inj. rewrite mul_spec. unfold SF64mul.
  change (Prim2SF 1) with (S754_finite false 4503599627370496 (-52)).
  pose proof (Prim2SF_valid x) as Hvalid.
  destruct (Prim2SF x) as [s|s| |s m e]; cbn [SFmul];
    try (rewrite xorb_false_r; reflexivity); try reflexivity.
  rewrite xorb_false_r.
  cbn [valid_binary] in Hvalid. unfold bounded, canonical_mantissa in Hvalid.
  apply andb_prop in Hvalid. destruct Hvalid as [Hcanon Hbound].
  apply Z.eqb_eq in Hcanon.
  rewrite mul_shift52.
  unfold binary_round_aux, shr_fexp. cbn [Zdigits2 shr_record_of_loc].
  rewrite digits_shift52.
  replace (Z.pos (digits2_pos m) + 52 + (e + -52))%Z with (Z.pos (digits2_pos m) + e)%Z by lia.
  rewrite Hcanon.
  replace (e - (e + -52))%Z with 52%Z by lia.
  cbn [shr]. rewrite shr_shift52. cbn [shr_m loc_of_shr_record round_nearest_even Zdigits2].
  replace (e + -52 + 52)%Z with e by lia.
  rewrite Hcanon, Z.sub_diag. cbn [shr shr_m]. rewrite Hbound. reflexivity.
Qed.

(** Adding a number to the +0 a sum starts from gives that number, -0
    becoming +0. *)
Lemma zero_plus (y : float) : JS.SameValueZero (0 + y) y.
Proof.
  destruct (Prim2SF y) as [s|s| |s m e] eqn:Hy.
  - right. split; apply is_zero_Prim2SF.
    + rewrite add_spec, Hy. change (Prim2SF 0) with (S754_zero false).
      destruct s; eexists; reflexivity.
    + now exists s.
  - left. apply Prim2SF_inj. rewrite add_spec, Hy. reflexivity.
  - left. apply Prim2SF_inj. rewrite add_spec, Hy. reflexivity.
  - left. apply Prim2SF_inj. rewrite add_spec, Hy. reflexivity.
Qed.

(** Convolving with the kernel [1] returns the signal as a [Float32Array]
    holds it: every sample rounded to binary32, a zero possibly with its
    sign lost. *)
Theorem convolve_with_one_tap (signal : list float) :
  exists out,
    Signal.convolve signal [1] "same" = inl out
    /\ Forall2 JS.SameValueZero out (map JS.fround signal).
Proof.
  unfold Signal.convolve. cbn [String.eqb Ascii.eqb length Nat.div seq fold_left].
  eexists. split; [reflexivity|].
  assert (Hgen : forall start,
             Forall2 JS.SameValueZero
               (map (fun i => JS.fround
                                (fst (Signal.convolve_tap signal [1] (Nat.div 1 2) i (0, 0%nat) 0%nat)))
                    (seq start (length signal - start)))
               (map JS.fround (skipn start signal))).
  { intros start. remember (length signal - start)%nat as k eqn:Hk.
    revert start Hk. induction k as [|k IH]; intros start Hk.
    - rewrite skipn_all2 by lia. constructor.
    - rewrite (skipn_get_cons signal start) by lia. cbn [seq map]. constructor.
      + apply SameValueZero_fround. unfold Signal.convolve_tap.
        change (Nat.div 1 2) with 0%nat.
        replace (Z.of_nat start - Z.of_nat 0 + Z.of_nat 0)%Z with (Z.of_nat start) by lia.
        assert (Hin : ((0 <=? Z.of_nat start)%Z && (Z.of_nat start <? Z.of_nat (length signal))%Z)%bool
                      = true).
        { apply andb_true_intro. split; [apply Z.leb_le | apply Z.ltb_lt]; lia. }
        rewrite Hin, Nat2Z.id. cbn [fst].
        change (JS.get [1] 0) with 1. rewrite mul_1_r. apply zero_plus.
      + apply IH. lia. }
  specialize (Hgen 0%nat). rewrite Nat.sub_0_r in Hgen. exact Hgen.
Qed.

End ConvolveIdentity.

(** ** Peak detection: edge behaviour of the filters *)

Section PeakEdges.
Import Signal.

Lemma findPeaks_peaks_candidates (data : list float) (opts : options) (i : nat) :
  In i (peaks (findPeaks data opts)) ->
  In i (prominenceFiltered data
          (heightFiltered data (match height opts with Some h => h | None => neg_infinity end))
          (match prominence opts with Some p => p | None => 0 end)).
Proof.
  unfold findPeaks. cbv zeta.
  destruct (Nat.ltb (length data) 3); [intros []|].
  destruct (prominenceFiltered _ _ _) as [|i0 rest] eqn:Hcands; [intros []|].
  cbn [peaks]. intros Hi.
  apply (Permutation_in _ (sort_Permutation JS.ascending_idx _)) in Hi.
  apply selectPeaks_from_candidates in Hi. destruct Hi as [[] | Hi].
  apply (Permutation_in _ (sortedByHeight_indices data (i0 :: rest))). exact Hi.
Qed.

Lemma candidates_localMaxima (data : list float) (h p : float) (i : nat) :
  In i (prominenceFiltered data (heightFiltered data h) p) -> In i (localMaxima data).
Proof.
  intros Hi.
  assert (Hh : In i (heightFiltered data h)).
  { unfold prominenceFiltered in Hi. destruct (0 <? p); [|exact Hi].
    apply filter_In in Hi. tauto. }
  unfold heightFiltered in Hh. apply filter_In in Hh. tauto.
Qed.

(** Two neighbouring samples cannot both be strictly above each other, so
    two returned peaks are never next to each other, whatever [distance]
    is. *)
Theorem findPeaks_peaks_never_adjacent (data : list float) (opts : options) (a b : nat) :
  In a (peaks (findPeaks data opts)) -> In b (peaks (findPeaks data opts)) ->
  (a < b)%nat -> (a + 2 <= b)%nat.
Proof.
  intros Ha Hb Hlt.
  apply findPeaks_peaks_candidates, candidates_localMaxima, localMaxima_spec in Ha, Hb.
  destruct Ha as [_ [_ [_ Har]]], Hb as [_ [_ [Hbl _]]].
  destruct (Nat.eq_dec b (a + 1)) as [-> | Hne]; [|lia].
  replace (a + 1 - 1)%nat with a in Hbl by lia.
  exfalso. float_order.
Qed.

Lemma findPeaks_peaks_apart_on_four_bumps :
  let found := peaks (findPeaks [0; 1; 0; 2; 0; 1; 0; 3; 0] (Fixtures.options 0.5 0 0)) in
  found = [1; 3; 5; 7]%nat /\ (1 + 2 <= 3)%nat.
Proof.
  split; [vm_compute; reflexivity|].
  apply (findPeaks_peaks_never_adjacent
           [0; 1; 0; 2; 0; 1; 0; 3; 0] (Fixtures.options 0.5 0 0));
    [vm_compute; tauto | vm_compute; tauto | lia].
Defined.

Lemma selectPeaks_keeps_head (distance : float) (c : candidate) (sorted : list candidate) :
  In (idx c) (selectPeaks distance (c :: sorted)).
Proof.
  unfold selectPeaks. cbn [fold_left tooClose existsb app].
  apply selectPeaks_grows. now left.
Qed.

(** The distance filter never removes every candidate: [findPeaks] returns
    no peak exactly when no index passes the height and prominence
    filters. *)
Theorem findPeaks_empty_iff_no_candidate (data : list float) (opts : options) :
  peaks (findPeaks data opts) = []
  <-> prominenceFiltered data
        (heightFiltered data (match height opts with Some h => h | None => neg_infinity end))
        (match prominence opts with Some p => p | None => 0 end) = [].
Proof.
  split.
  - unfold findPeaks. cbv zeta.
    destruct (Nat.ltb (length data) 3) eqn:Hn.
    + intros _. apply Nat.ltb_lt in Hn.
      destruct (prominenceFiltered _ _ _) as [|i rest] eqn:Hcands; [reflexivity|].
      assert (Hi : In i (localMaxima data)).
      { eapply candidates_localMaxima. rewrite Hcands. now left. }
      apply localMaxima_spec in Hi. lia.
    + destruct (prominenceFiltered _ _ _) as [|i rest] eqn:Hcands; [reflexivity|].
      cbn [peaks]. intros Hnil. exfalso.
      destruct (sortedByHeight data (i :: rest)) as [|c sorted] eqn:Hsorted.
      * pose proof (sortedByHeight_indices data (i :: rest)) as Hperm.
        rewrite Hsorted in Hperm. apply Permutation_nil in Hperm. discriminate.
      * pose proof (selectPeaks_keeps_head
                      (match distance opts with Some d => d | None => 1 end) c sorted) as Hin.
        apply (Permutation_in _ (Permutation_sym (sort_Permutation JS.ascending_idx _))) in Hin.
        rewrite Hnil in Hin. exact Hin.
  - intros Hnil.
    destruct (peaks (findPeaks data opts)) as [|i rest] eqn:Hpeaks; [reflexivity|].
    assert (Hi : In i (peaks (findPeaks data opts))) by (rewrite Hpeaks; now left).
    apply findPeaks_peaks_candidates in Hi. rewrite Hnil in Hi. contradiction.
Qed.

Lemma StronglySorted_seq (start len : nat) : StronglySorted lt (seq start len).
Proof.
  revert start. induction len as [|len IH]; intros start; cbn; constructor; [apply IH|].
  apply Forall_forall. intros x Hx. apply in_seq in Hx. lia.
Qed.

Lemma StronglySorted_filter_lt (f : nat -> bool) (l : list nat) :
  StronglySorted lt l -> StronglySorted lt (filter f l).
Proof.
  induction 1 as [|x l Hl IH Hx]; cbn; [constructor|].
  destruct (f x); [|exact IH]. constructor; [exact IH|].
  rewrite Forall_forall in *. intros y Hy. apply filter_In in Hy. now apply Hx.
Qed.

Lemma candidates_increasing (data : list float) (h p : float) :
  StronglySorted lt (prominenceFiltered data (heightFiltered data h) p).
Proof.
  assert (H : StronglySorted lt (heightFiltered data h)).
  { unfold heightFiltered, localMaxima.
    apply StronglySorted_filter_lt, StronglySorted_filter_lt, StronglySorted_seq. }
  unfold prominenceFiltered. destruct (0 <? p); [now apply StronglySorted_filter_lt | exact H].
Qed.

Lemma increasing_permutation_unique (l1 : list nat) :
  forall l2, StronglySorted lt l1 -> StronglySorted lt l2 -> Permutation l1 l2 -> l1 = l2.
Proof.
  induction l1 as [|x1 l1 IH]; intros l2 H1 H2 Hperm.
  - apply Permutation_nil in Hperm. now subst.
  - destruct l2 as [|x2 l2]; [apply Permutation_sym, Permutation_nil in Hperm; discriminate|].
    inversion H1 as [|? ? Hs1 Hall1]; inversion H2 as [|? ? Hs2 Hall2]; subst.
    rewrite Forall_forall in Hall1, Hall2.
    assert (Hx : x1 = x2).
    { assert (Hin1 : In x1 (x2 :: l2)) by (apply (Permutation_in _ Hperm); now left).
      assert (Hin2 : In x2 (x1 :: l1))
        by (apply (Permutation_in _ (Permutation_sym Hperm)); now left).
      destruct Hin1 as [-> | Hin1]; [reflexivity|].
      destruct Hin2 as [-> | Hin2]; [reflexivity|].
      specialize (Hall1 _ Hin2). specialize (Hall2 _ Hin1). lia. }
    subst x2. f_equal. apply IH; try assumption.
    eapply Permutation_cons_inv. exact Hperm.
Qed.

Lemma tooClose_never (distance : float) (accepted : list nat) (i : nat) :
  (0 <? distance) = false -> tooClose distance accepted i = false.
Proof.
  intros Hd. apply tooClose_false. intros q _.
  apply not_true_is_false. intros Hclose.
  pose proof (sign_clear_not_negative _
                (of_Z_sign_clear _ (Z.abs_nonneg (Z.of_nat i - Z.of_nat q)))) as Hsign.
  assert (Hpos : (0 <? distance) = true).
  { apply ltb_rank in Hclose. destruct Hclose as [Hx [Hdn Hlt]].
    apply ltb_rank. split; [reflexivity|]. split; [exact Hdn|].
    assert (Hge : ~ FloatOrder.lt3
                    (FloatOrder.key (JS.of_Z (Z.abs (Z.of_nat i - Z.of_nat q))))
                    (FloatOrder.key 0)).
    { intros H. assert (Htrue : (JS.of_Z (Z.abs (Z.of_nat i - Z.of_nat q)) <? 0) = true)
        by (apply ltb_rank; split; [exact Hx | split; [reflexivity | exact H]]).
      congruence. }
    unfold FloatOrder.lt3 in *. lia. }
  congruence.
Qed.

Lemma selectPeaks_without_suppression (distance : float) (sorted : list candidate) :
  (0 <? distance) = false -> selectPeaks distance sorted = map idx sorted.
Proof.
  intros Hd. unfold selectPeaks.
  assert (Hgen : forall accepted,
             fold_left (fun peaks c => if tooClose distance peaks (idx c) then peaks
                                       else peaks ++ [idx c]) sorted accepted
             = accepted ++ map idx sorted).
  { induction sorted as [|c sorted IH]; intros accepted; cbn [fold_left map].
    - now rewrite app_nil_r.
    - rewrite (tooClose_never distance accepted (idx c) Hd), IH, <- app_assoc. reflexivity. }
  apply Hgen.
Qed.

(** With a [distance] that is zero, negative or NaN nothing is suppressed:
    [findPeaks] returns exactly the indices that passed the height and
    prominence filters, in increasing order. *)
Theorem findPeaks_without_distance (data : list float) (opts : options) (d : float) :
  distance opts = Some d -> (0 <? d) = false ->
  peaks (findPeaks data opts)
  = prominenceFiltered data
      (heightFiltered data (match height opts with Some h => h | None => neg_infinity end))
      (match prominence opts with Some p => p | None => 0 end).
Proof.
  intros Hopt Hd. unfold findPeaks. rewrite Hopt. cbv zeta.
  set (h := match height opts with Some h => h | None => neg_infinity end).
  set (p := match prominence opts with Some p => p | None => 0 end).
  destruct (Nat.ltb (length data) 3) eqn:Hn.
  { apply Nat.ltb_lt in Hn.
    destruct (prominenceFiltered data (heightFiltered data h) p) as [|i rest] eqn:Hcands;
      [reflexivity|].
    assert (Hi : In i (localMaxima data)).
    { eapply candidates_localMaxima. rewrite Hcands. now left. }
    apply localMaxima_spec in Hi. lia. }
  pose proof (candidates_increasing data h p) as Hinc.
  destruct (prominenceFiltered data (heightFiltered data h) p) as [|i rest] eqn:Hcands;
    [reflexivity|].
  cbn [peaks]. rewrite (selectPeaks_without_suppression d _ Hd).
  pose proof (sortedByHeight_indices data (i :: rest)) as Hperm.
  apply increasing_permutation_unique; [|exact Hinc|].
  - apply sorted_NoDup_increasing; [apply sort_ascending_sorted|].
    eapply Permutation_NoDup; [symmetry; apply sort_Permutation|].
    eapply Permutation_NoDup; [symmetry; exact Hperm|].
    rewrite <- Hcands. apply prominenceFiltered_NoDup.
  - rewrite sort_Permutation. exact Hperm.
Qed.

Lemma findPeaks_zero_distance_on_four_bumps :
  peaks (findPeaks [0; 1; 0; 2; 0; 1; 0; 3; 0] (Fixtures.options 0.5 0 0))
  = prominenceFiltered [0; 1; 0; 2; 0; 1; 0; 3; 0]
      (heightFiltered [0; 1; 0; 2; 0; 1; 0; 3; 0] 0.5) 0
  /\ prominenceFiltered [0; 1; 0; 2; 0; 1; 0; 3; 0]
       (heightFiltered [0; 1; 0; 2; 0; 1; 0; 3; 0] 0.5) 0 = [1; 3; 5; 7]%nat.
Proof.
  split; [|vm_compute; reflexivity].
  apply (findPeaks_without_distance
           [0; 1; 0; 2; 0; 1; 0; 3; 0] (Fixtures.options 0.5 0 0) 0);
    [reflexivity | vm_compute; reflexivity].
Defined.

End PeakEdges.

(** ** Peak detection: the distance filter *)

Section DistanceFilter.
Import Signal.

Lemma ltb_irrefl (x : float) : (x <? x) = false.
Proof.
  apply not_true_is_false. intros H. apply ltb_rank in H.
  destruct H as [_ [_ H]]. unfold FloatOrder.lt3 in H. lia.
Qed.

Lemma ltb_key (x y : float) :
  is_nan x = false -> is_nan y = false ->
  ((x <? y) = true <-> FloatOrder.lt3 (FloatOrder.key x) (FloatOrder.key y)).
Proof. intros Hx Hy. rewrite ltb_rank. tauto. Qed.

Lemma before_irrefl (data : list float) (i : nat) : Spec.before data i i = false.
Proof. unfold Spec.before. now rewrite ltb_irrefl, Nat.ltb_irrefl. Qed.

Lemma before_one_way (data : list float) (j i : nat) :
  Spec.before data j i = true -> Spec.before data i j = false.
Proof.
  unfold Spec.before.
  destruct (JS.get data i <? JS.get data j) eqn:Hij,
           (JS.get data j <? JS.get data i) eqn:Hji; cbn.
  - exfalso. float_order.
  - reflexivity.
  - discriminate.
  - intros H. apply Nat.ltb_lt in H. apply Nat.ltb_ge. lia.
Qed.

Lemma before_trans (data : list float) (a b c : nat) :
  is_nan (JS.get data a) = false -> is_nan (JS.get data b) = false ->
  is_nan (JS.get data c) = false ->
  Spec.before data a b = true -> Spec.before data b c = true ->
  Spec.before data a c = true.
Proof.
  intros Ha Hb Hc. unfold Spec.before.
  pose proof (ltb_key _ _ Hb Ha) as Kba. pose proof (ltb_key _ _ Ha Hb) as Kab.
  pose proof (ltb_key _ _ Hc Hb) as Kcb. pose proof (ltb_key _ _ Hb Hc) as Kbc.
  pose proof (ltb_key _ _ Hc Ha) as Kca. pose proof (ltb_key _ _ Ha Hc) as Kac.
  pose proof (Nat.ltb_spec a b) as Nab. pose proof (Nat.ltb_spec b c) as Nbc.
  pose proof (Nat.ltb_spec a c) as Nac.
  unfold FloatOrder.lt3 in *.
  destruct (JS.get data b <? JS.get data a), (JS.get data a <? JS.get data b),
           (JS.get data c <? JS.get data b), (JS.get data b <? JS.get data c),
           (JS.get data c <? JS.get data a), (JS.get data a <? JS.get data c);
    destruct Nab, Nbc, Nac; cbn [orb andb negb];
    intros Hab Hbc; try discriminate; try reflexivity;
    exfalso;
    repeat match goal with
           | H : true = true <-> _ |- _ => apply proj1 in H; specialize (H eq_refl)
           | H : false = true <-> ?P |- _ =>
               assert (~ P) by (intros HP; apply H in HP; discriminate); clear H
           end;
    lia.
Qed.

Lemma candidate_not_nan (data : list float) (h p : float) (i : nat) :
  In i (prominenceFiltered data (heightFiltered data h) p) ->
  is_nan (JS.get data i) = false.
Proof.
  intros Hi. apply candidates_localMaxima, localMaxima_spec in Hi.
  destruct Hi as [_ [_ [Hleft _]]]. apply ltb_rank in Hleft. tauto.
Qed.

(** The candidates come out of the sort in processing order. *)
Lemma sortedByHeight_before (data : list float) (candidates : list nat) :
  StronglySorted lt candidates ->
  (forall i, In i candidates -> is_nan (JS.get data i) = false) ->
  StronglySorted (fun a b => Spec.before data (idx a) (idx b) = true)
                 (sortedByHeight data candidates).
Proof.
  intros Hinc Hnan. unfold sortedByHeight.
  apply sort_StronglySorted.
  - induction Hinc as [|i l Hl IH Hi]; cbn [map]; constructor.
    + apply IH. intros j Hj. apply Hnan. now right.
    + rewrite Forall_forall in *. intros c Hc. apply in_map_iff in Hc.
      destruct Hc as [j [<- Hj]]. specialize (Hi j Hj).
      unfold byHeight, Spec.before. cbn [idx cheight]. rewrite sub_positive_iff.
      split; intros H; rewrite H; [reflexivity|].
      apply Nat.ltb_lt in Hi. rewrite Hi. cbn. apply orb_true_r.
  - intros x y z Hx Hy Hz. apply in_map_iff in Hx, Hy, Hz.
    destruct Hx as [a [<- Ha]], Hy as [b [<- Hb]], Hz as [c [<- Hc]]. cbn [idx].
    apply before_trans; now apply Hnan.
Qed.

Lemma StronglySorted_middle {A : Type} (R : A -> A -> Prop) (l1 l2 : list A) (c : A) :
  StronglySorted R (l1 ++ c :: l2) ->
  Forall (fun a => R a c) l1 /\ Forall (R c) l2.
Proof.
  induction l1 as [|a l1 IH]; cbn [app]; intros H; inversion H as [|? ? Hs Hall]; subst.
  - split; [constructor | exact Hall].
  - destruct (IH Hs) as [H1 H2]. split; [|exact H2].
    constructor; [|exact H1]. rewrite Forall_forall in Hall. apply Hall.
    apply in_or_app. right. now left.
Qed.

(** The loop over the sorted candidates: a candidate is accepted exactly
    when no index accepted before it is closer than [distance]. *)
Lemma selectPeaks_greedy (distance : float) (sorted : list candidate) :
  forall accepted,
    NoDup (accepted ++ map idx sorted) ->
    forall l1 c l2,
      sorted = l1 ++ c :: l2 ->
      let final :=
        fold_left (fun peaks c => if tooClose distance peaks (idx c) then peaks
                                  else peaks ++ [idx c]) sorted accepted in
      (In (idx c) final ->
       forall j, In j accepted \/ (In j final /\ In j (map idx l1)) ->
                 (JS.of_Z (Z.abs (Z.of_nat (idx c) - Z.of_nat j)) <? distance) = false)
      /\ (~ In (idx c) final ->
          exists k, (In k accepted \/ (In k final /\ In k (map idx l1)))
                    /\ (JS.of_Z (Z.abs (Z.of_nat (idx c) - Z.of_nat k)) <? distance) = true).
Proof.
  induction sorted as [|c0 rest IH]; intros accepted Hnd l1 c l2 Heq.
  { destruct l1; discriminate. }
  assert (Hfresh : ~ In (idx c0) accepted /\ ~ In (idx c0) (map idx rest)).
  { cbn [map] in Hnd. apply NoDup_remove_2 in Hnd. split; intros H; apply Hnd;
      apply in_or_app; [now left | now right]. }
  destruct Hfresh as [Hfresh1 Hfresh2].
  assert (Hrejected : tooClose distance accepted (idx c0) = true ->
                      ~ In (idx c0)
                          (fold_left (fun peaks c => if tooClose distance peaks (idx c)
                                                     then peaks else peaks ++ [idx c])
                                     rest accepted)).
  { intros _ Hin. apply selectPeaks_from_candidates in Hin. tauto. }
  cbn [fold_left]. cbv zeta.
  destruct l1 as [|c1 l1]; cbn [app] in Heq; injection Heq as <- ->.
  - destruct (tooClose distance accepted (idx c0)) eqn:Hclose.
    + split; [intros Hin; exfalso; now apply Hrejected|].
      intros _. unfold tooClose in Hclose. apply existsb_exists in Hclose.
      destruct Hclose as [k [Hk Hnear]]. exists k. split; [now left | exact Hnear].
    + split.
      * intros _ j [Hj | [_ []]]. rewrite tooClose_false in Hclose. now apply Hclose.
      * intros Hnot. exfalso. apply Hnot, selectPeaks_grows, in_or_app. right. now left.
  - set (accepted' := if tooClose distance accepted (idx c0) then accepted
                      else accepted ++ [idx c0]).
    assert (Hnd' : NoDup (accepted' ++ map idx (l1 ++ c :: l2))).
    { unfold accepted'. cbn [map] in Hnd.
      destruct (tooClose distance accepted (idx c0)).
      - eapply NoDup_remove_1. exact Hnd.
      - rewrite <- app_assoc. exact Hnd. }
    destruct (IH accepted' Hnd' l1 c l2 eq_refl) as [Hin Hout]. cbv zeta in Hin, Hout.
    assert (Hsub : forall j, In j accepted -> In j accepted').
    { intros j Hj. unfold accepted'. destruct (tooClose distance accepted (idx c0));
        [exact Hj | apply in_or_app; now left]. }
    split.
    + intros Hc j Hj. apply Hin; [exact Hc|].
      destruct Hj as [Hj | [Hfinal Hj]]; [left; now apply Hsub|].
      cbn [map] in Hj. destruct Hj as [<- | Hj]; [|right; now split].
      left. unfold accepted' in *.
      destruct (tooClose distance accepted (idx c0)) eqn:Hclose.
      * exfalso. now apply Hrejected.
      * apply in_or_app. right. now left.
    + intros Hc. destruct (Hout Hc) as [k [Hk Hnear]]. exists k. split; [|exact Hnear].
      destruct Hk as [Hk | [Hfinal Hk]]; [|right; split; [exact Hfinal | now right]].
      unfold accepted' in Hk.
      destruct (tooClose distance accepted (idx c0)) eqn:Hclose; [now left|].
      apply in_app_or in Hk. destruct Hk as [Hk | [<- | []]]; [now left|].
      right. split; [|now left].
      apply selectPeaks_grows. unfold accepted'. try rewrite Hclose.
      apply in_or_app. right. now left.
Qed.

Lemma findPeaks_peaks_selected (data : list float) (opts : options) (i : nat) :
  In i (peaks (findPeaks data opts))
  <-> In i (selectPeaks
              (match distance opts with Some d => d | None => 1 end)
              (sortedByHeight data
                 (prominenceFiltered data
                    (heightFiltered data
                       (match height opts with Some h => h | None => neg_infinity end))
                    (match prominence opts with Some p => p | None => 0 end)))).
Proof.
  unfold findPeaks. cbv zeta.
  set (h := match height opts with Some h => h | None => neg_infinity end).
  set (p := match prominence opts with Some p => p | None => 0 end).
  destruct (Nat.ltb (length data) 3) eqn:Hn.
  - apply Nat.ltb_lt in Hn.
    destruct (prominenceFiltered data (heightFiltered data h) p) as [|i0 rest] eqn:Hcands;
      [reflexivity|].
    assert (Hi : In i0 (localMaxima data)).
    { eapply candidates_localMaxima. rewrite Hcands. now left. }
    apply localMaxima_spec in Hi. lia.
  - destruct (prominenceFiltered data (heightFiltered data h) p) as [|i0 rest] eqn:Hcands;
      [reflexivity|].
    cbn [peaks]. split; intros H.
    + now apply (Permutation_in _ (sort_Permutation JS.ascending_idx _)).
    + now apply (Permutation_in _ (Permutation_sym (sort_Permutation JS.ascending_idx _))).
Qed.

(** C1, as the code has it: [findPeaks] returns candidates only, and a
    candidate is returned exactly when none of the returned peaks that are
    processed before it (the taller ones, and of those of its own height
    the ones at lower indices) lies at an index distance strictly below
    [distance]; a candidate that is not returned is closer than [distance]
    to such a peak.  So of two candidates of equal height closer than
    [distance] at most one is returned; it is the lower-index one unless a
    returned peak processed before that one is closer than [distance] to
    it, and then the higher-index one may be returned instead.
    [findPeaks([0,1,0,1,0], {height: 0.5, distance: 3, prominence: 0})]
    returns the single peak index 1. *)
Theorem distance_filter_is_greedy_by_height (data : list float) (opts : options) :
  let found := peaks (findPeaks data opts) in
  let candidates :=
    prominenceFiltered data
      (heightFiltered data (match height opts with Some h => h | None => neg_infinity end))
      (match prominence opts with Some p => p | None => 0 end) in
  let d := match distance opts with Some d => d | None => 1 end in
  (forall i, In i found -> In i candidates)
  /\ (forall i, In i candidates ->
        (In i found
         <-> forall j, In j found -> Spec.before data j i = true ->
                       (JS.of_Z (Z.abs (Z.of_nat i - Z.of_nat j)) <? d) = false))
  /\ (forall i, In i candidates -> ~ In i found ->
        exists k, In k found /\ Spec.before data k i = true
                  /\ (JS.of_Z (Z.abs (Z.of_nat i - Z.of_nat k)) <? d) = true)
  /\ (forall i j, In i candidates -> In j candidates -> (i < j)%nat ->
        (JS.get data i <? JS.get data j) = false ->
        (JS.get data j <? JS.get data i) = false ->
        (JS.of_Z (Z.abs (Z.of_nat j - Z.of_nat i)) <? d) = true ->
        (In i found /\ ~ In j found)
        \/ (~ In i found
            /\ exists k, In k found /\ Spec.before data k i = true
                         /\ (JS.of_Z (Z.abs (Z.of_nat i - Z.of_nat k)) <? d) = true))
  /\ findPeaks [0; 1; 0; 1; 0] (Fixtures.options 0.5 3 0)
     = {| peaks := [1%nat]; properties := {| heights := [1] |} |}.
Proof.
  intros found candidates d.
  set (sorted := sortedByHeight data candidates).
  assert (Hfound : forall i, In i found <-> In i (selectPeaks d sorted))
    by (intros i; apply findPeaks_peaks_selected).
  assert (Hperm : Permutation (map idx sorted) candidates)
    by apply sortedByHeight_indices.
  assert (Hnd : NoDup (map idx sorted)).
  { eapply Permutation_NoDup; [symmetry; exact Hperm|]. apply prominenceFiltered_NoDup. }
  assert (Horder : StronglySorted (fun a b => Spec.before data (idx a) (idx b) = true) sorted).
  { apply sortedByHeight_before; [apply candidates_increasing|].
    intros i Hi. eapply candidate_not_nan. exact Hi. }
  assert (Hsub : forall i, In i found -> In i candidates).
  { intros i Hi. apply Hfound, selectPeaks_from_candidates in Hi.
    destruct Hi as [[] | Hi]. now apply (Permutation_in _ Hperm). }
  assert (Hplace : forall i, In i candidates ->
             exists l1 c l2,
               sorted = l1 ++ c :: l2 /\ idx c = i
               /\ (forall k, In k found -> Spec.before data k i = true ->
                             In k (map idx l1))
               /\ (forall k, In k (map idx l1) -> Spec.before data k i = true)).
  { intros i Hi. apply (Permutation_in _ (Permutation_sym Hperm)), in_map_iff in Hi.
    destruct Hi as [c [<- Hc]]. apply in_split in Hc. destruct Hc as [l1 [l2 Hsplit]].
    exists l1, c, l2. split; [exact Hsplit|]. split; [reflexivity|].
    rewrite Hsplit in Horder. apply StronglySorted_middle in Horder.
    destruct Horder as [Hleft Hright]. rewrite Forall_forall in Hleft, Hright.
    split.
    - intros k Hk Hbefore.
      apply Hsub, (Permutation_in _ (Permutation_sym Hperm)) in Hk.
      rewrite Hsplit, map_app in Hk. cbn [map] in Hk.
      apply in_app_or in Hk. destruct Hk as [Hk | [Hk | Hk]]; [exact Hk | |].
      + rewrite <- Hk, before_irrefl in Hbefore. discriminate.
      + apply in_map_iff in Hk. destruct Hk as [c' [<- Hc']].
        apply Hright, before_one_way in Hc'. congruence.
    - intros k Hk. apply in_map_iff in Hk. destruct Hk as [c' [<- Hc']]. now apply Hleft. }
  assert (Hin : forall i, In i candidates -> In i found ->
                  forall j, In j found -> Spec.before data j i = true ->
                            (JS.of_Z (Z.abs (Z.of_nat i - Z.of_nat j)) <? d) = false).
  { intros i Hi Hfi j Hj Hbefore.
    destruct (Hplace i Hi) as [l1 [c [l2 [Hsplit [<- [Hleft _]]]]]].
    destruct (selectPeaks_greedy d sorted [] Hnd l1 c l2 Hsplit) as [Hacc _].
    apply Hacc; [now apply Hfound|]. right. split; [now apply Hfound | now apply Hleft]. }
  assert (Hout : forall i, In i candidates -> ~ In i found ->
                   exists k, In k found /\ Spec.before data k i = true
                             /\ (JS.of_Z (Z.abs (Z.of_nat i - Z.of_nat k)) <? d) = true).
  { intros i Hi Hnot.
    destruct (Hplace i Hi) as [l1 [c [l2 [Hsplit [<- [_ Hleft]]]]]].
    destruct (selectPeaks_greedy d sorted [] Hnd l1 c l2 Hsplit) as [_ Hrej].
    destruct Hrej as [k [Hk Hnear]]; [intros H; apply Hnot; now apply Hfound|].
    destruct Hk as [[] | [Hk Hk1]].
    exists k. split; [now apply Hfound|]. split; [now apply Hleft | exact Hnear]. }
  split; [exact Hsub|]. split; [|split; [exact Hout|split]].
  - intros i Hi. split; [now apply Hin|].
    intros Hfar. destruct (in_dec Nat.eq_dec i found) as [Hyes | Hno]; [exact Hyes|].
    destruct (Hout i Hi Hno) as [k [Hk [Hbefore Hnear]]].
    rewrite (Hfar k Hk Hbefore) in Hnear. discriminate.
  - intros i j Hi Hj Hlt Hij Hji Hnear.
    destruct (in_dec Nat.eq_dec i found) as [Hyes | Hno]; [left | right].
    + split; [exact Hyes|]. intros Hjf.
      assert (Hbefore : Spec.before data i j = true).
      { unfold Spec.before. rewrite Hji, Hij. apply Nat.ltb_lt in Hlt. now rewrite Hlt. }
      rewrite (Hin j Hj Hjf i Hyes Hbefore) in Hnear. discriminate.
    + split; [exact Hno | now apply Hout].
  - vm_compute. reflexivity.
Qed.

(** With a third, taller peak in reach of the lower-index one of two equal
    peaks, it is the higher-index one that is returned:
    [findPeaks([0,2,0,1,0,1,0], {height: 0.5, distance: 3, prominence: 0})]
    is [1, 5], although the candidates at 3 and 5 have the same height and
    are closer than the distance. *)
Lemma distance_filter_drops_the_lower_index_of_a_tie :
  let data := [0; 2; 0; 1; 0; 1; 0] in
  prominenceFiltered data (heightFiltered data 0.5) 0 = [1; 3; 5]%nat
  /\ JS.get data 3 = JS.get data 5
  /\ (JS.of_Z (Z.abs (Z.of_nat 5 - Z.of_nat 3)) <? 3) = true
  /\ peaks (findPeaks data (Fixtures.options 0.5 3 0)) = [1; 5]%nat.
Proof. split; [|split; [|split]]; vm_compute; reflexivity. Qed.

Lemma distance_filter_on_three_peaks :
  let data := [0; 2; 0; 1; 0; 1; 0] in
  let found := peaks (findPeaks data (Fixtures.options 0.5 3 0)) in
  found = [1; 5]%nat
  /\ exists k, In k found /\ Spec.before data k 3 = true
               /\ (JS.of_Z (Z.abs (Z.of_nat 3 - Z.of_nat k)) <? 3) = true.
Proof.
  split; [vm_compute; reflexivity|].
  destruct (distance_filter_is_greedy_by_height
              [0; 2; 0; 1; 0; 1; 0] (Fixtures.options 0.5 3 0)) as [_ [_ [Hout _]]].
  apply (Hout 3%nat).
  - vm_compute. tauto.
  - vm_compute. intros [H | [H | []]]; discriminate.
Defined.

End DistanceFilter.

(** ** The detector's stages *)

Section Envelope.
Import RateOfFireDetector.

Lemma get_sign_clear (l : list float) (i : nat) :
  Forall FloatOrder.sign_clear l -> FloatOrder.sign_clear (JS.get l i).
Proof.
  intros Hl. unfold JS.get.
  destruct (nth_in_or_default i l nan) as [Hin | ->]; [|exact I].
  rewrite Forall_forall in Hl. now apply Hl.
Qed.

Lemma convolve_taps_sign_clear (signal kernel : list float) (halfKernel i : nat) :
  Forall FloatOrder.sign_clear signal -> Forall FloatOrder.sign_clear kernel ->
  forall (js : list nat) (st : float * nat),
    FloatOrder.sign_clear (fst st) ->
    FloatOrder.sign_clear
      (fst (fold_left (Signal.convolve_tap signal kernel halfKernel i) js st)).
Proof.
  intros Hs Hk. induction js as [|j js IH]; intros [sum count] Hst; [exact Hst|].
  cbn [fold_left]. apply IH. unfold Signal.convolve_tap.
  destruct (_ && _)%bool; [|exact Hst].
  cbn [fst] in *. apply add_sign_clear; [exact Hst|].
  apply mul_sign_clear; now apply get_sign_clear.
Qed.

Lemma convolve_sign_clear (signal kernel out : list float) :
  Forall FloatOrder.sign_clear signal -> Forall FloatOrder.sign_clear kernel ->
  Signal.convolve signal kernel "same" = inl out ->
  length out = length signal /\ Forall FloatOrder.sign_clear out.
Proof.
  intros Hs Hk. unfold Signal.convolve. cbn [String.eqb Ascii.eqb Bool.eqb].
  cbn. intros H. injection H as <-.
  split; [now rewrite length_map, length_seq|].
  apply Forall_forall. intros x Hx. apply in_map_iff in Hx. destruct Hx as [i [<- _]].
  apply fround_sign_clear, convolve_taps_sign_clear; [exact Hs | exact Hk | reflexivity].
Qed.

Lemma abs_all_sign_clear (arr : list float) : Forall FloatOrder.sign_clear (Signal.abs arr).
Proof.
  unfold Signal.abs. apply Forall_forall. intros x Hx.
  apply in_map_iff in Hx. destruct Hx as [y [<- _]].
  apply fround_sign_clear, abs_sign_clear.
Qed.

Lemma window_sign_clear (n : nat) (windowSamples : float) :
  (1 <? windowSamples) = true ->
  Forall FloatOrder.sign_clear (Signal.divide (Signal.ones n) windowSamples).
Proof.
  intros Hw. unfold Signal.divide, Signal.ones. rewrite map_map.
  apply Forall_forall. intros x Hx. apply in_map_iff in Hx. destruct Hx as [i [<- _]].
  apply fround_sign_clear, div_sign_clear.
  - apply positive_sign_clear. vm_compute. reflexivity.
  - apply positive_sign_clear.
    assert (H01 : (0 <? 1) = true) by reflexivity.
    apply ltb_rank. float_order.
Qed.

Lemma calculateEnvelope_returns (e : JS.engine) (d d' : state) :
  calculateEnvelope e d = Return tt d' ->
  exists audio rate env,
    audioData d = Some audio /\ sampleRate d = Some rate /\ JS.falsy rate = false
    /\ d' = set_envelope d env
    /\ (env = Signal.abs audio
        \/ exists n windowSamples,
             (1 <? windowSamples) = true
             /\ Signal.convolve (Signal.abs audio)
                  (Signal.divide (Signal.ones n) windowSamples) "same" = inl env).
Proof.
  unfold calculateEnvelope.
  destruct (audioData d) as [audio|]; [|discriminate].
  destruct (sampleRate d) as [rate|]; [|discriminate].
  destruct (JS.falsy rate) eqn:Hrate; [discriminate|].
  cbv zeta.
  destruct (1 <? JS.Math_max (JS.Math_floor (windowSize d * rate)) 1) eqn:Hw.
  - destruct (JS.Float32Array_throws e _); [discriminate|].
    destruct (Signal.convolve _ _ _) as [env|msg] eqn:Hconv; [|discriminate].
    intros H. injection H as <-.
    exists audio, rate, env.
    split; [reflexivity|]. split; [reflexivity|]. split; [exact Hrate|].
    split; [reflexivity|]. right. eexists. eexists. split; [exact Hw | exact Hconv].
  - intros H. injection H as <-.
    exists audio, rate, (Signal.abs audio).
    split; [reflexivity|]. split; [reflexivity|]. split; [exact Hrate|].
    split; [reflexivity|]. now left.
Qed.

Lemma envelope_length_and_signs (audio env : list float) :
  (env = Signal.abs audio
   \/ exists n windowSamples,
        (1 <? windowSamples) = true
        /\ Signal.convolve (Signal.abs audio)
             (Signal.divide (Signal.ones n) windowSamples) "same" = inl env) ->
  length env = length audio /\ Forall FloatOrder.sign_clear env.
Proof.
  assert (Habs : length (Signal.abs audio) = length audio)
    by (unfold Signal.abs; apply length_map).
  intros [-> | [n [windowSamples [Hw Hconv]]]].
  - split; [exact Habs | apply abs_all_sign_clear].
  - apply convolve_sign_clear in Hconv;
      [|apply abs_all_sign_clear | now apply window_sign_clear].
    destruct Hconv as [Hlen Hsign]. split; [congruence | exact Hsign].
Qed.

(** When [calculateEnvelope] returns, the detector holds audio and a usable
    sample rate, and the only field written is the envelope: it has one
    sample per audio sample and none of them is negative. *)
Theorem calculateEnvelope_not_negative (e : JS.engine) (d d' : state) :
  calculateEnvelope e d = Return tt d' ->
  exists audio rate env,
    audioData d = Some audio /\ sampleRate d = Some rate /\ JS.falsy rate = false
    /\ d' = set_envelope d env
    /\ length env = length audio
    /\ Forall (fun x => (x <? 0) = false) env.
Proof.
  intros Hrun. apply calculateEnvelope_returns in Hrun.
  destruct Hrun as [audio [rate [env [Haudio [Hrate [Hok [Hd' Hshape]]]]]]].
  destruct (envelope_length_and_signs audio env Hshape) as [Hlen Hsign].
  exists audio, rate, env.
  split; [exact Haudio|]. split; [exact Hrate|]. split; [exact Hok|].
  split; [exact Hd'|]. split; [exact Hlen|].
  eapply Forall_impl; [|exact Hsign]. exact sign_clear_not_negative.
Qed.

Lemma calculateEnvelope_on_a_click :
  let d := set_audio (constructor no_options) 1000 [0; -1; 0.5; 0] in
  calculateEnvelope Fixtures.engine d = Return tt (set_envelope d [0; 0.5; 0.75; 0.25])
  /\ exists audio rate env,
       audioData d = Some audio /\ sampleRate d = Some rate /\ JS.falsy rate = false
       /\ set_envelope d [0; 0.5; 0.75; 0.25] = set_envelope d env
       /\ length env = length audio
       /\ Forall (fun x => (x <? 0) = false) env.
Proof.
  split; [vm_compute; reflexivity|].
  apply (calculateEnvelope_not_negative Fixtures.engine
           (set_audio (constructor no_options) 1000 [0; -1; 0.5; 0])).
  vm_compute. reflexivity.
Defined.

Lemma is_nan_eq (x : float) : is_nan x = true -> x = nan.
Proof.
  intros H. apply Prim2SF_inj.
  destruct (spec_float_nan_dec (Prim2SF x)) as [Hx | Hx]; [exact Hx|].
  apply is_nan_Prim2SF in Hx. congruence.
Qed.

Lemma nan_mul_l (y : float) : nan * y = nan.
Proof. apply Prim2SF_inj. rewrite mul_spec. reflexivity. Qed.

Lemma nan_add_r (x : float) : x + nan = nan.
Proof.
  apply Prim2SF_inj. rewrite add_spec. change (Prim2SF nan) with S754_nan.
  destruct (Prim2SF x) as [s|s| |s m e]; reflexivity.
Qed.

Lemma nan_leb (x : float) : (nan <=? x) = false.
Proof.
  apply not_true_is_false. intros H. apply leb_rank in H. destruct H as [H _].
  discriminate.
Qed.

(** A window size that is not a number, as an empty input field produces,
    is not an error: the envelope is then the rectified audio itself. *)
Theorem calculateEnvelope_nan_window (e : JS.engine) (d : state) (audio : list float)
    (rate : float) :
  audioData d = Some audio -> sampleRate d = Some rate -> JS.falsy rate = false ->
  is_nan (windowSize d) = true ->
  calculateEnvelope e d = Return tt (set_envelope d (Signal.abs audio)).
Proof.
  intros Haudio Hrate Hok Hnan. unfold calculateEnvelope.
  rewrite Haudio, Hrate, Hok, (is_nan_eq _ Hnan), nan_mul_l. reflexivity.
Qed.

Lemma calculateEnvelope_without_window_size :
  let d := set_audio (constructor {| opt_peakThresholdStd := None; opt_minShotSpacing := None;
                                     opt_burstGapThreshold := None; opt_windowSize := Some nan;
                                     opt_minPeakProminence := None; opt_minBurstCount := None |})
                     1000 [0; -1; 0.5; 0] in
  calculateEnvelope Fixtures.engine d = Return tt (set_envelope d [0; 1; 0.5; 0]).
Proof.
  apply (calculateEnvelope_nan_window Fixtures.engine _ [0; -1; 0.5; 0] 1000); reflexivity.
Defined.

End Envelope.

Section Detection.
Import RateOfFireDetector.

Lemma detectPeaks_returns (d d' : state) (r : Signal.result) :
  detectPeaks d = Return r d' ->
  exists env rate,
    envelope d = Some env /\ sampleRate d = Some rate /\ JS.falsy rate = false
    /\ r = Signal.findPeaks env
             {| Signal.height :=
                  Some (Signal.mean env + peakThresholdStd d * Signal.std env);
                Signal.distance := Some (JS.Math_floor (minShotSpacing d * rate));
                Signal.prominence := Some (minPeakProminence d) |}
    /\ d' = set_shotTimes d (map (fun i => JS.of_nat i / rate) (Signal.peaks r)).
Proof.
  unfold detectPeaks.
  destruct (envelope d) as [env|]; [|discriminate].
  destruct (sampleRate d) as [rate|]; [|discriminate].
  destruct (JS.falsy rate) eqn:Hok; [discriminate|].
  cbv zeta. intros H. injection H as <- <-.
  exists env, rate. split; [reflexivity|]. split; [reflexivity|]. split; [exact Hok|].
  split; reflexivity.
Qed.

(** When [detectPeaks] returns, it has stored one shot time per peak, the
    peak's index over the sample rate, and has written nothing else; every
    peak is an interior sample of the envelope that is strictly above both
    neighbours and at least the threshold of mean plus [peakThresholdStd]
    standard deviations. *)
Theorem detectPeaks_shots_reach_threshold (d d' : state) (r : Signal.result) :
  detectPeaks d = Return r d' ->
  exists env rate,
    envelope d = Some env /\ sampleRate d = Some rate
    /\ d' = set_shotTimes d (map (fun i => JS.of_nat i / rate) (Signal.peaks r))
    /\ length (shotTimes d') = length (Signal.peaks r)
    /\ Forall (fun i =>
                 (1 <= i)%nat /\ (i + 1 < length env)%nat
                 /\ (JS.get env (i - 1) <? JS.get env i) = true
                 /\ (JS.get env (i + 1) <? JS.get env i) = true
                 /\ (Signal.mean env + peakThresholdStd d * Signal.std env
                     <=? JS.get env i) = true)
              (Signal.peaks r).
Proof.
  intros Hrun. apply detectPeaks_returns in Hrun.
  destruct Hrun as [env [rate [Henv [Hrate [_ [Hr Hd']]]]]].
  exists env, rate. split; [exact Henv|]. split; [exact Hrate|]. split; [exact Hd'|].
  split; [rewrite Hd'; cbn [shotTimes set_shotTimes]; apply length_map|].
  apply Forall_forall. intros i Hi. rewrite Hr in Hi.
  apply findPeaks_peaks_candidates in Hi. cbn [Signal.height Signal.prominence] in Hi.
  assert (Hmax : In i (Signal.localMaxima env))
    by (eapply candidates_localMaxima; exact Hi).
  apply localMaxima_spec in Hmax. destruct Hmax as [H1 [H2 [H3 H4]]].
  split; [exact H1|]. split; [exact H2|]. split; [exact H3|]. split; [exact H4|].
  assert (Hh : In i (Signal.heightFiltered env
                       (Signal.mean env + peakThresholdStd d * Signal.std env))).
  { unfold Signal.prominenceFiltered in Hi. destruct (0 <? minPeakProminence d); [|exact Hi].
    apply filter_In in Hi. tauto. }
  unfold Signal.heightFiltered in Hh. apply filter_In in Hh. tauto.
Qed.

Lemma detectPeaks_on_two_clicks :
  let d := set_envelope (set_audio (constructor no_options) 100 [])
                        [0; 0; 1; 0; 0; 0; 0; 0; 0; 0; 1; 0; 0] in
  exists r d', detectPeaks d = Return r d'
               /\ Signal.peaks r = [2; 10]%nat
               /\ shotTimes d' = [0.02; 0.1]
               /\ (Signal.mean [0; 0; 1; 0; 0; 0; 0; 0; 0; 0; 1; 0; 0]
                   + 1.2 * Signal.std [0; 0; 1; 0; 0; 0; 0; 0; 0; 0; 1; 0; 0] <=? 1) = true.
Proof.
  intros d.
  destruct (detectPeaks d) as [r d'|msg] eqn:Hrun; [|vm_compute in Hrun; discriminate].
  destruct (detectPeaks_shots_reach_threshold d d' r Hrun)
    as [env [rate [Henv [_ [_ [_ Hpeaks]]]]]].
  injection Henv as <-.
  assert (Hr : Signal.peaks r = [2; 10]%nat)
    by (vm_compute in Hrun; injection Hrun as <- _; reflexivity).
  exists r, d'. split; [reflexivity|]. split; [exact Hr|].
  split; [vm_compute in Hrun; injection Hrun as _ <-; reflexivity|].
  rewrite Hr in Hpeaks. apply Forall_inv in Hpeaks.
  destruct Hpeaks as [_ [_ [_ [_ H]]]]. exact H.
Defined.

(** A peak threshold that is not a number, as an empty input field
    produces, is not an error either: no sample passes the height test, so
    no peak is reported and the shot times are emptied. *)
Theorem detectPeaks_nan_threshold (d : state) (env : list float) (rate : float) :
  envelope d = Some env -> sampleRate d = Some rate -> JS.falsy rate = false ->
  is_nan (peakThresholdStd d) = true ->
  detectPeaks d = Return Signal.emptyResult (set_shotTimes d []).
Proof.
  intros Henv Hrate Hok Hnan. unfold detectPeaks.
  rewrite Henv, Hrate, Hok, (is_nan_eq _ Hnan), nan_mul_l, nan_add_r. cbv zeta.
  assert (Hnone : Signal.findPeaks env
                    {| Signal.height := Some nan;
                       Signal.distance := Some (JS.Math_floor (minShotSpacing d * rate));
                       Signal.prominence := Some (minPeakProminence d) |}
                  = Signal.emptyResult).
  { unfold Signal.findPeaks. cbn [Signal.height Signal.distance Signal.prominence]. cbv zeta.
    destruct (Nat.ltb (length env) 3); [reflexivity|].
    assert (Hh : Signal.heightFiltered env nan = []).
    { unfold Signal.heightFiltered. induction (Signal.localMaxima env) as [|i l IH];
        [reflexivity|]. cbn [filter]. now rewrite nan_leb. }
    rewrite Hh. unfold Signal.prominenceFiltered.
    destruct (0 <? minPeakProminence d); reflexivity. }
  rewrite Hnone. reflexivity.
Qed.

Lemma detectPeaks_without_threshold :
  let d := set_envelope
             (set_audio (constructor {| opt_peakThresholdStd := Some nan;
                                        opt_minShotSpacing := None;
                                        opt_burstGapThreshold := None; opt_windowSize := None;
                                        opt_minPeakProminence := None;
                                        opt_minBurstCount := None |}) 100 [])
             [0; 0; 1; 0; 0; 0; 0; 0; 0; 0; 1; 0; 0] in
  detectPeaks d = Return Signal.emptyResult (set_shotTimes d []).
Proof.
  apply (detectPeaks_nan_threshold _ [0; 0; 1; 0; 0; 0; 0; 0; 0; 0; 1; 0; 0] 100); reflexivity.
Defined.

End Detection.

(** ** Bursts are the maximal runs of close shots *)

Section BurstRuns.
Import RateOfFireDetector.

Lemma run_unique (d : state) (start len s l : nat) :
  (start + len < length (shotTimes d))%nat ->
  (forall j, (start < j <= start + len)%nat -> Spec.within_gap d j = true) ->
  (start = 0%nat \/ Spec.within_gap d start = false) ->
  Spec.maximal_run d s l ->
  (start < s + S l)%nat -> (s + S l <= start + S len)%nat ->
  s = start /\ l = len.
Proof.
  intros Hn Hgaps Hleft [_ [Hg [Hl Hr]]] H1 H2.
  assert (Hend : (s + l = start + len)%nat).
  { destruct (Nat.eq_dec (s + l) (start + len)) as [Heq | Hne]; [exact Heq|]. exfalso.
    destruct Hr as [Hr | Hr]; [lia|].
    rewrite Hgaps in Hr by lia. discriminate. }
  assert (Hs : s = start).
  { destruct (lt_eq_lt_dec s start) as [[Hlt | Heq] | Hgt]; [|exact Heq|]; exfalso.
    - destruct Hleft as [-> | Hleft]; [lia|]. rewrite Hg in Hleft by lia. discriminate.
    - destruct Hl as [-> | Hl]; [lia|]. rewrite Hgaps in Hl by lia. discriminate. }
  lia.
Qed.

Lemma StronglySorted_app_lt (l1 l2 : list nat) :
  StronglySorted lt l1 -> StronglySorted lt l2 ->
  (forall x y, In x l1 -> In y l2 -> (x < y)%nat) ->
  StronglySorted lt (l1 ++ l2).
Proof.
  intros H1 H2 Hlt. induction H1 as [|x l1 Hl1 IH Hx]; [exact H2|].
  cbn [app]. constructor.
  - apply IH. intros a b Ha Hb. apply Hlt; [now right | exact Hb].
  - apply Forall_app. split; [exact Hx|].
    apply Forall_forall. intros y Hy. apply Hlt; [now left | exact Hy].
Qed.

Lemma closing_a_run (d : state) (bs : list (list nat)) (start len : nat) :
  (start + len < length (shotTimes d))%nat ->
  (forall j, (start < j <= start + len)%nat -> Spec.within_gap d j = true) ->
  (start = 0%nat \/ Spec.within_gap d start = false) ->
  ((start + len + 1)%nat = length (shotTimes d)
   \/ Spec.within_gap d (start + len + 1) = false) ->
  (forall b, In b bs <->
             exists s l, b = seq s (S l) /\ (s + S l <= start)%nat
                         /\ Spec.maximal_run d s l
                         /\ (minBurstCount d <=? JS.of_nat (S l)) = true) ->
  StronglySorted lt (concat bs) ->
  Forall (fun x => (x < start)%nat) (concat bs) ->
  let bs' := if minBurstCount d <=? JS.of_nat (length (seq start (S len)))
             then bs ++ [seq start (S len)] else bs in
  (forall b, In b bs' <->
             exists s l, b = seq s (S l) /\ (s + S l <= start + S len)%nat
                         /\ Spec.maximal_run d s l
                         /\ (minBurstCount d <=? JS.of_nat (S l)) = true)
  /\ StronglySorted lt (concat bs')
  /\ Forall (fun x => (x < start + S len)%nat) (concat bs').
Proof.
  intros Hn Hgaps Hleft Hright Hbs Hsorted Hbelow bs'.
  assert (Hcur : Spec.maximal_run d start len).
  { split; [exact Hn|]. split; [exact Hgaps|]. split; [exact Hleft | exact Hright]. }
  assert (Hold : forall b, In b bs ->
                   exists s l, b = seq s (S l) /\ (s + S l <= start + S len)%nat
                               /\ Spec.maximal_run d s l
                               /\ (minBurstCount d <=? JS.of_nat (S l)) = true).
  { intros b Hb. apply Hbs in Hb. destruct Hb as [s [l [Hb [Hle [Hrun Hcount]]]]].
    exists s, l. split; [exact Hb|]. split; [lia|]. split; assumption. }
  assert (Hnew : forall s l,
             (s + S l <= start + S len)%nat -> Spec.maximal_run d s l ->
             (minBurstCount d <=? JS.of_nat (S l)) = true ->
             In (seq s (S l)) bs \/ (s = start /\ l = len)).
  { intros s l Hle Hrun Hcount.
    destruct (le_lt_dec (s + S l) start) as [Hdone | Hopen].
    - left. apply Hbs. exists s, l. repeat split; try assumption; apply Hrun.
    - right. eapply run_unique; eassumption. }
  assert (Hbelow' : Forall (fun x => (x < start + S len)%nat) (concat bs)).
  { eapply Forall_impl; [|exact Hbelow]. cbn beta. intros x Hx. lia. }
  unfold bs'. rewrite length_seq.
  destruct (minBurstCount d <=? JS.of_nat (S len)) eqn:Hcount.
  - split; [|split].
    + intros b. split.
      * intros Hb. apply in_app_or in Hb. destruct Hb as [Hb | [<- | []]]; [now apply Hold|].
        exists start, len. split; [reflexivity|]. split; [lia|]. split; assumption.
      * intros [s [l [-> [Hle [Hrun Hc]]]]]. apply in_or_app.
        destruct (Hnew s l Hle Hrun Hc) as [Hin | [-> ->]]; [now left | right; now left].
    + rewrite concat_app. cbn [concat]. rewrite app_nil_r.
      apply StronglySorted_app_lt.
      * exact Hsorted.
      * apply StronglySorted_seq.
      * intros x y Hx Hy. rewrite Forall_forall in Hbelow. apply Hbelow in Hx.
        apply in_seq in Hy. lia.
    + rewrite concat_app. cbn [concat]. rewrite app_nil_r.
      apply Forall_app. split; [exact Hbelow'|].
      apply Forall_forall. intros x Hx. apply in_seq in Hx. lia.
  - split; [|split; [exact Hsorted | exact Hbelow']].
    intros b. split; [now apply Hold|].
    intros [s [l [-> [Hle [Hrun Hc]]]]].
    destruct (Hnew s l Hle Hrun Hc) as [Hin | [-> ->]]; [exact Hin | congruence].
Qed.

Lemma burstStep_runs (d : state) (k : nat) :
  forall (i : nat) (st : list (list nat) * list nat),
    (i + k <= length (shotTimes d))%nat ->
    Spec.runs_so_far d i st ->
    Spec.runs_so_far d (i + k) (fold_left (burstStep d) (seq i k) st).
Proof.
  induction k as [|k IH]; intros i [bs cur] Hlen Hinv.
  - cbn. now rewrite Nat.add_0_r.
  - cbn [seq fold_left]. replace (i + S k)%nat with (S i + k)%nat by lia.
    apply IH; [lia|].
    destruct Hinv as [start [len [Hcur [Hend [Hgaps [Hleft [Hbs [Hsorted Hbelow]]]]]]]].
    cbn [fst snd] in *. subst cur. unfold burstStep.
    fold (Spec.within_gap d i).
    destruct (Spec.within_gap d i) eqn:Hgap.
    + exists start, (S len). cbn [fst snd].
      split; [rewrite (seq_S (S len) start); do 2 f_equal; lia|].
      split; [lia|]. split.
      { intros j Hj. destruct (Nat.eq_dec j i) as [-> | Hne]; [exact Hgap|].
        apply Hgaps. lia. }
      split; [exact Hleft|]. split; [exact Hbs|]. split; assumption.
    + destruct (closing_a_run d bs start len) as [Hbs' [Hsorted' Hbelow']];
        try assumption; [lia | right; now replace (start + len + 1)%nat with i by lia|].
      exists i, 0%nat. cbn [fst snd].
      split; [reflexivity|]. split; [lia|]. split; [intros j Hj; lia|].
      split; [now right|].
      replace (start + S len)%nat with i in * by lia.
      split; [exact Hbs'|]. split; assumption.
Qed.

Lemma groupIntoBursts_runs (d : state) :
  shotTimes d <> [] ->
  exists bs,
    groupIntoBursts d = Return tt (set_bursts d bs)
    /\ (forall b, In b bs <->
                  exists start len, b = seq start (S len)
                                    /\ Spec.maximal_run d start len
                                    /\ (minBurstCount d <=? JS.of_nat (S len)) = true)
    /\ StronglySorted lt (concat bs)
    /\ Forall (fun x => (x < length (shotTimes d))%nat) (concat bs).
Proof.
  intros Hshots. unfold groupIntoBursts.
  destruct (Nat.eqb (length (shotTimes d)) 0) eqn:Hlen.
  { apply Nat.eqb_eq, length_zero_iff_nil in Hlen. contradiction. }
  apply Nat.eqb_neq in Hlen.
  destruct (burstStep_runs d (length (shotTimes d) - 1) 1 ([], [0%nat]))
    as [start [len [Hcur [Hend [Hgaps [Hleft [Hbs [Hsorted Hbelow]]]]]]]].
  { lia. }
  { exists 0%nat, 0%nat. cbn [fst snd concat].
    split; [reflexivity|]. split; [reflexivity|]. split; [intros j Hj; lia|].
    split; [now left|]. split; [|split; constructor].
    intros b. split; [intros []|]. intros [s [l [_ [Hle _]]]]. lia. }
  destruct (fold_left (burstStep d) (seq 1 (length (shotTimes d) - 1)) ([], [0%nat]))
    as [bs cur].
  cbn [fst snd] in *. subst cur.
  destruct (closing_a_run d bs start len) as [Hbs' [Hsorted' Hbelow']];
    try assumption; [lia | left; lia|].
  eexists. split; [reflexivity|].
  replace (start + S len)%nat with (length (shotTimes d)) in * by lia.
  split; [|split; assumption].
  intros b. rewrite Hbs'. split.
  - intros [s [l [Hb [_ [Hrun Hc]]]]]. exists s, l. repeat split; try assumption; apply Hrun.
  - intros [s [l [Hb [Hrun Hc]]]]. exists s, l.
    split; [exact Hb|]. split; [destruct Hrun as [Hn _]; lia|]. split; assumption.
Qed.

(** With at least one shot, the bursts [groupIntoBursts] stores are exactly
    the runs of consecutive shots that cannot be extended at either end
    without crossing a gap above the threshold, and that pass the
    [minBurstCount] test; they are stored in order of time and share no
    shot. *)
Theorem groupIntoBursts_stores_the_maximal_runs (d : state) :
  shotTimes d <> [] ->
  exists bs,
    groupIntoBursts d = Return tt (set_bursts d bs)
    /\ (forall b, In b bs <->
                  exists start len, b = seq start (S len)
                                    /\ Spec.maximal_run d start len
                                    /\ (minBurstCount d <=? JS.of_nat (S len)) = true)
    /\ StronglySorted lt (concat bs).
Proof.
  intros Hshots. destruct (groupIntoBursts_runs d Hshots) as [bs [Hrun [Hbs [Hsorted _]]]].
  exists bs. split; [exact Hrun|]. split; assumption.
Qed.

Lemma groupIntoBursts_maximal_runs_in_two_bursts :
  groupIntoBursts Fixtures.two_bursts
  = Return tt (set_bursts Fixtures.two_bursts [[0; 1; 2]; [3; 4; 5]]%nat)
  /\ exists bs,
       groupIntoBursts Fixtures.two_bursts = Return tt (set_bursts Fixtures.two_bursts bs)
       /\ (forall b, In b bs <->
                     exists start len,
                       b = seq start (S len)
                       /\ Spec.maximal_run Fixtures.two_bursts start len
                       /\ (minBurstCount Fixtures.two_bursts <=? JS.of_nat (S len)) = true)
       /\ StronglySorted lt (concat bs).
Proof.
  split; [vm_compute; reflexivity|].
  apply (groupIntoBursts_stores_the_maximal_runs Fixtures.two_bursts).
  cbn. discriminate.
Defined.

End BurstRuns.

(** ** Grouping with parameters that are not numbers *)

Section BurstParameters.
Import RateOfFireDetector.

Lemma nan_leb_r (x : float) : (x <=? nan) = false.
Proof.
  apply not_true_is_false. intros H. apply leb_rank in H. destruct H as [_ [H _]].
  discriminate.
Qed.

Lemma burstStep_never_counted (d : state) :
  (forall n, (minBurstCount d <=? JS.of_nat n) = false) ->
  forall (shots : list nat) (bs : list (list nat)) (cur : list nat),
    fst (fold_left (burstStep d) shots (bs, cur)) = bs.
Proof.
  intros Hcount. induction shots as [|i shots IH]; intros bs cur; [reflexivity|].
  cbn [fold_left]. unfold burstStep at 2.
  destruct (_ <=? burstGapThreshold d); [apply IH|].
  rewrite Hcount. apply IH.
Qed.

Lemma singles_app (d : state) (l1 l2 : list nat) :
  Spec.singles d (l1 ++ l2) = Spec.singles d l1 ++ Spec.singles d l2.
Proof. unfold Spec.singles. destruct (minBurstCount d <=? 1); [apply map_app | reflexivity]. Qed.

Lemma burstStep_never_close (d : state) :
  is_nan (burstGapThreshold d) = true ->
  forall (k i j : nat) (bs : list (list nat)),
    fold_left (burstStep d) (seq i k) (bs, [j])
    = (bs ++ Spec.singles d (firstn k (j :: seq i k)), [nth k (j :: seq i k) 0%nat]).
Proof.
  intros Hnan. induction k as [|k IH]; intros i j bs.
  - cbn. unfold Spec.singles. destruct (minBurstCount d <=? 1); cbn; now rewrite app_nil_r.
  - cbn [seq fold_left]. unfold burstStep at 2.
    rewrite (is_nan_eq _ Hnan), nan_leb_r. rewrite IH.
    cbn [firstn nth length]. f_equal.
    change (j :: firstn k (i :: seq (S i) k)) with ([j] ++ firstn k (i :: seq (S i) k)).
    rewrite singles_app, app_assoc. f_equal.
    unfold Spec.singles. change (JS.of_nat 1) with 1.
    destruct (minBurstCount d <=? 1); [reflexivity | now rewrite app_nil_r].
Qed.

(** With at least one shot and a [minBurstCount] that is not a number, as
    an empty input field produces, no burst is ever stored; with a gap
    threshold that is not a number no two shots are ever grouped, so the
    bursts are the single shots, and only if [minBurstCount] is at most 1. *)
Theorem groupIntoBursts_nan_parameters (d : state) :
  shotTimes d <> [] ->
  (is_nan (minBurstCount d) = true -> groupIntoBursts d = Return tt (set_bursts d []))
  /\ (is_nan (burstGapThreshold d) = true ->
      groupIntoBursts d
      = Return tt (set_bursts d (if minBurstCount d <=? 1
                                 then map (fun i => [i]) (seq 0 (length (shotTimes d)))
                                 else []))).
Proof.
  intros Hshots.
  assert (Hlen : Nat.eqb (length (shotTimes d)) 0 = false).
  { apply Nat.eqb_neq. intros H. apply length_zero_iff_nil in H. contradiction. }
  split; intros Hnan; unfold groupIntoBursts; rewrite Hlen.
  - assert (Hcount : forall n, (minBurstCount d <=? JS.of_nat n) = false)
      by (intros n; rewrite (is_nan_eq _ Hnan); apply nan_leb).
    pose proof (burstStep_never_counted d Hcount
                  (seq 1 (length (shotTimes d) - 1)) [] [0%nat]) as Hfst.
    destruct (fold_left _ _ _) as [bs cur]. cbn [fst] in Hfst. subst bs.
    now rewrite Hcount.
  - rewrite (burstStep_never_close d Hnan).
    apply Nat.eqb_neq in Hlen.
    destruct (length (shotTimes d)) as [|n]; [contradiction|].
    replace (S n - 1)%nat with n by lia.
    assert (Hall : (0 :: seq 1 n = seq 0 n ++ [n])%nat)
      by (change (0 :: seq 1 n)%nat with (seq 0 (S n)); apply (seq_S n 0)).
    rewrite Hall, firstn_app, length_seq, Nat.sub_diag, firstn_O, app_nil_r.
    rewrite firstn_all2 by (rewrite length_seq; lia).
    rewrite app_nth2 by (rewrite length_seq; lia).
    rewrite length_seq, Nat.sub_diag. cbn [nth app length].
    rewrite (seq_S n 0), map_app. cbn [Nat.add map].
    unfold Spec.singles. change (JS.of_nat 1) with 1.
    destruct (minBurstCount d <=? 1); reflexivity.
Qed.

Lemma groupIntoBursts_without_parameters :
  groupIntoBursts (Fixtures.detector 0.2 nan [0; 0.1; 0.5])
  = Return tt (set_bursts (Fixtures.detector 0.2 nan [0; 0.1; 0.5]) [])
  /\ groupIntoBursts (Fixtures.detector nan 1 [0; 0.1; 0.5])
     = Return tt (set_bursts (Fixtures.detector nan 1 [0; 0.1; 0.5]) [[0]; [1]; [2]]%nat).
Proof.
  split.
  - apply (proj1 (groupIntoBursts_nan_parameters (Fixtures.detector 0.2 nan [0; 0.1; 0.5])
                    ltac:(cbn; discriminate))).
    reflexivity.
  - apply (proj2 (groupIntoBursts_nan_parameters (Fixtures.detector nan 1 [0; 0.1; 0.5])
                    ltac:(cbn; discriminate))).
    reflexivity.
Defined.

End BurstParameters.

(** ** Rates *)

Section Rates.
Import RateOfFireDetector.

Lemma burstInfoOf_rate (d : state) (k : nat) (burst : list nat) :
  (rateRpm (burstInfoOf d k burst) <? 0) = false
  /\ ((length burst <= 1)%nat -> rateRpm (burstInfoOf d k burst) = 0).
Proof.
  unfold burstInfoOf. cbv zeta. cbn [rateRpm].
  set (times := map (fun idx => JS.get (shotTimes d) idx) burst).
  assert (Hlen : length times = length burst) by apply length_map.
  destruct (0 <? JS.get times (length times - 1) - JS.get times 0) eqn:Hpos.
  - destruct (length times) as [|[|n]] eqn:Hn.
    + exfalso. apply length_zero_iff_nil in Hn. rewrite Hn in Hpos.
      vm_compute in Hpos. discriminate.
    + exfalso. cbn [Nat.sub] in Hpos.
      pose proof (sub_positive_one_way _ _ Hpos). congruence.
    + split; [|lia].
      apply sign_clear_not_negative, mul_sign_clear.
      * apply div_sign_clear; [apply of_Z_sign_clear; lia | now apply positive_sign_clear].
      * apply positive_sign_clear. reflexivity.
  - split; reflexivity.
Qed.

(** Whenever [calculateRates] returns, no record it returns has a negative
    rate, and the record of a burst of a single shot has rate 0. *)
Theorem calculateRates_rates_not_negative (d d' : state) (results : list burstInfo) :
  calculateRates d = Return results d' ->
  Forall (fun b => (rateRpm b <? 0) = false
                   /\ ((numShots b <= 1)%nat -> rateRpm b = 0))
         results.
Proof.
  intros Hrun. apply calculateRates_Return in Hrun. destruct Hrun as [_ [-> _]].
  apply Forall_forall. intros b Hb.
  apply in_map_iff in Hb. destruct Hb as [k [<- _]].
  destruct (burstInfoOf_rate d k (nth k (bursts d) [])) as [Hsign Hone].
  split; [exact Hsign|].
  intros Hn. apply Hone. cbn [numShots burstInfoOf] in Hn.
  now rewrite length_map in Hn.
Qed.

Lemma calculateRates_rates_of_two_bursts :
  exists results,
    calculateRates (Fixtures.grouped Fixtures.two_bursts)
    = Return results (Fixtures.grouped Fixtures.two_bursts)
    /\ map rateRpm results = [800; 2 / (0.6 - 0.5) * 60]
    /\ Forall (fun b => (rateRpm b <? 0) = false
                        /\ ((numShots b <= 1)%nat -> rateRpm b = 0))
              results.
Proof.
  destruct (calculateRates (Fixtures.grouped Fixtures.two_bursts))
    as [results d'|e] eqn:Hrun; [|vm_compute in Hrun; discriminate].
  pose proof (calculateRates_rates_not_negative _ _ _ Hrun) as Hrates.
  apply calculateRates_Return in Hrun. destruct Hrun as [-> [-> _]].
  eexists. split; [reflexivity|]. split; [vm_compute; reflexivity | exact Hrates].
Defined.

(** [calculateRates] returns, leaving the detector as it is, when every
    stored burst is non-empty and begins and ends with an index of
    [shotTimes]; it throws a [TypeError], from the log line, as soon as one
    stored burst is empty or begins or ends with an index that [shotTimes]
    does not have.  The latter is the case of every burst left over from an
    earlier run when no shot time is stored. *)
Theorem calculateRates_throws_on_undefined_times (d : state) :
  (Forall (fun burst => burst <> []
                        /\ (hd 0%nat burst < length (shotTimes d))%nat
                        /\ (last burst 0%nat < length (shotTimes d))%nat) (bursts d) ->
   exists results, calculateRates d = Return results d
                   /\ length results = length (bursts d))
  /\ (Exists (fun burst => burst = []
                           \/ (length (shotTimes d) <= hd 0%nat burst)%nat
                           \/ (length (shotTimes d) <= last burst 0%nat)%nat) (bursts d) ->
      calculateRates d = Throw TypeError)
  /\ (shotTimes d = [] -> bursts d <> [] -> calculateRates d = Throw TypeError).
Proof.
  assert (Hbad : Exists (fun burst => burst = []
                                      \/ (length (shotTimes d) <= hd 0%nat burst)%nat
                                      \/ (length (shotTimes d) <= last burst 0%nat)%nat)
                        (bursts d) ->
                 calculateRates d = Throw TypeError).
  { intros Hex. rewrite calculateRates_spec.
    destruct (forallb (logsBurst d) (bursts d)) eqn:Hall; [|reflexivity].
    exfalso. rewrite forallb_forall in Hall. apply Exists_exists in Hex.
    destruct Hex as [burst [Hin Hcase]]. apply Hall, logsBurst_spec in Hin.
    destruct Hin as [Hne [Hfirst Hlast]].
    destruct Hcase as [Hnil | [H | H]]; [contradiction | lia | lia]. }
  split; [|split; [exact Hbad|]].
  - intros Hok. rewrite calculateRates_spec.
    assert (Hall : forallb (logsBurst d) (bursts d) = true).
    { apply forallb_forall. intros burst Hin. rewrite Forall_forall in Hok.
      apply logsBurst_spec. now apply Hok. }
    rewrite Hall. eexists. split; [reflexivity|]. now rewrite length_map, length_seq.
  - intros Hnone Hstale. apply Hbad.
    destruct (bursts d) as [|burst rest]; [contradiction|].
    constructor. destruct burst as [|i burst]; [now left|].
    right. left. rewrite Hnone. cbn. lia.
Qed.

Lemma calculateRates_on_reused_detector :
  (exists results, calculateRates (Fixtures.grouped Fixtures.two_bursts)
                   = Return results (Fixtures.grouped Fixtures.two_bursts)
                   /\ length results = 2%nat)
  /\ shotTimes Fixtures.reused = []
  /\ bursts Fixtures.reused = [[0; 1; 2]; [3; 4; 5]]%nat
  /\ calculateRates Fixtures.reused = Throw TypeError.
Proof.
  destruct (calculateRates_throws_on_undefined_times (Fixtures.grouped Fixtures.two_bursts))
    as [Hok _].
  destruct (calculateRates_throws_on_undefined_times Fixtures.reused) as [_ [_ Hstale]].
  split.
  - apply Hok. vm_compute. repeat constructor; try discriminate; lia.
  - split; [vm_compute; reflexivity|]. split; [vm_compute; reflexivity|].
    apply Hstale; [vm_compute; reflexivity | vm_compute; discriminate].
Defined.

End Rates.

(** ** The whole analysis *)

Section Analysis.
Import RateOfFireDetector.

Lemma fold_left_numShots (rs : list burstInfo) :
  forall n, fold_left (fun sum b => (sum + numShots b)%nat) rs n
            = (n + list_sum (map numShots rs))%nat.
Proof.
  induction rs as [|b rs IH]; intros n; [cbn; lia|].
  cbn [fold_left map]. rewrite IH.
  change (list_sum (numShots b :: map numShots rs))
    with (numShots b + list_sum (map numShots rs))%nat.
  lia.
Qed.

Lemma generateSummary_counts (rs : list burstInfo) :
  totalBursts (generateSummary rs) = length rs
  /\ totalShots (generateSummary rs) = list_sum (map numShots rs).
Proof.
  unfold generateSummary. destruct rs as [|b rs]; [split; reflexivity|].
  cbn [length Nat.eqb totalBursts totalShots]. split; [reflexivity|].
  apply fold_left_numShots.
Qed.

Lemma increasing_NoDup (l : list nat) : StronglySorted lt l -> NoDup l.
Proof.
  induction 1 as [|x l Hl IH Hx]; constructor; [|exact IH].
  intros Hin. rewrite Forall_forall in Hx. specialize (Hx _ Hin). lia.
Qed.

Lemma increasing_below_length (l : list nat) (n : nat) :
  StronglySorted lt l -> Forall (fun x => (x < n)%nat) l -> (length l <= n)%nat.
Proof.
  intros Hsorted Hbelow. rewrite <- (length_seq n 0).
  apply NoDup_incl_length; [now apply increasing_NoDup|].
  intros x Hx. rewrite Forall_forall in Hbelow. apply in_seq. specialize (Hbelow _ Hx). lia.
Qed.

(** When [analyze] returns, the sample rate was usable, the detector holds
    the audio, an envelope of the same length and one shot time per
    reported peak, and the report is consistent with it: one entry per
    stored burst, each with that burst's number of shots, a summary computed
    from those entries, and no more shots counted than peaks were found.
    It returns without a peak only when the detector had no bursts stored
    before. *)
Theorem analyze_report_is_consistent (e : JS.engine) (rate : float)
    (samples : list float) (d d' : state) (a : analysis) :
  analyze e rate samples d = Return a d' ->
  JS.falsy rate = false
  /\ audioDuration a = JS.of_nat (length samples) / rate
  /\ analysisSampleRate a = rate
  /\ sampleRate d' = Some rate /\ audioData d' = Some samples
  /\ (exists env, envelope d' = Some env /\ length env = length samples)
  /\ shotTimes d' = map (fun i => JS.of_nat i / rate) (analysisPeaks a)
  /\ calculateRates d' = Return (analysisBursts a) d'
  /\ analysisSummary a = generateSummary (analysisBursts a)
  /\ totalBursts (analysisSummary a) = length (bursts d')
  /\ map numShots (analysisBursts a) = map (@length nat) (bursts d')
  /\ (totalShots (analysisSummary a) <= length (analysisPeaks a))%nat
  /\ (analysisPeaks a = [] -> bursts d = [] /\ bursts d' = []).
Proof.
  unfold analyze, bind, extractAudio.
  destruct (calculateEnvelope e (set_audio d rate samples)) as [[] d1|err] eqn:HE;
    [|discriminate].
  destruct (detectPeaks d1) as [found d2|err] eqn:HD; [|discriminate].
  destruct (groupIntoBursts d2) as [[] d3|err] eqn:HG; [|discriminate].
  destruct (calculateRates d3) as [burstResults d4|err] eqn:HR; [|discriminate].
  intros H. injection H as <- <-.
  cbn [audioDuration analysisSampleRate analysisSummary analysisBursts analysisPeaks].
  apply calculateEnvelope_returns in HE.
  destruct HE as [audio [rate' [env [Haudio [Hrate [Hok [-> Hshape]]]]]]].
  cbn [audioData sampleRate set_audio] in Haudio, Hrate.
  injection Haudio as <-. injection Hrate as <-.
  destruct (envelope_length_and_signs samples env Hshape) as [Hlen _].
  apply detectPeaks_returns in HD.
  destruct HD as [env' [rate' [Henv [Hrate [_ [_ ->]]]]]].
  cbn [envelope sampleRate set_envelope set_audio] in Henv, Hrate.
  injection Henv as <-. injection Hrate as <-.
  set (d2 := set_shotTimes (set_envelope (set_audio d rate samples) env)
               (map (fun i => JS.of_nat i / rate) (Signal.peaks found))) in *.
  pose proof (calculateRates_numShots _ _ _ HR) as Hnum.
  pose proof (calculateRates_Return _ _ _ HR) as [-> [Hresults Hlogs]].
  assert (Hfields : sampleRate d3 = Some rate /\ audioData d3 = Some samples
                    /\ envelope d3 = Some env
                    /\ shotTimes d3 = map (fun i => JS.of_nat i / rate) (Signal.peaks found)
                    /\ (length (concat (bursts d3)) <= length (Signal.peaks found))%nat
                    /\ (Signal.peaks found = [] -> bursts d = [] /\ bursts d3 = [])).
  { destruct (Signal.peaks found) as [|i0 rest] eqn:Hpeaks.
    - rewrite (groupIntoBursts_no_shots d2) in HG by reflexivity.
      injection HG as <-. repeat (split; [reflexivity|]).
      assert (Hnone : bursts d = []).
      { destruct (bursts d) as [|burst stale] eqn:Hstale; [reflexivity|]. exfalso.
        cbn [bursts d2 set_shotTimes set_envelope set_audio] in Hlogs.
        rewrite Hstale in Hlogs. cbn [forallb] in Hlogs.
        apply andb_prop in Hlogs. destruct Hlogs as [Hlog _].
        apply logsBurst_spec in Hlog. destruct Hlog as [_ [Hfirst _]].
        cbn in Hfirst. lia. }
      cbn [bursts d2 set_shotTimes set_envelope set_audio]. rewrite Hnone.
      split; [cbn; lia|]. intros _. split; reflexivity.
    - destruct (groupIntoBursts_runs d2) as [bs [Hrun [_ [Hsorted Hbelow]]]];
        [cbn; discriminate|].
      rewrite Hrun in HG. injection HG as <-. repeat (split; [reflexivity|]).
      split; [|discriminate]. cbn [bursts set_bursts].
      pose proof (increasing_below_length _ _ Hsorted Hbelow) as Hle.
      cbn [shotTimes d2 set_shotTimes] in Hle. now rewrite length_map in Hle. }
  destruct Hfields as [Hf1 [Hf2 [Hf3 [Hf4 [Hf5 Hf6]]]]].
  destruct (generateSummary_counts burstResults) as [Hbursts Hshots].
  split; [exact Hok|]. split; [reflexivity|]. split; [reflexivity|].
  split; [exact Hf1|]. split; [exact Hf2|].
  split; [exists env; split; [exact Hf3 | rewrite Hlen; reflexivity]|].
  split; [exact Hf4|]. split; [exact HR|]. split; [reflexivity|].
  split; [rewrite Hbursts, Hresults; now rewrite length_map, length_seq|].
  split; [exact Hnum|].
  split; [rewrite Hshots, Hnum, <- length_concat; exact Hf5 | exact Hf6].
Qed.

Lemma analyze_report_on_two_clicks :
  let fresh := constructor {| opt_peakThresholdStd := None; opt_minShotSpacing := None;
                              opt_burstGapThreshold := None; opt_windowSize := None;
                              opt_minPeakProminence := None; opt_minBurstCount := Some 2 |} in
  exists a d',
    analyze Fixtures.engine 100 [0; 0; 1; 0; 0; 0; 0; 0; 0; 0; -1; 0; 0] fresh = Return a d'
    /\ analysisPeaks a = [2; 10]%nat
    /\ bursts d' = [[0; 1]]%nat
    /\ totalBursts (analysisSummary a) = length (bursts d')
    /\ (totalShots (analysisSummary a) <= length (analysisPeaks a))%nat.
Proof.
  intros fresh.
  destruct (analyze Fixtures.engine 100 [0; 0; 1; 0; 0; 0; 0; 0; 0; 0; -1; 0; 0] fresh)
    as [a d'|err] eqn:Hrun; [|vm_compute in Hrun; discriminate].
  destruct (analyze_report_is_consistent _ _ _ _ _ _ Hrun)
    as [_ [_ [_ [_ [_ [_ [_ [_ [_ [Hbursts [_ [Hshots _]]]]]]]]]]]].
  exists a, d'. split; [reflexivity|].
  split; [vm_compute in Hrun; injection Hrun as <- _; reflexivity|].
  split; [vm_compute in Hrun; injection Hrun as _ <-; reflexivity|].
  split; [exact Hbursts | exact Hshots].
Defined.

(** On a detector that still holds the bursts of an earlier run, an
    analysis in which no peak is found does not report those bursts: the
    shot times are emptied, burst grouping returns early and leaves the old
    bursts in place, and [calculateRates] throws the [TypeError] of its log
    line. *)
Theorem analyze_on_reused_detector_throws (e : JS.engine) (rate : float)
    (samples : list float) (d d1 d2 : state) (found : Signal.result) :
  bursts d <> [] ->
  calculateEnvelope e (set_audio d rate samples) = Return tt d1 ->
  detectPeaks d1 = Return found d2 ->
  Signal.peaks found = [] ->
  analyze e rate samples d = Throw TypeError.
Proof.
  intros Hstale HE HD Hnone. unfold analyze, bind, extractAudio. rewrite HE, HD.
  apply calculateEnvelope_returns in HE.
  destruct HE as [audio [rate' [env [_ [_ [_ [-> _]]]]]]].
  apply detectPeaks_returns in HD. destruct HD as [env' [rate'' [_ [_ [_ [_ ->]]]]]].
  rewrite Hnone. cbn [map].
  rewrite groupIntoBursts_no_shots by reflexivity.
  rewrite calculateRates_spec.
  cbn [bursts shotTimes set_shotTimes set_envelope set_audio].
  destruct (bursts d) as [|burst rest]; [contradiction|].
  cbn [forallb].
  assert (Hlog : logsBurst (set_shotTimes (set_envelope (set_audio d rate samples) env) [])
                           burst = false).
  { apply not_true_is_false. intros Hlog. apply logsBurst_spec in Hlog.
    destruct Hlog as [_ [Hfirst _]]. cbn in Hfirst. lia. }
  rewrite Hlog. reflexivity.
Qed.

Lemma analyze_silence_on_reused_detector :
  bursts (Fixtures.grouped Fixtures.two_bursts) = [[0; 1; 2]; [3; 4; 5]]%nat
  /\ analyze Fixtures.engine 1000 [0; 0; 0; 0] (Fixtures.grouped Fixtures.two_bursts)
     = Throw TypeError.
Proof.
  split; [vm_compute; reflexivity|].
  eapply (analyze_on_reused_detector_throws Fixtures.engine 1000 [0; 0; 0; 0]
            (Fixtures.grouped Fixtures.two_bursts)).
  - vm_compute. discriminate.
  - vm_compute. reflexivity.
  - vm_compute. reflexivity.
  - reflexivity.
Defined.

(** A sample rate of zero or NaN makes [analyze] throw in its second
    stage, with the message that asks for the first. *)
Theorem analyze_rejects_unusable_rate (e : JS.engine) (rate : float)
    (samples : list float) (d : state) :
  JS.falsy rate = true ->
  analyze e rate samples d = Throw "Must call extractAudio first"%string.
Proof.
  intros Hrate. unfold analyze, bind, extractAudio, calculateEnvelope.
  cbn [audioData sampleRate set_audio]. now rewrite Hrate.
Qed.

Lemma analyze_without_sample_rate :
  analyze Fixtures.engine 0 [0; 1; 0] (constructor no_options)
  = Throw "Must call extractAudio first"%string.
Proof. apply analyze_rejects_unusable_rate. reflexivity. Defined.

End Analysis.

(** ** The plot helpers *)

Section Plot.
Import ROFVisualizer.

Lemma passes_succ (m step : nat) :
  (1 <= step)%nat -> (1 <= m)%nat ->
  ((m + step - 1) / step = S ((m - step + step - 1) / step))%nat.
Proof.
  intros Hstep Hm. destruct (le_lt_dec step m) as [Hle | Hlt].
  - replace (m + step - 1)%nat with ((m - step + step - 1) + 1 * step)%nat by lia.
    rewrite Nat.div_add by lia. lia.
  - replace (m + step - 1)%nat with ((m - 1) + 1 * step)%nat by lia.
    rewrite Nat.div_add by lia.
    replace (m - step + step - 1)%nat with (step - 1)%nat by lia.
    rewrite !Nat.div_small by lia. reflexivity.
Qed.

Lemma downsampleLoop_spec {A B : Type} (samples : list A) (timeArray : list B) (step : nat) :
  (1 <= step)%nat ->
  forall (fuel i : nat),
    (length samples - i <= fuel)%nat ->
    downsampleLoop samples timeArray step fuel i
    = (map (fun k => nth_error samples (i + k * step))
           (seq 0 ((length samples - i + step - 1) / step)),
       map (fun k => nth_error timeArray (i + k * step))
           (seq 0 ((length samples - i + step - 1) / step))).
Proof.
  intros Hstep. induction fuel as [|fuel IH]; intros i Hfuel.
  - cbn [downsampleLoop]. replace (length samples - i)%nat with 0%nat by lia.
    cbn [Nat.add]. rewrite Nat.div_small by lia. reflexivity.
  - cbn [downsampleLoop]. destruct (Nat.ltb i (length samples)) eqn:Hi.
    + apply Nat.ltb_lt in Hi. rewrite IH by lia.
      rewrite (passes_succ (length samples - i) step) by lia.
      replace (length samples - (i + step))%nat with (length samples - i - step)%nat by lia.
      cbn [seq map]. rewrite <- seq_shift, !map_map.
      replace (i + 0 * step)%nat with i by lia.
      f_equal; f_equal; apply map_ext; intros k; f_equal; lia.
    + apply Nat.ltb_ge in Hi. replace (length samples - i)%nat with 0%nat by lia.
      cbn [Nat.add]. rewrite Nat.div_small by lia. reflexivity.
Qed.

Lemma nth_error_map_seq {A : Type} (f : nat -> A) (n k : nat) :
  (k < n)%nat -> nth_error (map f (seq 0 n)) k = Some (f k).
Proof.
  intros Hk. rewrite nth_error_map, nth_error_seq.
  apply Nat.ltb_lt in Hk. rewrite Hk. reflexivity.
Qed.

(** For more samples than [maxPoints], [downsample] keeps every [step]-th
    sample and its time, [step] being the whole part of the ratio.  It
    keeps at least [maxPoints] of them and up to [2 * maxPoints - 1]: the
    parameter is not an upper bound on the number of points plotted. *)
Theorem downsample_point_count {A B : Type} (samples : list A) (timeArray : list B)
    (maxPoints : nat) :
  (1 <= maxPoints)%nat -> (maxPoints < length samples)%nat ->
  let step := (length samples / maxPoints)%nat in
  let out := downsample samples timeArray maxPoints in
  length (time out) = length (data out)
  /\ (maxPoints <= length (data out) <= 2 * maxPoints - 1)%nat
  /\ (length (data out) <= length samples)%nat
  /\ forall k, (k < length (data out))%nat ->
               (k * step < length samples)%nat
               /\ nth_error (data out) k = Some (nth_error samples (k * step))
               /\ nth_error (time out) k = Some (nth_error timeArray (k * step)).
Proof.
  intros Hmax Hlen step out.
  assert (Hstep : (1 <= step)%nat).
  { unfold step. apply Nat.div_le_lower_bound; lia. }
  assert (Hdiv : (length samples = maxPoints * step + length samples mod maxPoints)%nat)
    by (unfold step; apply Nat.div_mod_eq).
  assert (Hmod : (length samples mod maxPoints < maxPoints)%nat)
    by (apply Nat.mod_upper_bound; lia).
  set (count := ((length samples + step - 1) / step)%nat).
  assert (Hout : out = {| data := map (fun k => nth_error samples (k * step)) (seq 0 count);
                          time := map (fun k => nth_error timeArray (k * step)) (seq 0 count) |}).
  { unfold out, downsample.
    destruct (Nat.leb (length samples) maxPoints) eqn:Hle; [apply Nat.leb_le in Hle; lia|].
    destruct maxPoints as [|m]; [lia|]. fold step.
    rewrite (downsampleLoop_spec samples timeArray step Hstep) by lia.
    rewrite Nat.sub_0_r. reflexivity. }
  rewrite Hout. cbn [data time]. rewrite !length_map, !length_seq.
  assert (Hlow : (maxPoints <= count)%nat).
  { unfold count. apply Nat.div_le_lower_bound; [lia|]. nia. }
  assert (Hhigh : (count < 2 * maxPoints)%nat).
  { unfold count. apply Nat.Div0.div_lt_upper_bound. nia. }
  assert (Hin : forall k, (k < count)%nat -> (k * step < length samples)%nat).
  { intros k Hk. unfold count in Hk.
    assert (Hk' : (S k <= (length samples + step - 1) / step)%nat) by lia.
    pose proof (Nat.Div0.mul_div_le (length samples + step - 1) step) as Hfloor.
    nia. }
  split; [reflexivity|]. split; [lia|]. split.
  - destruct count as [|c]; [lia|]. specialize (Hin c ltac:(lia)). nia.
  - intros k Hk. split; [now apply Hin|].
    split; [apply (nth_error_map_seq (fun k => nth_error samples (k * step))); exact Hk
           | apply (nth_error_map_seq (fun k => nth_error timeArray (k * step))); exact Hk].
Qed.

Lemma downsample_three_to_two :
  (1 <= 2)%nat /\ (2 < length [10; 20; 30]%nat)%nat
  /\ data (downsample [10; 20; 30]%nat [0; 1; 2]%nat 2) = [Some 10; Some 20; Some 30]%nat
  /\ (2 <= length (data (downsample [10; 20; 30]%nat [0; 1; 2]%nat 2)) <= 2 * 2 - 1)%nat.
Proof.
  split; [lia|]. split; [cbn; lia|]. split; [reflexivity|].
  apply (downsample_point_count [10; 20; 30]%nat [0; 1; 2]%nat 2); cbn; lia.
Defined.

Lemma baseColors_NoDup : NoDup baseColors.
Proof.
  unfold baseColors.
  repeat (constructor; [cbn; intros H; repeat (destruct H as [H | H]; [discriminate|]); exact H|]).
  constructor.
Qed.

(** [generateColors] returns one colour per burst, cycling through its ten
    base colours: two bursts fewer than ten apart never share a colour, and
    two bursts exactly ten apart always do. *)
Theorem generateColors_cycle (count : nat) :
  length (generateColors count) = count
  /\ (forall i j, (i < j < count)%nat -> (j - i < 10)%nat ->
                  nth_error (generateColors count) i <> nth_error (generateColors count) j)
  /\ (forall i, (i + 10 < count)%nat ->
                nth_error (generateColors count) (i + 10) = nth_error (generateColors count) i).
Proof.
  unfold generateColors. change (length baseColors) with 10%nat.
  split; [now rewrite length_map, length_seq|]. split.
  - intros i j Hij Hnear.
    rewrite !nth_error_map_seq by lia. intros Hsame.
    assert (H : nth (i mod 10) baseColors EmptyString = nth (j mod 10) baseColors EmptyString)
      by congruence.
    apply (proj1 (NoDup_nth baseColors EmptyString) baseColors_NoDup) in H.
    + pose proof (Nat.div_mod_eq i 10). pose proof (Nat.div_mod_eq j 10). lia.
    + change (length baseColors) with 10%nat. apply Nat.mod_upper_bound. lia.
    + change (length baseColors) with 10%nat. apply Nat.mod_upper_bound. lia.
  - intros i Hi. rewrite !nth_error_map_seq by lia. do 2 f_equal.
    replace (i + 10)%nat with (i + 1 * 10)%nat by lia. apply Nat.Div0.mod_add.
Qed.

End Plot.
